(** * Word-class optimizer (wordclasses/optimizer.py)

    A shallow embedding of the [Optimizer] class: the vocabulary and the
    word statistics read from a corpus, the frequency-based initial class
    assignment, the class statistics, the likelihood computations and the
    move of one word to another class.

    Conventions of the embedding.
    - numpy [int64] cells are integers of [Z]; every in-place [+=] / [-=]
      and every [int64] operation wraps around ([wrap64]).
    - numpy [float64] values are the kernel's binary64 floats.  [numpy.log]
      and the summation order of [ndarray.sum] are not part of the
      repository: they are parameters ([np_log], [np_sum]).
    - word ids and class ids are natural numbers; an id that is not below
      the length of the indexed axis raises [IndexError].  Python's negative
      (from the end) indices are not part of the embedding.
    - strings are sequences of 8-bit characters; [str.split] and
      [str.strip] use the ASCII white space of [str.isspace].
    - a Python [set] of strings is a [gset string]; the order in which it
      is iterated is a parameter ([set_iter]).
    - methods that mutate [self] are functions in a state-and-exception
      monad over the [Optimizer] record; the store reached when an
      exception is raised is kept. *)

From Stdlib Require Import ZArith Lia Floats.
From stdpp Require Import gmap strings list.

Local Open Scope Z_scope.
#[local] Set Warnings "-clear-no-such-hyp".

(** ** Exceptions and results *)

Inductive exn : Set :=
  | IndexError
  | KeyError
  | TypeError
  | ValueError
  | ZeroDivisionError.

Inductive res (A : Type) : Type :=
  | Ok (a : A)
  | Raise (e : exn).
Arguments Ok {A} a.
Arguments Raise {A} e.

#[global] Instance exn_eq_dec : EqDecision exn.
Proof. solve_decision. Defined.

#[global] Instance res_eq_dec {A} `{EqDecision A} : EqDecision (res A).
Proof. solve_decision. Defined.

Definition res_bind {A B} (m : res A) (k : A → res B) : res B :=
  match m with
  | Ok a => k a
  | Raise e => Raise e
  end.

Notation "x <~ m ; k" := (res_bind m (fun x => k))
  (at level 100, m at next level, k at level 200, right associativity,
   format "'[v' x  <~  m ; '/' k ']'").

(** [for x in xs: s = body x s], stopping at the first exception. *)
Fixpoint for_res {A S} (xs : list A) (body : A → S → res S) (s : S) : res S :=
  match xs with
  | [] => Ok s
  | x :: xs' => s' <~ body x s; for_res xs' body s'
  end.

Fixpoint map_res {A B} (f : A → res B) (xs : list A) : res (list B) :=
  match xs with
  | [] => Ok []
  | x :: xs' => y <~ f x; ys <~ map_res f xs'; Ok (y :: ys)
  end.

(** ** numpy int64 *)

Definition wrap64 (z : Z) : Z := (z + 2 ^ 63) mod 2 ^ 64 - 2 ^ 63.

Definition is_int64 (z : Z) : Prop := - 2 ^ 63 ≤ z < 2 ^ 63.

(** ** Python lists and numpy arrays, indexed by a natural number *)

Definition getitem {A} (l : list A) (i : nat) : res A :=
  match l !! i with
  | Some x => Ok x
  | None => Raise IndexError
  end.

Definition setitem {A} (l : list A) (i : nat) (x : A) : res (list A) :=
  match l !! i with
  | Some _ => Ok (<[i := x]> l)
  | None => Raise IndexError
  end.

(** [a[i] += d] and [a[i] -= d] on a one-dimensional int64 array. *)
Definition iadd1 (a : list Z) (i : nat) (d : Z) : res (list Z) :=
  x <~ getitem a i; setitem a i (wrap64 (x + d)).

Definition isub1 (a : list Z) (i : nat) (d : Z) : res (list Z) :=
  x <~ getitem a i; setitem a i (wrap64 (x - d)).

(** A two-dimensional array is the list of its rows. *)
Definition getitem2 (a : list (list Z)) (i j : nat) : res Z :=
  row <~ getitem a i; getitem row j.

Definition iadd2 (a : list (list Z)) (i j : nat) (d : Z) : res (list (list Z)) :=
  row <~ getitem a i; row' <~ iadd1 row j d; setitem a i row'.

Definition isub2 (a : list (list Z)) (i j : nat) (d : Z) : res (list (list Z)) :=
  row <~ getitem a i; row' <~ isub1 row j d; setitem a i row'.

(** [a[i,:]] and [a[:,j]]. *)
Definition getrow (a : list (list Z)) (i : nat) : res (list Z) := getitem a i.

Definition getcol (a : list (list Z)) (j : nat) : res (list Z) :=
  map_res (λ row, getitem row j) a.

(** [numpy.zeros(n, numpy.int64)] and [numpy.zeros((n, m), numpy.int64)]. *)
Definition zeros1 (n : Z) : res (list Z) :=
  if n <? 0 then Raise ValueError else Ok (replicate (Z.to_nat n) 0).

Definition zeros2 (n m : Z) : res (list (list Z)) :=
  if (n <? 0) || (m <? 0) then Raise ValueError
  else Ok (replicate (Z.to_nat n) (replicate (Z.to_nat m) 0)).

(** [enumerate(l)]. *)
Definition enumerate {A} (l : list A) : list (nat * A) := imap (λ i x, (i, x)) l.

(** [numpy.ndenumerate(a)] of a two-dimensional array: row-major. *)
Definition ndenumerate (a : list (list Z)) : list ((nat * nat) * Z) :=
  mjoin (imap (λ i row, imap (λ j x, ((i, j), x)) row) a).

(** [sorted(l, key=lambda x: x[1])]: Python's sort is stable. *)
Fixpoint insert_by_count (x : nat * Z) (l : list (nat * Z)) : list (nat * Z) :=
  match l with
  | [] => [x]
  | y :: l' => if x.2 <=? y.2 then x :: y :: l' else y :: insert_by_count x l'
  end.

Definition sorted_by_count (l : list (nat * Z)) : list (nat * Z) :=
  foldr insert_by_count [] l.

(** ** Strings: [str.split()] and [str.strip()] *)

Definition py_isspace (c : Ascii.ascii) : bool :=
  let n := Ascii.nat_of_ascii c in
  ((9 <=? n)%nat && (n <=? 13)%nat) || ((28 <=? n)%nat && (n <=? 32)%nat).

Fixpoint split_go (cur : string) (s : string) : list string :=
  match s with
  | EmptyString => if decide (cur = EmptyString) then [] else [String.rev cur]
  | String c s' =>
      if py_isspace c
      then if decide (cur = EmptyString) then split_go EmptyString s'
           else String.rev cur :: split_go EmptyString s'
      else split_go (String c cur) s'
  end.

Definition split (line : string) : list string := split_go EmptyString line.

Fixpoint lstrip (s : string) : string :=
  match s with
  | EmptyString => EmptyString
  | String c s' => if py_isspace c then lstrip s' else s
  end.

Definition strip (s : string) : string :=
  String.rev (lstrip (String.rev (lstrip s))).

(** ** The optimizer object *)

Record Optimizer : Type := mkOptimizer {
  vocabulary : gset string;
  vocabulary_size : nat;
  word_ids : gmap string nat;
  word_counts : list Z;
  ww_counts : list (list Z);
  num_classes : Z;
  word_to_class : list (option nat);
  class_to_words : list (gset nat);
  class_counts : list Z;
  cc_counts : list (list Z);
  cw_counts : list (list Z);
  wc_counts : list (list Z)
}.

(** [d[k]] on a dictionary. *)
Definition dict_get (d : gmap string nat) (k : string) : res nat :=
  match d !! k with
  | Some v => Ok v
  | None => Raise KeyError
  end.

(** [s.add(x)] and [s.remove(x)] on the set stored at index [c] of a list
    of sets. *)
Definition set_add (sets : list (gset nat)) (c x : nat) : res (list (gset nat)) :=
  s <~ getitem sets c; setitem sets c (s ∪ {[x]}).

Definition set_remove (sets : list (gset nat)) (c x : nat) : res (list (gset nat)) :=
  s <~ getitem sets c;
  if decide (x ∈ s) then setitem sets c (s ∖ {[x]}) else Raise KeyError.

(** ** Construction *)

(** The vocabulary read by [__init__] (lines 17-26). *)
Definition read_vocabulary (corpus_file : list string)
    (vocabulary_file : option (list string)) : gset string :=
  let vocabulary : gset string := {["<s>"; "</s>"; "<UNK>"]} in
  match vocabulary_file with
  | None =>
      foldl (λ voc line, voc ∪ list_to_set (split line)) vocabulary corpus_file
  | Some lines =>
      let restrict_words : gset string := list_to_set (strip <$> lines) in
      foldl (λ voc line,
               foldl (λ voc word,
                        if decide (word ∈ restrict_words) then voc ∪ {[word]}
                        else voc)
                     voc (split line))
            vocabulary corpus_file
  end.

(** [dict(zip(keys, range(n)))]: a later pair overrides an earlier one. *)
Definition dict_zip_range (keys : list string) (n : nat) : gmap string nat :=
  foldl (λ d kv, <[kv.1 := kv.2]> d) ∅ (zip keys (seq 0 n)).

(** The ids of one bracketed sentence (lines 57-63). *)
Definition sentence_ids (voc : gset string) (ids : gmap string nat)
    (line : string) : res (list nat) :=
  bos <~ dict_get ids "<s>";
  ws <~ map_res (λ word, if decide (word ∈ voc) then dict_get ids word
                         else dict_get ids "<UNK>") (split line);
  eos <~ dict_get ids "</s>";
  Ok (bos :: ws ++ [eos]).

(** [zip(sentence[:-1], sentence[1:])]. *)
Definition bigrams (sentence : list nat) : list (nat * nat) :=
  zip (take (length sentence - 1) sentence) (drop 1 sentence).

Definition _read_word_statistics (voc : gset string) (size : nat)
    (ids : gmap string nat) (corpus_file : list string)
    : res (list Z * list (list Z)) :=
  wcs <~ zeros1 (Z.of_nat size);
  wws <~ zeros2 (Z.of_nat size) (Z.of_nat size);
  for_res corpus_file
    (λ line st,
       sentence <~ sentence_ids voc ids line;
       wcs <~ for_res sentence (λ word_id wcs, iadd1 wcs word_id 1) st.1;
       wws <~ for_res (bigrams sentence)
                (λ lr wws, iadd2 wws lr.1 lr.2 1) st.2;
       Ok (wcs, wws))
    (wcs, wws).

(** [class_id = min((class_id + 1) % self.num_classes, 3)] (line 93).  The
    result is an index again; for a positive number of classes it lies in
    0..3. *)
Definition next_class_id (ncls : Z) (class_id : nat) : res nat :=
  if decide (ncls = 0) then Raise ZeroDivisionError
  else Ok (Z.to_nat (Z.min ((Z.of_nat class_id + 1) mod ncls) 3)).

(** The state of the loop of [_freq_init_classes]. *)
Record init_state : Type := mkInit {
  i_word_to_class : list (option nat);
  i_class_to_words : list (gset nat);
  i_class_id : nat
}.

Definition freq_init_step (ncls : Z) (word_id : nat) (s : init_state)
    : res init_state :=
  cur <~ getitem (i_word_to_class s) word_id;
  match cur with
  | Some _ => Ok s
  | None =>
      w2c <~ setitem (i_word_to_class s) word_id (Some (i_class_id s));
      c2w <~ set_add (i_class_to_words s) (i_class_id s) word_id;
      cid <~ next_class_id ncls (i_class_id s);
      Ok (mkInit w2c c2w cid)
  end.

(** Assigns word [w], found under [key], to the reserved class [c]
    (lines 78-83). *)
Definition assign_reserved (ids : gmap string nat) (key : string) (c : nat)
    (s : init_state) : res init_state :=
  w <~ dict_get ids key;
  w2c <~ setitem (i_word_to_class s) w (Some c);
  w' <~ dict_get ids key;
  c2w <~ set_add (i_class_to_words s) c w';
  Ok (mkInit w2c c2w (i_class_id s)).

Definition _freq_init_classes (num_classes : Z) (size : nat)
    (ids : gmap string nat) (wcs : list Z)
    : res (Z * list (option nat) * list (gset nat)) :=
  let ncls := num_classes + 3 in
  let s := mkInit (replicate size None) (replicate (Z.to_nat ncls) ∅) 3 in
  s <~ assign_reserved ids "<s>" 0 s;
  s <~ assign_reserved ids "</s>" 1 s;
  s <~ assign_reserved ids "<UNK>" 2 s;
  s <~ for_res (sorted_by_count (enumerate wcs))
         (λ x s, freq_init_step ncls x.1 s) s;
  Ok (ncls, i_word_to_class s, i_class_to_words s).

(** A class id read from [word_to_class] and used as an index.  [None] never
    survives [_freq_init_classes]; what numpy does with a [None] index is
    not part of the embedding, which raises [TypeError] there. *)
Definition as_index (c : option nat) : res nat :=
  match c with
  | Some k => Ok k
  | None => Raise TypeError
  end.

Definition _compute_class_statistics (ncls : Z) (size : nat)
    (wcs : list Z) (wws : list (list Z)) (w2c : list (option nat))
    : res (list Z * list (list Z) * list (list Z) * list (list Z)) :=
  cls <~ zeros1 ncls;
  cc <~ zeros2 ncls ncls;
  cw <~ zeros2 ncls (Z.of_nat size);
  wc <~ zeros2 (Z.of_nat size) ncls;
  cls <~ for_res (enumerate w2c)
           (λ x cls,
              class_id <~ as_index x.2;
              n <~ getitem wcs x.1;
              iadd1 cls class_id n)
           cls;
  t <~ for_res (ndenumerate wws)
         (λ x t,
            let left_word_id := x.1.1 in
            let right_word_id := x.1.2 in
            let count := x.2 in
            lc <~ getitem w2c left_word_id;
            left_class_id <~ as_index lc;
            rc <~ getitem w2c right_word_id;
            right_class_id <~ as_index rc;
            cc <~ iadd2 t.1.1 left_class_id right_class_id count;
            cw <~ iadd2 t.1.2 left_class_id right_word_id count;
            wc <~ iadd2 t.2 left_word_id right_class_id count;
            Ok (cc, cw, wc))
         (cc, cw, wc);
  Ok (cls, t.1.1, t.1.2, t.2).

(** [Optimizer(num_classes, corpus_file, vocabulary_file)].  [set_iter] is
    the order in which Python iterates the vocabulary set. *)
Definition __init__ (set_iter : gset string → list string)
    (num_classes : Z) (corpus_file : list string)
    (vocabulary_file : option (list string)) : res Optimizer :=
  let voc := read_vocabulary corpus_file vocabulary_file in
  let size := size voc in
  let ids := dict_zip_range (set_iter voc) size in
  st <~ _read_word_statistics voc size ids corpus_file;
  ci <~ _freq_init_classes num_classes size ids st.1;
  cs <~ _compute_class_statistics ci.1.1 size st.1 st.2 ci.1.2;
  Ok (mkOptimizer voc size ids st.1 st.2 ci.1.1 ci.1.2 ci.2
        cs.1.1.1 cs.1.1.2 cs.1.2 cs.2).

(** ** Methods on a constructed object: state and exceptions *)

Definition M (A : Type) : Type := Optimizer → res A * Optimizer.

Definition retM {A} (a : A) : M A := λ o, (Ok a, o).

Definition bindM {A B} (m : M A) (k : A → M B) : M B :=
  λ o, match m o with
       | (Ok a, o') => k a o'
       | (Raise e, o') => (Raise e, o')
       end.

Notation "x <- m ; k" := (bindM m (fun x => k))
  (at level 100, m at next level, k at level 200, right associativity,
   format "'[v' x  <-  m ; '/' k ']'").

(** An expression that reads [self]. *)
Definition read {A} (f : Optimizer → res A) : M A := λ o, (f o, o).

(** A statement that assigns to [self]; nothing is assigned when the
    right-hand side raises. *)
Definition assign (f : Optimizer → res Optimizer) : M unit :=
  λ o, match f o with
       | Ok o' => (Ok tt, o')
       | Raise e => (Raise e, o)
       end.

(** [for x in xs: body x]. *)
Fixpoint for_M {A} (xs : list A) (body : A → M unit) : M unit :=
  match xs with
  | [] => retM tt
  | x :: xs' => _ <- body x; for_M xs' body
  end.

(** [for x in xs: acc = body x acc] with a local variable [acc]. *)
Fixpoint fold_M {A S} (xs : list A) (body : A → S → M S) (acc : S) : M S :=
  match xs with
  | [] => retM acc
  | x :: xs' => acc' <- body x acc; fold_M xs' body acc'
  end.

Definition set_word_to_class (v : list (option nat)) (o : Optimizer) : Optimizer :=
  mkOptimizer (vocabulary o) (vocabulary_size o) (word_ids o) (word_counts o)
    (ww_counts o) (num_classes o) v (class_to_words o) (class_counts o)
    (cc_counts o) (cw_counts o) (wc_counts o).

Definition set_class_to_words (v : list (gset nat)) (o : Optimizer) : Optimizer :=
  mkOptimizer (vocabulary o) (vocabulary_size o) (word_ids o) (word_counts o)
    (ww_counts o) (num_classes o) (word_to_class o) v (class_counts o)
    (cc_counts o) (cw_counts o) (wc_counts o).

Definition set_class_counts (v : list Z) (o : Optimizer) : Optimizer :=
  mkOptimizer (vocabulary o) (vocabulary_size o) (word_ids o) (word_counts o)
    (ww_counts o) (num_classes o) (word_to_class o) (class_to_words o) v
    (cc_counts o) (cw_counts o) (wc_counts o).

Definition set_cc_counts (v : list (list Z)) (o : Optimizer) : Optimizer :=
  mkOptimizer (vocabulary o) (vocabulary_size o) (word_ids o) (word_counts o)
    (ww_counts o) (num_classes o) (word_to_class o) (class_to_words o)
    (class_counts o) v (cw_counts o) (wc_counts o).

Definition set_cw_counts (v : list (list Z)) (o : Optimizer) : Optimizer :=
  mkOptimizer (vocabulary o) (vocabulary_size o) (word_ids o) (word_counts o)
    (ww_counts o) (num_classes o) (word_to_class o) (class_to_words o)
    (class_counts o) (cc_counts o) v (wc_counts o).

Definition set_wc_counts (v : list (list Z)) (o : Optimizer) : Optimizer :=
  mkOptimizer (vocabulary o) (vocabulary_size o) (word_ids o) (word_counts o)
    (ww_counts o) (num_classes o) (word_to_class o) (class_to_words o)
    (class_counts o) (cc_counts o) (cw_counts o) v.

(** [self.class_counts[c] += d] and the like. *)
Definition class_counts_iadd (c : nat) (d : Z) : M unit :=
  assign (λ o, a <~ iadd1 (class_counts o) c d; Ok (set_class_counts a o)).
Definition class_counts_isub (c : nat) (d : Z) : M unit :=
  assign (λ o, a <~ isub1 (class_counts o) c d; Ok (set_class_counts a o)).
Definition cc_counts_iadd (i j : nat) (d : Z) : M unit :=
  assign (λ o, a <~ iadd2 (cc_counts o) i j d; Ok (set_cc_counts a o)).
Definition cc_counts_isub (i j : nat) (d : Z) : M unit :=
  assign (λ o, a <~ isub2 (cc_counts o) i j d; Ok (set_cc_counts a o)).
Definition cw_counts_iadd (i j : nat) (d : Z) : M unit :=
  assign (λ o, a <~ iadd2 (cw_counts o) i j d; Ok (set_cw_counts a o)).
Definition cw_counts_isub (i j : nat) (d : Z) : M unit :=
  assign (λ o, a <~ isub2 (cw_counts o) i j d; Ok (set_cw_counts a o)).
Definition wc_counts_iadd (i j : nat) (d : Z) : M unit :=
  assign (λ o, a <~ iadd2 (wc_counts o) i j d; Ok (set_wc_counts a o)).
Definition wc_counts_isub (i j : nat) (d : Z) : M unit :=
  assign (λ o, a <~ isub2 (wc_counts o) i j d; Ok (set_wc_counts a o)).

(** [self.word_to_class[w]], then its use as an index. *)
Definition class_of_word (w : nat) : M nat :=
  c <- read (λ o, getitem (word_to_class o) w);
  read (λ _, as_index c).

(** *** [_move] (lines 212-249) *)

Definition _move (word_id new_class_id : nat) : M unit :=
  oc <- read (λ o, getitem (word_to_class o) word_id);
  word_count <- read (λ o, getitem (word_counts o) word_id);
  old_class_id <- read (λ _, as_index oc);
  _ <- class_counts_isub old_class_id word_count;
  _ <- class_counts_iadd new_class_id word_count;
  row <- read (λ o, getrow (ww_counts o) word_id);
  _ <- for_M (enumerate row)
         (λ x,
            let right_word_id := x.1 in
            let count := x.2 in
            if decide (right_word_id = word_id) then retM tt
            else
              right_class_id <- class_of_word right_word_id;
              _ <- cc_counts_isub old_class_id right_class_id count;
              _ <- cc_counts_iadd new_class_id right_class_id count;
              _ <- cw_counts_isub old_class_id right_word_id count;
              cw_counts_iadd new_class_id right_word_id count);
  col <- read (λ o, getcol (ww_counts o) word_id);
  _ <- for_M (enumerate col)
         (λ x,
            let left_word_id := x.1 in
            let count := x.2 in
            if decide (left_word_id = word_id) then retM tt
            else
              left_class_id <- class_of_word left_word_id;
              _ <- cc_counts_isub left_class_id old_class_id count;
              _ <- cc_counts_iadd left_class_id new_class_id count;
              _ <- wc_counts_isub left_word_id old_class_id count;
              wc_counts_iadd left_word_id new_class_id count);
  count <- read (λ o, getitem2 (ww_counts o) word_id word_id);
  _ <- cc_counts_isub old_class_id old_class_id count;
  _ <- cc_counts_iadd new_class_id new_class_id count;
  _ <- cw_counts_isub old_class_id word_id count;
  _ <- cw_counts_iadd new_class_id word_id count;
  _ <- wc_counts_isub word_id old_class_id count;
  _ <- wc_counts_iadd word_id new_class_id count;
  _ <- assign (λ o, s <~ set_remove (class_to_words o) old_class_id word_id;
                    Ok (set_class_to_words s o));
  _ <- assign (λ o, s <~ set_add (class_to_words o) new_class_id word_id;
                    Ok (set_class_to_words s o));
  assign (λ o, l <~ setitem (word_to_class o) word_id (Some new_class_id);
               Ok (set_word_to_class l o)).

(** ** Likelihood *)

(** int64 arithmetic between two numpy scalars, or a scalar and a Python
    [int]. *)
Definition i64_add (a b : Z) : Z := wrap64 (a + b).
Definition i64_sub (a b : Z) : Z := wrap64 (a - b).
Definition i64_mul (a b : Z) : Z := wrap64 (a * b).

(** The conversion of an int64 to float64 (round to nearest). *)
Definition of_int64 (z : Z) : float :=
  if z =? - 2 ^ 63 then PrimFloat.opp (Z.ldexp PrimFloat.one 63)
  else if 0 <=? z then PrimFloat.of_uint63 (Uint63.of_Z z)
  else PrimFloat.opp (PrimFloat.of_uint63 (Uint63.of_Z (- z))).

(** Iterating over a one-dimensional int64 array yields its scalars;
    unpacking a scalar into two variables raises [TypeError]. *)
Definition unpack_pair (x : Z) : res (nat * Z) := Raise TypeError.

Section Likelihood.

(** [numpy.log] on float64, and the float64 sum of [ndarray.sum]. *)
Variable np_log : float → float.
Variable np_sum : list float → float.

(** One cell of [numpy.ma.log(a) * a]: masked ([None]) where the cell is
    not positive or its logarithm is not finite. *)
Definition ma_log_times (c : Z) : option float :=
  let l := np_log (of_int64 c) in
  if (c <=? 0) || negb (PrimFloat.is_finite l) then None
  else Some (PrimFloat.mul l (of_int64 c)).

(** [MaskedArray.sum()]: the masked constant when every cell is masked,
    else the sum of the cells with the masked ones filled with 0. *)
Definition ma_sum (cells : list (option float)) : option float :=
  if forallb (λ c, bool_decide (c = None)) cells then None
  else Some (np_sum (default PrimFloat.zero <$> cells)).

(** Arithmetic with the masked constant gives the masked constant. *)
Definition ma_lift2 (f : float → float → float) (x y : option float)
    : option float :=
  match x, y with
  | Some a, Some b => Some (f a b)
  | _, _ => None
  end.

(** *** [log_likelihood] (lines 38-45) *)
Definition log_likelihood : M (option float) :=
  read (λ o,
    let cc := ma_sum (ma_log_times <$> mjoin (cc_counts o)) in
    let w := ma_sum (ma_log_times <$> word_counts o) in
    let c := ma_sum (ma_log_times <$> class_counts o) in
    Ok (ma_lift2 PrimFloat.sub (ma_lift2 PrimFloat.add cc w)
          (ma_lift2 PrimFloat.mul (Some (of_int64 2)) c))).

(** [count * numpy.log(count)] for an int64 [count]. *)
Definition count_log (count : Z) : float :=
  PrimFloat.mul (of_int64 count) (np_log (of_int64 count)).

(** *** [_ll_change] (lines 119-125).  The Python [int] 0 of [result]
    enters the float arithmetic as 0.0. *)
Definition _ll_change (old_count new_count : Z) : float :=
  let result := of_int64 0 in
  let result :=
    if decide (old_count ≠ 0) then PrimFloat.sub result (count_log old_count)
    else result in
  let result :=
    if decide (new_count ≠ 0) then PrimFloat.add result (count_log new_count)
    else result in
  result.

(** [2 * count * numpy.log(count)] (lines 137-144). *)
Definition two_count_log (count : Z) : float :=
  PrimFloat.mul (of_int64 (i64_mul 2 count)) (np_log (of_int64 count)).

(** The class-count terms of [_evaluate_move] (lines 134-144). *)
Definition class_terms (old_class_id new_class_id word_id : nat) : M float :=
  (* old class *)
  old_count <- read (λ o, getitem (class_counts o) old_class_id);
  wcount <- read (λ o, getitem (word_counts o) word_id);
  let new_count := i64_sub old_count wcount in
  let result := two_count_log old_count in
  let result := PrimFloat.sub result (two_count_log new_count) in
  (* new class *)
  old_count <- read (λ o, getitem (class_counts o) new_class_id);
  wcount <- read (λ o, getitem (word_counts o) word_id);
  let new_count := i64_add old_count wcount in
  let result := PrimFloat.add result (two_count_log old_count) in
  let result := PrimFloat.sub result (two_count_log new_count) in
  retM result.

(** *** [_evaluate_move] (lines 127-210) *)
Definition _evaluate_move (word_id new_class_id : nat) : M float :=
  oc <- read (λ o, getitem (word_to_class o) word_id);
  old_class_id <- read (λ _, as_index oc);
  result <- class_terms old_class_id new_class_id word_id;
  row <- read (λ o, getrow (wc_counts o) word_id);
  result <- fold_M row
    (λ x result,
       p <- read (λ _, unpack_pair x);
       let iter_class_id := p.1 in
       let iter_wc_count := p.2 in
       if decide (iter_class_id = old_class_id) then retM result
       else if decide (iter_class_id = new_class_id) then retM result
       else
         (* old class, class X *)
         old_count <- read (λ o, getitem2 (cc_counts o) old_class_id iter_class_id);
         let new_count := i64_sub old_count iter_wc_count in
         let result := PrimFloat.add result (_ll_change old_count new_count) in
         (* new class, class X *)
         old_count <- read (λ o, getitem2 (cc_counts o) new_class_id iter_class_id);
         let new_count := i64_add old_count iter_wc_count in
         retM (PrimFloat.add result (_ll_change old_count new_count)))
    result;
  col <- read (λ o, getcol (cw_counts o) word_id);
  result <- fold_M col
    (λ x result,
       p <- read (λ _, unpack_pair x);
       let iter_class_id := p.1 in
       let iter_cw_count := p.2 in
       if decide (iter_class_id = old_class_id) then retM result
       else if decide (iter_class_id = new_class_id) then retM result
       else
         (* class X, old class *)
         old_count <- read (λ o, getitem2 (cc_counts o) iter_class_id old_class_id);
         let new_count := i64_sub old_count iter_cw_count in
         let result := PrimFloat.add result (_ll_change old_count new_count) in
         (* class X, new class *)
         old_count <- read (λ o, getitem2 (cc_counts o) iter_class_id new_class_id);
         let new_count := i64_add old_count iter_cw_count in
         retM (PrimFloat.add result (_ll_change old_count new_count)))
    result;
  (* old class, new class *)
  old_count <- read (λ o, getitem2 (cc_counts o) old_class_id new_class_id);
  a <- read (λ o, getitem2 (wc_counts o) word_id new_class_id);
  b <- read (λ o, getitem2 (cw_counts o) old_class_id word_id);
  c <- read (λ o, getitem2 (ww_counts o) word_id word_id);
  let new_count := i64_sub (i64_add (i64_sub old_count a) b) c in
  let result := PrimFloat.add result (_ll_change old_count new_count) in
  (* new class, old class *)
  old_count <- read (λ o, getitem2 (cc_counts o) new_class_id old_class_id);
  a <- read (λ o, getitem2 (cw_counts o) new_class_id word_id);
  b <- read (λ o, getitem2 (wc_counts o) word_id old_class_id);
  c <- read (λ o, getitem2 (ww_counts o) word_id word_id);
  let new_count := i64_sub (i64_add (i64_sub old_count a) b) c in
  let result := PrimFloat.add result (_ll_change old_count new_count) in
  (* old class, old class *)
  old_count <- read (λ o, getitem2 (cc_counts o) old_class_id old_class_id);
  a <- read (λ o, getitem2 (wc_counts o) word_id old_class_id);
  b <- read (λ o, getitem2 (cw_counts o) old_class_id word_id);
  c <- read (λ o, getitem2 (ww_counts o) word_id word_id);
  let new_count := i64_add (i64_sub (i64_sub old_count a) b) c in
  let result := PrimFloat.add result (_ll_change old_count new_count) in
  (* new class, new class *)
  old_count <- read (λ o, getitem2 (cc_counts o) new_class_id new_class_id);
  a <- read (λ o, getitem2 (wc_counts o) word_id new_class_id);
  b <- read (λ o, getitem2 (cw_counts o) new_class_id word_id);
  c <- read (λ o, getitem2 (ww_counts o) word_id word_id);
  let new_count := i64_add (i64_add (i64_add old_count a) b) c in
  let result := PrimFloat.add result (_ll_change old_count new_count) in
  retM result.

End Likelihood.

(** * Properties *)

(** ** int64 wrap-around *)

Lemma wrap64_is_int64 z : is_int64 (wrap64 z).
Proof.
  unfold is_int64, wrap64.
  pose proof (Z.mod_pos_bound (z + 2 ^ 63) (2 ^ 64)). lia.
Qed.

Lemma wrap64_id z : is_int64 z → wrap64 z = z.
Proof.
  unfold is_int64, wrap64. intros Hz.
  rewrite Z.mod_small; lia.
Qed.

Lemma wrap64_add_l a b : wrap64 (wrap64 a + b) = wrap64 (a + b).
Proof.
  unfold wrap64. f_equal.
  replace ((a + 2 ^ 63) mod 2 ^ 64 - 2 ^ 63 + b + 2 ^ 63)
    with ((a + 2 ^ 63) mod 2 ^ 64 + b) by lia.
  rewrite Zplus_mod_idemp_l. f_equal. lia.
Qed.

Lemma wrap64_sub_l a b : wrap64 (wrap64 a - b) = wrap64 (a - b).
Proof. apply (wrap64_add_l a (- b)). Qed.

Lemma wrap64_idemp a : wrap64 (wrap64 a) = wrap64 a.
Proof. apply wrap64_id, wrap64_is_int64. Qed.

(** ** Cells and shapes of arrays *)

Definition cell1 (a : list Z) (i : nat) : Z := default 0 (a !! i).

Definition cell2 (a : list (list Z)) (i j : nat) : Z :=
  cell1 (default [] (a !! i)) j.

Definition shape2 (a : list (list Z)) (r c : nat) : Prop :=
  length a = r ∧ Forall (λ row, length row = c) a.

(** The array after [a[i] += d]. *)
Definition upd1 (a : list Z) (i : nat) (d : Z) : list Z :=
  <[i := wrap64 (cell1 a i + d)]> a.

Definition upd2 (a : list (list Z)) (i j : nat) (d : Z) : list (list Z) :=
  <[i := upd1 (default [] (a !! i)) j d]> a.

Lemma getitem_lt {A} (l : list A) i :
  (i < length l)%nat → ∃ x, l !! i = Some x ∧ getitem l i = Ok x.
Proof.
  intros Hi. destruct (lookup_lt_is_Some_2 l i Hi) as [x Hx].
  exists x. unfold getitem. by rewrite Hx.
Qed.

Lemma getitem_cell1 a i : (i < length a)%nat → getitem a i = Ok (cell1 a i).
Proof.
  intros Hi. destruct (getitem_lt a i Hi) as (x & Hx & ->).
  unfold cell1. by rewrite Hx.
Qed.

Lemma setitem_lt {A} (l : list A) i x :
  (i < length l)%nat → setitem l i x = Ok (<[i := x]> l).
Proof.
  intros Hi. destruct (lookup_lt_is_Some_2 l i Hi) as [y Hy].
  unfold setitem. by rewrite Hy.
Qed.

Lemma iadd1_lt a i d : (i < length a)%nat → iadd1 a i d = Ok (upd1 a i d).
Proof.
  intros Hi. unfold iadd1. rewrite getitem_cell1 by done. simpl.
  by rewrite setitem_lt.
Qed.

Lemma isub1_lt a i d : (i < length a)%nat → isub1 a i d = Ok (upd1 a i (- d)).
Proof.
  intros Hi. unfold isub1. rewrite getitem_cell1 by done. simpl.
  rewrite setitem_lt by done. unfold upd1.
  by replace (cell1 a i - d) with (cell1 a i + - d) by lia.
Qed.

Lemma length_upd1 a i d : length (upd1 a i d) = length a.
Proof. apply length_insert. Qed.

Lemma cell1_upd1 a i d x :
  (i < length a)%nat →
  cell1 (upd1 a i d) x = if decide (x = i) then wrap64 (cell1 a i + d) else cell1 a x.
Proof.
  intros Hi. unfold upd1 at 1, cell1 at 1. case_decide as Hx.
  - subst x. by rewrite list_lookup_insert_eq.
  - by rewrite list_lookup_insert_ne.
Qed.

Lemma shape2_row a r c i :
  shape2 a r c → (i < r)%nat → ∃ row, a !! i = Some row ∧ length row = c.
Proof.
  intros [Hl Hall] Hi. destruct (lookup_lt_is_Some_2 a i) as [row Hrow]; [lia|].
  exists row. split; [done|]. by eapply Forall_lookup_1 in Hall.
Qed.

Lemma getitem2_lt a r c i j :
  shape2 a r c → (i < r)%nat → (j < c)%nat → getitem2 a i j = Ok (cell2 a i j).
Proof.
  intros Hs Hi Hj. destruct (shape2_row a r c i Hs Hi) as (row & Hrow & Hlen).
  unfold getitem2, cell2, getitem at 1. rewrite Hrow. simpl.
  apply getitem_cell1. lia.
Qed.

Lemma iadd2_lt a r c i j d :
  shape2 a r c → (i < r)%nat → (j < c)%nat → iadd2 a i j d = Ok (upd2 a i j d).
Proof.
  intros Hs Hi Hj. destruct (shape2_row a r c i Hs Hi) as (row & Hrow & Hlen).
  unfold iadd2, upd2, getitem. rewrite Hrow. simpl.
  rewrite iadd1_lt by lia. simpl. apply setitem_lt. destruct Hs; lia.
Qed.

Lemma isub2_lt a r c i j d :
  shape2 a r c → (i < r)%nat → (j < c)%nat → isub2 a i j d = Ok (upd2 a i j (- d)).
Proof.
  intros Hs Hi Hj. destruct (shape2_row a r c i Hs Hi) as (row & Hrow & Hlen).
  unfold isub2, upd2, getitem. rewrite Hrow. simpl.
  rewrite isub1_lt by lia. simpl. apply setitem_lt. destruct Hs; lia.
Qed.

Lemma shape2_upd2 a r c i j d : shape2 a r c → shape2 (upd2 a i j d) r c.
Proof.
  intros [Hl Hall]. unfold upd2. split; [by rewrite length_insert|].
  destruct (a !! i) as [row|] eqn:Hrow.
  - apply Forall_insert; [done|]. simpl. rewrite length_upd1.
    by eapply Forall_lookup_1 in Hall.
  - rewrite list_insert_ge; [done|]. by apply lookup_ge_None.
Qed.

Lemma cell2_upd2 a r c i j d x y :
  shape2 a r c → (i < r)%nat → (j < c)%nat →
  cell2 (upd2 a i j d) x y =
    if decide (x = i ∧ y = j) then wrap64 (cell2 a i j + d) else cell2 a x y.
Proof.
  intros Hs Hi Hj. destruct (shape2_row a r c i Hs Hi) as (row & Hrow & Hlen).
  destruct Hs as [Hl _]. unfold cell2, upd2. rewrite Hrow. simpl.
  destruct (decide (x = i)) as [->|Hx].
  - rewrite list_lookup_insert_eq by lia. simpl. rewrite cell1_upd1 by lia.
    destruct (decide (y = j)) as [->|Hy].
    + by rewrite decide_True.
    + rewrite decide_False by (intros [_ ?]; done). by rewrite Hrow.
  - rewrite list_lookup_insert_ne by done.
    by rewrite decide_False by (intros [? _]; done).
Qed.

(** Two arrays of one shape with the same cells are the same array. *)
Lemma array1_ext a b :
  length a = length b → (∀ i, (i < length a)%nat → cell1 a i = cell1 b i) → a = b.
Proof.
  intros Hl Hc. apply (list_eq_same_length a b (length a)); [done..|].
  intros i x y Hi Hx Hy. specialize (Hc i Hi). unfold cell1 in Hc.
  rewrite Hx, Hy in Hc. done.
Qed.

Lemma array2_ext a b r c :
  shape2 a r c → shape2 b r c →
  (∀ i j, (i < r)%nat → (j < c)%nat → cell2 a i j = cell2 b i j) → a = b.
Proof.
  intros Ha Hb Hc. apply (list_eq_same_length a b r);
    [by destruct Hb|by destruct Ha|].
  intros i x y Hi Hx Hy.
  destruct (shape2_row a r c i Ha Hi) as (ra & Hra & Hla).
  destruct (shape2_row b r c i Hb Hi) as (rb & Hrb & Hlb).
  simplify_eq. apply array1_ext; [lia|].
  intros j Hj. specialize (Hc i j Hi). unfold cell2 in Hc.
  rewrite Hx, Hy in Hc. simpl in Hc. apply Hc. lia.
Qed.

(** ** Finite sums *)

(** [sumZ f n] is the sum of [f i] for [i] below [n]. *)
Fixpoint sumZ (f : nat → Z) (n : nat) : Z :=
  match n with
  | O => 0
  | S n' => sumZ f n' + f n'
  end.

Definition sum_list {A} (f : A → Z) (l : list A) : Z :=
  foldr (λ x acc, f x + acc) 0 l.

(** The indicator of a decidable proposition. *)
Definition ind (P : Prop) `{Decision P} : Z := if decide P then 1 else 0.

Lemma ind_true (P : Prop) `{Decision P} : P → ind P = 1.
Proof. intros HP. unfold ind. by rewrite decide_True. Qed.

Lemma ind_false (P : Prop) `{Decision P} : ¬ P → ind P = 0.
Proof. intros HP. unfold ind. by rewrite decide_False. Qed.

Lemma ind_ext (P Q : Prop) `{Decision P} `{Decision Q} :
  (P ↔ Q) → ind P = ind Q.
Proof. intros HPQ. unfold ind. repeat case_decide; tauto. Qed.

Lemma sumZ_ext f g n :
  (∀ i, (i < n)%nat → f i = g i) → sumZ f n = sumZ g n.
Proof.
  induction n as [|n IH]; intros H; simpl; [done|].
  rewrite IH, H by (intros; auto with lia). done.
Qed.

Lemma sumZ_zero n : sumZ (λ _, 0) n = 0.
Proof. induction n as [|n IH]; simpl; lia. Qed.

Lemma sumZ_plus f g n : sumZ (λ i, f i + g i) n = sumZ f n + sumZ g n.
Proof. induction n as [|n IH]; simpl; lia. Qed.

Lemma sumZ_scale c f n : sumZ (λ i, c * f i) n = c * sumZ f n.
Proof. induction n as [|n IH]; simpl; lia. Qed.

Lemma sumZ_nonneg f n : (∀ i, (i < n)%nat → 0 ≤ f i) → 0 ≤ sumZ f n.
Proof.
  induction n as [|n IH]; intros H; simpl; [done|].
  specialize (H n ltac:(lia)) as Hn. assert (0 ≤ sumZ f n) by auto with lia. lia.
Qed.

(** Splitting off the term of index [w]. *)
Lemma sumZ_split f n w :
  (w < n)%nat →
  sumZ f n = f w + sumZ (λ i, if decide (i = w) then 0 else f i) n.
Proof.
  induction n as [|n IH]; intros Hw; [lia|]. simpl.
  destruct (decide (n = w)) as [->|Hn].
  - rewrite (sumZ_ext (λ i, if decide (i = w) then 0 else f i) f).
    + lia.
    + intros i Hi. by rewrite decide_False by lia.
  - rewrite IH by lia. lia.
Qed.

Lemma sumZ_swap (f : nat → nat → Z) n m :
  sumZ (λ i, sumZ (λ j, f i j) m) n = sumZ (λ j, sumZ (λ i, f i j) n) m.
Proof.
  induction n as [|n IH]; simpl.
  - by rewrite sumZ_zero.
  - rewrite IH, <- sumZ_plus. done.
Qed.

(** A sum against the indicator of one index picks one term. *)
Lemma sumZ_pick (f : nat → Z) n w :
  (w < n)%nat → sumZ (λ i, ind (i = w) * f i) n = f w.
Proof.
  intros Hw. rewrite (sumZ_split _ n w Hw), ind_true by done.
  rewrite (sumZ_ext _ (λ _, 0)), sumZ_zero; [lia|].
  intros i _. case_decide; [done|]. rewrite ind_false by done. lia.
Qed.

Lemma sum_list_app {A} (f : A → Z) l1 l2 :
  sum_list f (l1 ++ l2) = sum_list f l1 + sum_list f l2.
Proof. induction l1 as [|x l1 IH]; simpl; lia. Qed.

Lemma sum_list_ext {A} (f g : A → Z) l :
  (∀ x, x ∈ l → f x = g x) → sum_list f l = sum_list g l.
Proof.
  induction l as [|x l IH]; intros H; simpl; [done|].
  rewrite IH, (H x) by (intros; auto using list_elem_of_here, list_elem_of_further).
  done.
Qed.

Lemma sum_list_zero {A} (l : list A) : sum_list (λ _, 0) l = 0.
Proof. induction l as [|x l IH]; simpl; lia. Qed.

Lemma sum_list_plus {A} (f g : A → Z) l :
  sum_list (λ x, f x + g x) l = sum_list f l + sum_list g l.
Proof. induction l as [|x l IH]; simpl; lia. Qed.

Lemma sum_list_imap {A B} (f : B → Z) (g : nat → A → B) (l : list A) :
  sum_list f (imap g l) =
  sumZ (λ i, match l !! i with Some x => f (g i x) | None => 0 end) (length l).
Proof.
  induction l as [|x l IH] using rev_ind; [done|].
  rewrite imap_app, sum_list_app, length_app, Nat.add_comm. simpl.
  rewrite IH, lookup_app_r, Nat.sub_diag, Nat.add_0_r by lia. simpl.
  rewrite Z.add_0_r. f_equal. apply sumZ_ext. intros i Hi.
  by rewrite lookup_app_l.
Qed.

Lemma sum_list_enumerate (f : nat → Z → Z) (l : list Z) :
  sum_list (λ x, f x.1 x.2) (enumerate l) =
  sumZ (λ i, match l !! i with Some x => f i x | None => 0 end) (length l).
Proof. apply (sum_list_imap (λ x, f x.1 x.2)). Qed.

Lemma sum_list_mjoin {A} (f : A → Z) (ls : list (list A)) :
  sum_list f (mjoin ls) = sum_list (sum_list f) ls.
Proof.
  induction ls as [|l ls IH]; [done|]. simpl.
  by rewrite sum_list_app, IH.
Qed.

(** ** Well-formed stores *)

Definition nwords (o : Optimizer) : nat := vocabulary_size o.
Definition nclasses (o : Optimizer) : nat := Z.to_nat (num_classes o).

(** The class of word [w] (0 where it has none). *)
Definition class_at (w2c : list (option nat)) (w : nat) : nat :=
  match w2c !! w with
  | Some (Some c) => c
  | _ => O
  end.

(** [class_to_words] is the inverse of [word_to_class]. *)
Definition inverse_maps (w2c : list (option nat)) (c2w : list (gset nat)) : Prop :=
  ∀ c s, c2w !! c = Some s → ∀ w, w ∈ s ↔ w2c !! w = Some (Some c).

(** The shapes and cell types of the arrays, and the word-class mapping
    pair: every word has one class in range, and [class_to_words] is the
    inverse of [word_to_class]. *)
Record wf (o : Optimizer) : Prop := mk_wf {
  wf_num_classes : 0 ≤ num_classes o;
  wf_word_counts : length (word_counts o) = nwords o;
  wf_ww_counts : shape2 (ww_counts o) (nwords o) (nwords o);
  wf_word_to_class : length (word_to_class o) = nwords o;
  wf_classes : Forall (λ oc, ∃ c, oc = Some c ∧ (c < nclasses o)%nat) (word_to_class o);
  wf_class_to_words : length (class_to_words o) = nclasses o;
  wf_inverse : inverse_maps (word_to_class o) (class_to_words o);
  wf_class_counts : length (class_counts o) = nclasses o;
  wf_cc_counts : shape2 (cc_counts o) (nclasses o) (nclasses o);
  wf_cw_counts : shape2 (cw_counts o) (nclasses o) (nwords o);
  wf_wc_counts : shape2 (wc_counts o) (nwords o) (nclasses o);
  wf_class_counts_int : Forall is_int64 (class_counts o);
  wf_cc_counts_int : Forall (Forall is_int64) (cc_counts o);
  wf_cw_counts_int : Forall (Forall is_int64) (cw_counts o);
  wf_wc_counts_int : Forall (Forall is_int64) (wc_counts o)
}.

Lemma cell1_int64 a i : Forall is_int64 a → is_int64 (cell1 a i).
Proof.
  intros Ha. unfold cell1. destruct (a !! i) as [x|] eqn:Hx; simpl.
  - by eapply Forall_lookup_1 in Ha.
  - unfold is_int64. lia.
Qed.

Lemma cell2_int64 a i j : Forall (Forall is_int64) a → is_int64 (cell2 a i j).
Proof.
  intros Ha. unfold cell2. apply cell1_int64.
  destruct (a !! i) as [row|] eqn:Hrow; simpl; [|done].
  by eapply Forall_lookup_1 in Ha.
Qed.

Lemma int64_cells1 a :
  (∀ i, (i < length a)%nat → is_int64 (cell1 a i)) → Forall is_int64 a.
Proof.
  intros H. apply Forall_lookup_2. intros i x Hx.
  specialize (H i (lookup_lt_Some _ _ _ Hx)). unfold cell1 in H.
  by rewrite Hx in H.
Qed.

Lemma int64_cells2 a r c :
  shape2 a r c →
  (∀ i j, (i < r)%nat → (j < c)%nat → is_int64 (cell2 a i j)) →
  Forall (Forall is_int64) a.
Proof.
  intros [Hl Hall] H. apply Forall_lookup_2. intros i row Hrow.
  apply int64_cells1. intros j Hj.
  assert (length row = c) as Hc by by eapply Forall_lookup_1 in Hall.
  specialize (H i j ltac:(apply lookup_lt_Some in Hrow; lia) ltac:(lia)).
  unfold cell2 in H. by rewrite Hrow in H.
Qed.

Lemma wf_class_at o w :
  wf o → (w < nwords o)%nat →
  word_to_class o !! w = Some (Some (class_at (word_to_class o) w))
  ∧ (class_at (word_to_class o) w < nclasses o)%nat.
Proof.
  intros Hwf Hw.
  destruct (lookup_lt_is_Some_2 (word_to_class o) w) as [oc Hoc].
  { by rewrite (wf_word_to_class o Hwf). }
  pose proof (Forall_lookup_1 _ _ _ _ (wf_classes o Hwf) Hoc) as (c & -> & Hc).
  unfold class_at. by rewrite Hoc.
Qed.

(** ** Total correctness of statements *)

(** [exec m o Q]: from store [o], [m] returns (raises nothing) and the
    value and store it ends with satisfy [Q]. *)
Definition exec {A} (m : M A) (o : Optimizer) (Q : A → Optimizer → Prop) : Prop :=
  ∃ a o', m o = (Ok a, o') ∧ Q a o'.

Lemma exec_ret {A} (a : A) o (Q : A → Optimizer → Prop) :
  Q a o → exec (retM a) o Q.
Proof. intros HQ. by exists a, o. Qed.

Lemma exec_bind {A B} (m : M A) (k : A → M B) o Q R :
  exec m o Q → (∀ a o1, Q a o1 → exec (k a) o1 R) → exec (bindM m k) o R.
Proof.
  intros (a & o1 & Hm & HQ) Hk. unfold exec, bindM. rewrite Hm.
  by apply Hk.
Qed.

Lemma exec_read {A} (f : Optimizer → res A) o v (Q : A → Optimizer → Prop) :
  f o = Ok v → Q v o → exec (read f) o Q.
Proof. intros Hf HQ. exists v, o. unfold read. by rewrite Hf. Qed.

Lemma exec_assign (f : Optimizer → res Optimizer) o o' (Q : unit → Optimizer → Prop) :
  f o = Ok o' → Q tt o' → exec (assign f) o Q.
Proof. intros Hf HQ. exists tt, o'. unfold assign. by rewrite Hf. Qed.

Lemma exec_mono {A} (m : M A) o (Q R : A → Optimizer → Prop) :
  exec m o Q → (∀ a o', Q a o' → R a o') → exec m o R.
Proof. intros (a & o' & Hm & HQ) H. exists a, o'. auto. Qed.

(** A loop with an invariant indexed by the elements already visited. *)
Lemma exec_for {A} (xs : list A) (body : A → M unit) o
    (I : list A → Optimizer → Prop) :
  I [] o →
  (∀ pre x post o1, xs = pre ++ x :: post → I pre o1 →
     exec (body x) o1 (λ _ o2, I (pre ++ [x]) o2)) →
  exec (for_M xs body) o (λ _ o', I xs o').
Proof.
  intros H0 Hstep.
  enough (∀ post pre o1, xs = pre ++ post → I pre o1 →
            exec (for_M post body) o1 (λ _ o', I xs o')) as H
    by by apply (H xs [] o).
  induction post as [|x post IH]; intros pre o1 Hxs Hpre; simpl.
  - apply exec_ret. by rewrite Hxs, app_nil_r.
  - eapply exec_bind; [by eapply Hstep|].
    intros [] o2 HI. apply (IH (pre ++ [x])); [|done].
    by rewrite <- app_assoc.
Qed.

(** ** Changes of the four class tables *)

Record deltas : Type := mkDeltas {
  d_cls : nat → Z;
  d_cc : nat → nat → Z;
  d_cw : nat → nat → Z;
  d_wc : nat → nat → Z
}.

Definition dzero : deltas := mkDeltas (λ _, 0) (λ _ _, 0) (λ _ _, 0) (λ _ _, 0).

Definition dplus (D1 D2 : deltas) : deltas :=
  mkDeltas (λ c, d_cls D1 c + d_cls D2 c)
           (λ a b, d_cc D1 a b + d_cc D2 a b)
           (λ a j, d_cw D1 a j + d_cw D2 a j)
           (λ i b, d_wc D1 i b + d_wc D2 i b).

Definition dsum {A} (F : A → deltas) (xs : list A) : deltas :=
  mkDeltas (λ c, sum_list (λ x, d_cls (F x) c) xs)
           (λ a b, sum_list (λ x, d_cc (F x) a b) xs)
           (λ a j, sum_list (λ x, d_cw (F x) a j) xs)
           (λ i b, sum_list (λ x, d_wc (F x) i b) xs).

Definition at1 (i : nat) (d : Z) : nat → Z := λ x, ind (i = x) * d.
Definition at2 (i j : nat) (d : Z) : nat → nat → Z :=
  λ x y, ind (i = x) * ind (j = y) * d.

Definition dcls_at (c : nat) (d : Z) : deltas :=
  mkDeltas (at1 c d) (λ _ _, 0) (λ _ _, 0) (λ _ _, 0).
Definition dcc_at (a b : nat) (d : Z) : deltas :=
  mkDeltas (λ _, 0) (at2 a b d) (λ _ _, 0) (λ _ _, 0).
Definition dcw_at (a j : nat) (d : Z) : deltas :=
  mkDeltas (λ _, 0) (λ _ _, 0) (at2 a j d) (λ _ _, 0).
Definition dwc_at (i b : nat) (d : Z) : deltas :=
  mkDeltas (λ _, 0) (λ _ _, 0) (λ _ _, 0) (at2 i b d).

(** The attributes that no move changes. *)
Definition same_raw (o o' : Optimizer) : Prop :=
  vocabulary o' = vocabulary o ∧ vocabulary_size o' = vocabulary_size o
  ∧ word_ids o' = word_ids o ∧ word_counts o' = word_counts o
  ∧ ww_counts o' = ww_counts o ∧ num_classes o' = num_classes o.

Definition same_maps (o o' : Optimizer) : Prop :=
  word_to_class o' = word_to_class o ∧ class_to_words o' = class_to_words o.

Lemma same_raw_dims o o' :
  same_raw o o' → nwords o' = nwords o ∧ nclasses o' = nclasses o.
Proof. intros (_ & Hv & _ & _ & _ & Hn). unfold nwords, nclasses. by rewrite Hv, Hn. Qed.

Record delta (o o' : Optimizer) (D : deltas) : Prop := mk_delta {
  dl_raw : same_raw o o';
  dl_maps : same_maps o o';
  dl_wf : wf o';
  dl_cls : ∀ c, (c < nclasses o)%nat →
    cell1 (class_counts o') c = wrap64 (cell1 (class_counts o) c + d_cls D c);
  dl_cc : ∀ a b, (a < nclasses o)%nat → (b < nclasses o)%nat →
    cell2 (cc_counts o') a b = wrap64 (cell2 (cc_counts o) a b + d_cc D a b);
  dl_cw : ∀ a j, (a < nclasses o)%nat → (j < nwords o)%nat →
    cell2 (cw_counts o') a j = wrap64 (cell2 (cw_counts o) a j + d_cw D a j);
  dl_wc : ∀ i b, (i < nwords o)%nat → (b < nclasses o)%nat →
    cell2 (wc_counts o') i b = wrap64 (cell2 (wc_counts o) i b + d_wc D i b)
}.

Lemma wrap64_cell_0 c : is_int64 c → c = wrap64 (c + 0).
Proof. intros Hc. by rewrite Z.add_0_r, wrap64_id. Qed.

Lemma delta_refl o : wf o → delta o o dzero.
Proof.
  intros Hwf. split; try done; simpl; intros.
  - apply wrap64_cell_0, cell1_int64, Hwf.
  - apply wrap64_cell_0, cell2_int64, Hwf.
  - apply wrap64_cell_0, cell2_int64, Hwf.
  - apply wrap64_cell_0, cell2_int64, Hwf.
Qed.

Lemma delta_trans o o1 o2 D1 D2 :
  delta o o1 D1 → delta o1 o2 D2 → delta o o2 (dplus D1 D2).
Proof.
  intros H1 H2.
  destruct (same_raw_dims _ _ (dl_raw _ _ _ H1)) as [Hv Hc].
  split.
  - destruct (dl_raw _ _ _ H1) as (?&?&?&?&?&?), (dl_raw _ _ _ H2) as (?&?&?&?&?&?).
    repeat split; congruence.
  - destruct (dl_maps _ _ _ H1), (dl_maps _ _ _ H2). split; congruence.
  - apply H2.
  - intros c ?. rewrite (dl_cls _ _ _ H2), (dl_cls _ _ _ H1) by lia.
    simpl. rewrite wrap64_add_l. f_equal. lia.
  - intros a b ? ?. rewrite (dl_cc _ _ _ H2), (dl_cc _ _ _ H1) by lia.
    simpl. rewrite wrap64_add_l. f_equal. lia.
  - intros a b ? ?. rewrite (dl_cw _ _ _ H2), (dl_cw _ _ _ H1) by lia.
    simpl. rewrite wrap64_add_l. f_equal. lia.
  - intros a b ? ?. rewrite (dl_wc _ _ _ H2), (dl_wc _ _ _ H1) by lia.
    simpl. rewrite wrap64_add_l. f_equal. lia.
Qed.

(** [runs m o D]: [m] returns and changes the four tables by [D]. *)
Definition runs (m : M unit) (o : Optimizer) (D : deltas) : Prop :=
  exec m o (λ _ o', delta o o' D).

Lemma runs_ret o : wf o → runs (retM tt) o dzero.
Proof. intros Hwf. apply exec_ret. by apply delta_refl. Qed.

Lemma runs_bind (m k : M unit) o D1 D2 :
  runs m o D1 → (∀ o1, delta o o1 D1 → runs k o1 D2) →
  runs (bindM m (λ _, k)) o (dplus D1 D2).
Proof.
  intros Hm Hk. eapply exec_bind; [exact Hm|]. simpl.
  intros _ o1 H1. eapply exec_mono; [by apply Hk|]. simpl.
  intros _ o2 H2. by eapply delta_trans.
Qed.

Lemma runs_for {A} (xs : list A) (body : A → M unit) (F : A → deltas) o :
  wf o →
  (∀ x o1 D1, x ∈ xs → delta o o1 D1 → runs (body x) o1 (F x)) →
  runs (for_M xs body) o (dsum F xs).
Proof.
  intros Hwf Hbody.
  enough (∀ o1 D1, delta o o1 D1 → runs (for_M xs body) o1 (dsum F xs)) as H
    by (eapply H; by apply delta_refl).
  induction xs as [|x xs IH]; intros o1 D1 H1; simpl.
  - apply runs_ret, H1.
  - apply (runs_bind (body x) (for_M xs body) o1 (F x) (dsum F xs)).
    + eapply Hbody; [left|done].
    + intros o2 H2. eapply IH.
      * intros y o3 D3 Hy. apply Hbody. by right.
      * by eapply delta_trans.
Qed.

Lemma int64_upd1 a i d : Forall is_int64 a → Forall is_int64 (upd1 a i d).
Proof.
  intros Ha. unfold upd1. destruct (decide (i < length a)%nat).
  - apply Forall_insert; [done|]. apply wrap64_is_int64.
  - by rewrite list_insert_ge by lia.
Qed.

Lemma int64_upd2 a i j d :
  Forall (Forall is_int64) a → Forall (Forall is_int64) (upd2 a i j d).
Proof.
  intros Ha. unfold upd2. destruct (a !! i) as [row|] eqn:Hrow.
  - apply Forall_insert; [done|]. simpl. apply int64_upd1.
    by eapply Forall_lookup_1 in Ha.
  - rewrite list_insert_ge; [done|]. by apply lookup_ge_None.
Qed.

Lemma at1_eq i d : at1 i d i = d.
Proof. unfold at1. rewrite ind_true by done. lia. Qed.

Lemma at1_ne i d x : x ≠ i → at1 i d x = 0.
Proof. intros Hne. unfold at1. rewrite ind_false by done. lia. Qed.

Lemma at2_eq i j d : at2 i j d i j = d.
Proof. unfold at2. rewrite !ind_true by done. lia. Qed.

Lemma at2_ne i j d x y : ¬ (x = i ∧ y = j) → at2 i j d x y = 0.
Proof.
  intros Hne. unfold at2. destruct (decide (i = x)) as [->|].
  - rewrite (ind_false (j = y)); [lia|]. intros ->. by apply Hne.
  - rewrite (ind_false (i = x)); [lia|done].
Qed.

Lemma upd1_delta a i d x :
  Forall is_int64 a → (i < length a)%nat →
  cell1 (upd1 a i d) x = wrap64 (cell1 a x + at1 i d x).
Proof.
  intros Ha Hi. rewrite cell1_upd1 by done. case_decide as Hx.
  - subst. by rewrite at1_eq.
  - rewrite at1_ne by done. apply wrap64_cell_0, cell1_int64, Ha.
Qed.

Lemma upd2_delta a r c i j d x y :
  shape2 a r c → Forall (Forall is_int64) a → (i < r)%nat → (j < c)%nat →
  cell2 (upd2 a i j d) x y = wrap64 (cell2 a x y + at2 i j d x y).
Proof.
  intros Hs Ha Hi Hj. rewrite (cell2_upd2 a r c) by done.
  case_decide as Hx.
  - destruct Hx as [-> ->]. by rewrite at2_eq.
  - rewrite at2_ne by done. apply wrap64_cell_0, cell2_int64, Ha.
Qed.

Lemma delta_class_counts o c d :
  wf o → (c < nclasses o)%nat →
  delta o (set_class_counts (upd1 (class_counts o) c d) o) (dcls_at c d).
Proof.
  intros Hwf Hc. pose proof (wf_class_counts o Hwf) as Hl.
  split; try done; simpl.
  - destruct Hwf. split; try done; simpl.
    + by rewrite length_upd1.
    + by apply int64_upd1.
  - intros x Hx. apply upd1_delta; [apply Hwf|lia].
  - intros. apply wrap64_cell_0, cell2_int64, Hwf.
  - intros. apply wrap64_cell_0, cell2_int64, Hwf.
  - intros. apply wrap64_cell_0, cell2_int64, Hwf.
Qed.

Lemma delta_cc_counts o i j d :
  wf o → (i < nclasses o)%nat → (j < nclasses o)%nat →
  delta o (set_cc_counts (upd2 (cc_counts o) i j d) o) (dcc_at i j d).
Proof.
  intros Hwf Hi Hj. split; try done; simpl.
  - destruct Hwf. split; try done; simpl.
    + by apply shape2_upd2.
    + by apply int64_upd2.
  - intros. apply wrap64_cell_0, cell1_int64, Hwf.
  - intros. eapply upd2_delta; try done; apply Hwf.
  - intros. apply wrap64_cell_0, cell2_int64, Hwf.
  - intros. apply wrap64_cell_0, cell2_int64, Hwf.
Qed.

Lemma delta_cw_counts o i j d :
  wf o → (i < nclasses o)%nat → (j < nwords o)%nat →
  delta o (set_cw_counts (upd2 (cw_counts o) i j d) o) (dcw_at i j d).
Proof.
  intros Hwf Hi Hj. split; try done; simpl.
  - destruct Hwf. split; try done; simpl.
    + by apply shape2_upd2.
    + by apply int64_upd2.
  - intros. apply wrap64_cell_0, cell1_int64, Hwf.
  - intros. apply wrap64_cell_0, cell2_int64, Hwf.
  - intros. eapply upd2_delta; try done; apply Hwf.
  - intros. apply wrap64_cell_0, cell2_int64, Hwf.
Qed.

Lemma delta_wc_counts o i j d :
  wf o → (i < nwords o)%nat → (j < nclasses o)%nat →
  delta o (set_wc_counts (upd2 (wc_counts o) i j d) o) (dwc_at i j d).
Proof.
  intros Hwf Hi Hj. split; try done; simpl.
  - destruct Hwf. split; try done; simpl.
    + by apply shape2_upd2.
    + by apply int64_upd2.
  - intros. apply wrap64_cell_0, cell1_int64, Hwf.
  - intros. apply wrap64_cell_0, cell2_int64, Hwf.
  - intros. apply wrap64_cell_0, cell2_int64, Hwf.
  - intros. eapply upd2_delta; try done; apply Hwf.
Qed.

Lemma runs_class_counts_iadd o c d :
  wf o → (c < nclasses o)%nat → runs (class_counts_iadd c d) o (dcls_at c d).
Proof.
  intros Hwf Hc. eapply exec_assign; [|by apply delta_class_counts].
  simpl. by rewrite iadd1_lt by (by rewrite (wf_class_counts o Hwf)).
Qed.

Lemma runs_class_counts_isub o c d :
  wf o → (c < nclasses o)%nat → runs (class_counts_isub c d) o (dcls_at c (- d)).
Proof.
  intros Hwf Hc. eapply exec_assign; [|by apply delta_class_counts].
  simpl. by rewrite isub1_lt by (by rewrite (wf_class_counts o Hwf)).
Qed.

Lemma runs_cc_counts_iadd o i j d :
  wf o → (i < nclasses o)%nat → (j < nclasses o)%nat →
  runs (cc_counts_iadd i j d) o (dcc_at i j d).
Proof.
  intros Hwf Hi Hj. eapply exec_assign; [|by apply delta_cc_counts].
  simpl. by rewrite (iadd2_lt _ _ _ _ _ _ (wf_cc_counts o Hwf)).
Qed.

Lemma runs_cc_counts_isub o i j d :
  wf o → (i < nclasses o)%nat → (j < nclasses o)%nat →
  runs (cc_counts_isub i j d) o (dcc_at i j (- d)).
Proof.
  intros Hwf Hi Hj. eapply exec_assign; [|by apply delta_cc_counts].
  simpl. by rewrite (isub2_lt _ _ _ _ _ _ (wf_cc_counts o Hwf)).
Qed.

Lemma runs_cw_counts_iadd o i j d :
  wf o → (i < nclasses o)%nat → (j < nwords o)%nat →
  runs (cw_counts_iadd i j d) o (dcw_at i j d).
Proof.
  intros Hwf Hi Hj. eapply exec_assign; [|by apply delta_cw_counts].
  simpl. by rewrite (iadd2_lt _ _ _ _ _ _ (wf_cw_counts o Hwf)).
Qed.

Lemma runs_cw_counts_isub o i j d :
  wf o → (i < nclasses o)%nat → (j < nwords o)%nat →
  runs (cw_counts_isub i j d) o (dcw_at i j (- d)).
Proof.
  intros Hwf Hi Hj. eapply exec_assign; [|by apply delta_cw_counts].
  simpl. by rewrite (isub2_lt _ _ _ _ _ _ (wf_cw_counts o Hwf)).
Qed.

Lemma runs_wc_counts_iadd o i j d :
  wf o → (i < nwords o)%nat → (j < nclasses o)%nat →
  runs (wc_counts_iadd i j d) o (dwc_at i j d).
Proof.
  intros Hwf Hi Hj. eapply exec_assign; [|by apply delta_wc_counts].
  simpl. by rewrite (iadd2_lt _ _ _ _ _ _ (wf_wc_counts o Hwf)).
Qed.

Lemma runs_wc_counts_isub o i j d :
  wf o → (i < nwords o)%nat → (j < nclasses o)%nat →
  runs (wc_counts_isub i j d) o (dwc_at i j (- d)).
Proof.
  intros Hwf Hi Hj. eapply exec_assign; [|by apply delta_wc_counts].
  simpl. by rewrite (isub2_lt _ _ _ _ _ _ (wf_wc_counts o Hwf)).
Qed.
(** ** The count updates of [_move] *)

(** The change made by one iteration of the loop over the row
    [ww_counts[word_id,:]] (lines 221-228). *)
Definition row_delta (w2c : list (option nat)) (word_id old new : nat)
    (x : nat * Z) : deltas :=
  if decide (x.1 = word_id) then dzero
  else
    let rc := class_at w2c x.1 in
    dplus (dcc_at old rc (- x.2))
      (dplus (dcc_at new rc x.2)
         (dplus (dcw_at old x.1 (- x.2)) (dcw_at new x.1 x.2))).

(** The change made by one iteration of the loop over the column
    [ww_counts[:,word_id]] (lines 230-237). *)
Definition col_delta (w2c : list (option nat)) (word_id old new : nat)
    (x : nat * Z) : deltas :=
  if decide (x.1 = word_id) then dzero
  else
    let lc := class_at w2c x.1 in
    dplus (dcc_at lc old (- x.2))
      (dplus (dcc_at lc new x.2)
         (dplus (dwc_at x.1 old (- x.2)) (dwc_at x.1 new x.2))).

Definition ww_row (o : Optimizer) (w : nat) : list Z :=
  default [] (ww_counts o !! w).
Definition ww_col (o : Optimizer) (w : nat) : list Z :=
  (λ row, cell1 row w) <$> ww_counts o.

(** The change that [_move word_id new] makes to the four class tables,
    statement by statement (lines 218-245). *)
Definition move_delta (o : Optimizer) (word_id new : nat) : deltas :=
  let w2c := word_to_class o in
  let old := class_at w2c word_id in
  let word_count := cell1 (word_counts o) word_id in
  let count := cell2 (ww_counts o) word_id word_id in
  let D := dplus (dcls_at old (- word_count)) (dcls_at new word_count) in
  let D := dplus D (dsum (row_delta w2c word_id old new)
                         (enumerate (ww_row o word_id))) in
  let D := dplus D (dsum (col_delta w2c word_id old new)
                         (enumerate (ww_col o word_id))) in
  let D := dplus D (dcc_at old old (- count)) in
  let D := dplus D (dcc_at new new count) in
  let D := dplus D (dcw_at old word_id (- count)) in
  let D := dplus D (dcw_at new word_id count) in
  let D := dplus D (dwc_at word_id old (- count)) in
  dplus D (dwc_at word_id new count).

Lemma exec_read_bind {A B} (f : Optimizer → res A) (k : A → M B) o v Q :
  f o = Ok v → exec (k v) o Q → exec (bindM (read f) k) o Q.
Proof. intros Hf Hk. unfold exec, bindM, read. rewrite Hf. exact Hk. Qed.

Lemma exec_step {B} (m : M unit) (k : M B) o o1 D D1 Q :
  delta o o1 D → runs m o1 D1 →
  (∀ o2, delta o o2 (dplus D D1) → exec k o2 Q) →
  exec (bindM m (λ _, k)) o1 Q.
Proof.
  intros HD Hm Hk. eapply exec_bind; [exact Hm|]. simpl.
  intros _ o2 H2. apply Hk. by eapply delta_trans.
Qed.

Lemma delta_dims o o1 D :
  delta o o1 D → nwords o1 = nwords o ∧ nclasses o1 = nclasses o.
Proof. intros H. apply same_raw_dims, H. Qed.

Lemma exec_class_of_word {B} (k : nat → M B) o w Q :
  wf o → (w < nwords o)%nat →
  exec (k (class_at (word_to_class o) w)) o Q →
  exec (bindM (class_of_word w) k) o Q.
Proof.
  intros Hwf Hw Hk. destruct (wf_class_at o w Hwf Hw) as [Hc _].
  unfold class_of_word, exec, bindM, read, getitem. rewrite Hc. exact Hk.
Qed.

Lemma elem_of_enumerate {A} (l : list A) (x : nat * A) :
  x ∈ enumerate l → l !! x.1 = Some x.2.
Proof.
  intros Hx. apply list_elem_of_lookup in Hx as [i Hi].
  unfold enumerate in Hi. rewrite list_lookup_imap in Hi.
  destruct (l !! i) as [y|] eqn:Hy; simplify_eq/=. done.
Qed.

Lemma runs_row_body o o1 D word_id old new x :
  delta o o1 D → (old < nclasses o)%nat → (new < nclasses o)%nat →
  (x.1 < nwords o)%nat →
  runs (let right_word_id := x.1 in
        let count := x.2 in
        if decide (right_word_id = word_id) then retM tt
        else
          right_class_id <- class_of_word right_word_id;
          _ <- cc_counts_isub old right_class_id count;
          _ <- cc_counts_iadd new right_class_id count;
          _ <- cw_counts_isub old right_word_id count;
          cw_counts_iadd new right_word_id count)
       o1 (row_delta (word_to_class o) word_id old new x).
Proof.
  intros HD Hold Hnew Hx. pose proof (dl_wf _ _ _ HD) as Hwf1.
  destruct (delta_dims _ _ _ HD) as [HV HC].
  destruct (dl_maps _ _ _ HD) as [Hw2c _].
  cbv zeta. unfold row_delta. case_decide; [by apply runs_ret|].
  apply exec_class_of_word; [done|lia|]. rewrite Hw2c.
  destruct (wf_class_at o1 x.1 Hwf1 ltac:(lia)) as [_ Hrc].
  rewrite Hw2c, HC in Hrc. fold (runs).
  apply runs_bind; [apply runs_cc_counts_isub; (done || lia)|].
  intros o2 H2. destruct (delta_dims _ _ _ H2) as [HV2 HC2].
  apply runs_bind; [apply runs_cc_counts_iadd; (apply H2 || lia)|].
  intros o3 H3. destruct (delta_dims _ _ _ H3) as [HV3 HC3].
  apply runs_bind; [apply runs_cw_counts_isub; (apply H3 || lia)|].
  intros o4 H4. destruct (delta_dims _ _ _ H4) as [HV4 HC4].
  apply runs_cw_counts_iadd; (apply H4 || lia).
Qed.

Lemma runs_col_body o o1 D word_id old new x :
  delta o o1 D → (old < nclasses o)%nat → (new < nclasses o)%nat →
  (x.1 < nwords o)%nat →
  runs (let left_word_id := x.1 in
        let count := x.2 in
        if decide (left_word_id = word_id) then retM tt
        else
          left_class_id <- class_of_word left_word_id;
          _ <- cc_counts_isub left_class_id old count;
          _ <- cc_counts_iadd left_class_id new count;
          _ <- wc_counts_isub left_word_id old count;
          wc_counts_iadd left_word_id new count)
       o1 (col_delta (word_to_class o) word_id old new x).
Proof.
  intros HD Hold Hnew Hx. pose proof (dl_wf _ _ _ HD) as Hwf1.
  destruct (delta_dims _ _ _ HD) as [HV HC].
  destruct (dl_maps _ _ _ HD) as [Hw2c _].
  cbv zeta. unfold col_delta. case_decide; [by apply runs_ret|].
  apply exec_class_of_word; [done|lia|]. rewrite Hw2c.
  destruct (wf_class_at o1 x.1 Hwf1 ltac:(lia)) as [_ Hrc].
  rewrite Hw2c, HC in Hrc. fold (runs).
  apply runs_bind; [apply runs_cc_counts_isub; (done || lia)|].
  intros o2 H2. destruct (delta_dims _ _ _ H2) as [HV2 HC2].
  apply runs_bind; [apply runs_cc_counts_iadd; (apply H2 || lia)|].
  intros o3 H3. destruct (delta_dims _ _ _ H3) as [HV3 HC3].
  apply runs_bind; [apply runs_wc_counts_isub; (apply H3 || lia)|].
  intros o4 H4. destruct (delta_dims _ _ _ H4) as [HV4 HC4].
  apply runs_wc_counts_iadd; (apply H4 || lia).
Qed.
Lemma map_res_ok {A B} (f : A → res B) (g : A → B) (l : list A) :
  Forall (λ x, f x = Ok (g x)) l → map_res f l = Ok (g <$> l).
Proof.
  induction 1 as [|x l Hx _ IH]; [done|]. simpl. by rewrite Hx, IH.
Qed.

Lemma getrow_lt o w :
  wf o → (w < nwords o)%nat →
  getrow (ww_counts o) w = Ok (ww_row o w) ∧ length (ww_row o w) = nwords o.
Proof.
  intros Hwf Hw.
  destruct (shape2_row _ _ _ w (wf_ww_counts o Hwf) Hw) as (row & Hrow & Hlen).
  unfold getrow, getitem, ww_row. by rewrite Hrow.
Qed.

Lemma getcol_lt o w :
  wf o → (w < nwords o)%nat →
  getcol (ww_counts o) w = Ok (ww_col o w) ∧ length (ww_col o w) = nwords o.
Proof.
  intros Hwf Hw. destruct (wf_ww_counts o Hwf) as [Hl Hall]. split.
  - apply map_res_ok. eapply Forall_impl; [exact Hall|]. simpl.
    intros row Hrow. apply getitem_cell1. lia.
  - unfold ww_col. by rewrite length_fmap.
Qed.

Lemma exec_assign_bind {B} (f : Optimizer → res Optimizer) (k : M B) o o' Q :
  f o = Ok o' → exec k o' Q → exec (bindM (assign f) (λ _, k)) o Q.
Proof. intros Hf Hk. unfold exec, bindM, assign. rewrite Hf. exact Hk. Qed.

(** The sets after [class_to_words[old].remove(w)] and
    [class_to_words[new].add(w)]. *)
Definition move_sets (c2w : list (gset nat)) (w old new : nat) : list (gset nat) :=
  let c2w1 := <[old := default ∅ (c2w !! old) ∖ {[w]}]> c2w in
  <[new := default ∅ (c2w1 !! new) ∪ {[w]}]> c2w1.

(** The store after [_move w new] on [o]. *)
Definition moved (o : Optimizer) (w new : nat) (o' : Optimizer) : Prop :=
  ∃ o1, delta o o1 (move_delta o w new) ∧
    o' = set_word_to_class (<[w := Some new]> (word_to_class o))
           (set_class_to_words
              (move_sets (class_to_words o) w
                 (class_at (word_to_class o) w) new) o1).

Lemma move_spec o w new :
  wf o → (w < nwords o)%nat → (new < nclasses o)%nat →
  exec (_move w new) o (λ _ o', moved o w new o').
Proof.
  intros Hwf Hw Hnew.
  destruct (wf_class_at o w Hwf Hw) as [Hoc Hold].
  set (old := class_at (word_to_class o) w) in *.
  destruct (getrow_lt o w Hwf Hw) as [Hrow Hrowlen].
  destruct (getcol_lt o w Hwf Hw) as [Hcol Hcollen].
  unfold _move.
  eapply exec_read_bind; [unfold getitem; by rewrite Hoc|].
  eapply exec_read_bind;
    [apply getitem_cell1; by rewrite (wf_word_counts o Hwf)|].
  eapply exec_read_bind; [done|].
  eapply exec_bind; [by apply runs_class_counts_isub|].
  intros [] o1 H1.
  eapply exec_step; [exact H1|apply runs_class_counts_iadd|];
    [apply H1|destruct (delta_dims _ _ _ H1); lia|].
  clear o1 H1. intros o1 H1.
  destruct (dl_raw _ _ _ H1) as (_ & _ & _ & Hwcs & Hwws & _).
  eapply exec_read_bind; [by rewrite Hwws|].
  eapply exec_step; [exact H1| |].
  { apply runs_for with (F := row_delta (word_to_class o) w old new);
      [apply H1|].
    intros x o2 D2 Hx H2. apply elem_of_enumerate in Hx.
    apply lookup_lt_Some in Hx. rewrite Hrowlen in Hx.
    eapply runs_row_body; [by eapply delta_trans|done..]. }
  clear o1 H1 Hwcs Hwws. intros o1 H1.
  destruct (dl_raw _ _ _ H1) as (_ & _ & _ & Hwcs & Hwws & _).
  eapply exec_read_bind; [by rewrite Hwws|].
  eapply exec_step; [exact H1| |].
  { apply runs_for with (F := col_delta (word_to_class o) w old new);
      [apply H1|].
    intros x o2 D2 Hx H2. apply elem_of_enumerate in Hx.
    apply lookup_lt_Some in Hx. rewrite Hcollen in Hx.
    eapply runs_col_body; [by eapply delta_trans|done..]. }
  clear o1 H1 Hwcs Hwws. intros o1 H1.
  destruct (dl_raw _ _ _ H1) as (_ & _ & _ & Hwcs & Hwws & _).
  eapply exec_read_bind.
  { rewrite Hwws. by apply (getitem2_lt _ _ _ _ _ (wf_ww_counts o Hwf)). }
  destruct (delta_dims _ _ _ H1) as [HV1 HC1].
  eapply exec_step; [exact H1|apply runs_cc_counts_isub; (apply H1 || lia)|].
  clear o1 H1 Hwcs Hwws HV1 HC1. intros o1 H1.
  destruct (delta_dims _ _ _ H1) as [HV1 HC1].
  eapply exec_step; [exact H1|apply runs_cc_counts_iadd; (apply H1 || lia)|].
  clear o1 H1 HV1 HC1. intros o1 H1.
  destruct (delta_dims _ _ _ H1) as [HV1 HC1].
  eapply exec_step; [exact H1|apply runs_cw_counts_isub; (apply H1 || lia)|].
  clear o1 H1 HV1 HC1. intros o1 H1.
  destruct (delta_dims _ _ _ H1) as [HV1 HC1].
  eapply exec_step; [exact H1|apply runs_cw_counts_iadd; (apply H1 || lia)|].
  clear o1 H1 HV1 HC1. intros o1 H1.
  destruct (delta_dims _ _ _ H1) as [HV1 HC1].
  eapply exec_step; [exact H1|apply runs_wc_counts_isub; (apply H1 || lia)|].
  clear o1 H1 HV1 HC1. intros o1 H1.
  destruct (delta_dims _ _ _ H1) as [HV1 HC1].
  eapply exec_step; [exact H1|apply runs_wc_counts_iadd; (apply H1 || lia)|].
  clear o1 H1 HV1 HC1. intros o1 H1.
  destruct (delta_dims _ _ _ H1) as [HV1 HC1].
  destruct (dl_maps _ _ _ H1) as [Hw2c Hc2w].
  pose proof (wf_class_to_words o Hwf) as Hlen.
  destruct (lookup_lt_is_Some_2 (class_to_words o) old) as [s Hs]; [lia|].
  assert (w ∈ s) as Hin by by apply (wf_inverse o Hwf old s Hs).
  eapply exec_assign_bind.
  { rewrite Hc2w. unfold set_remove, getitem. rewrite Hs. simpl.
    rewrite decide_True by done. rewrite setitem_lt by lia. done. }
  destruct (getitem_lt (<[old:=s ∖ {[w]}]> (class_to_words o)) new)
    as (s' & Hs' & Hget); [rewrite length_insert; lia|].
  eapply exec_assign_bind.
  { simpl. unfold set_add. rewrite Hget. simpl.
    rewrite setitem_lt by (rewrite length_insert; lia). done. }
  eapply exec_assign.
  { simpl. rewrite Hw2c. rewrite setitem_lt; [done|].
    rewrite (wf_word_to_class o Hwf). done. }
  exists o1. split; [exact H1|]. unfold move_sets. fold old.
  rewrite Hs. simpl. rewrite Hs'. reflexivity.
Qed.
(** ** The aggregation of [_compute_class_statistics] *)

Lemma for_res_inv {A S} (xs : list A) (body : A → S → res S) (s0 : S)
    (I : list A → S → Prop) :
  I [] s0 →
  (∀ pre x post s, xs = pre ++ x :: post → I pre s →
     ∃ s', body x s = Ok s' ∧ I (pre ++ [x]) s') →
  ∃ s', for_res xs body s0 = Ok s' ∧ I xs s'.
Proof.
  intros H0 Hstep.
  enough (∀ post pre s, xs = pre ++ post → I pre s →
            ∃ s', for_res post body s = Ok s' ∧ I xs s') as H
    by by apply (H xs [] s0).
  induction post as [|x post IH]; intros pre s Hxs Hpre; simpl.
  - exists s. by rewrite Hxs, app_nil_r.
  - destruct (Hstep pre x post s Hxs Hpre) as (s' & -> & HI). simpl.
    apply (IH (pre ++ [x])); [|done]. by rewrite <- app_assoc.
Qed.

Lemma acc1 a i d S x :
  (i < length a)%nat → cell1 a x = wrap64 S →
  cell1 (upd1 a i d) x = wrap64 (S + at1 i d x).
Proof.
  intros Hi Hx. rewrite cell1_upd1 by done. case_decide.
  - subst. by rewrite Hx, wrap64_add_l, at1_eq.
  - rewrite at1_ne by done. by rewrite Hx, Z.add_0_r.
Qed.

Lemma acc2 a r c i j d S x y :
  shape2 a r c → (i < r)%nat → (j < c)%nat → cell2 a x y = wrap64 S →
  cell2 (upd2 a i j d) x y = wrap64 (S + at2 i j d x y).
Proof.
  intros Hs Hi Hj Hx. rewrite (cell2_upd2 a r c) by done. case_decide as Hd.
  - destruct Hd as [-> ->]. by rewrite Hx, wrap64_add_l, at2_eq.
  - rewrite at2_ne by done. by rewrite Hx, Z.add_0_r.
Qed.

Lemma cell1_replicate n i : cell1 (replicate n 0) i = 0.
Proof.
  unfold cell1. destruct (replicate n 0 !! i) eqn:H; [|done].
  by apply lookup_replicate in H as [-> _].
Qed.

Lemma cell2_replicate n m i j : cell2 (replicate n (replicate m 0)) i j = 0.
Proof.
  unfold cell2. destruct (replicate n (replicate m 0) !! i) eqn:H; simpl.
  - apply lookup_replicate in H as [-> _]. apply cell1_replicate.
  - done.
Qed.

Lemma shape2_replicate n m : shape2 (replicate n (replicate m 0)) n m.
Proof.
  split; [by rewrite length_replicate|].
  apply Forall_replicate. by rewrite length_replicate.
Qed.

Lemma elem_of_ndenumerate a r c x :
  shape2 a r c → x ∈ ndenumerate a →
  (x.1.1 < r)%nat ∧ (x.1.2 < c)%nat ∧ x.2 = cell2 a x.1.1 x.1.2.
Proof.
  intros [Hl Hall] Hx. unfold ndenumerate in Hx.
  apply list_elem_of_join in Hx as (l & Hxl & Hl').
  apply list_elem_of_lookup in Hl' as [i Hi].
  rewrite list_lookup_imap in Hi.
  destruct (a !! i) as [row|] eqn:Hrow; simplify_eq/=.
  apply list_elem_of_lookup in Hxl as [j Hj].
  rewrite list_lookup_imap in Hj.
  destruct (row !! j) as [v|] eqn:Hv; simplify_eq/=.
  pose proof (Forall_lookup_1 _ _ _ _ Hall Hrow) as Hlen. simpl in Hlen.
  split; [by apply lookup_lt_Some in Hrow|].
  split; [apply lookup_lt_Some in Hv; lia|].
  unfold cell2, cell1. by rewrite Hrow; simpl; rewrite Hv.
Qed.

Lemma sum_list_ndenumerate (f : nat * nat * Z → Z) a r c :
  shape2 a r c →
  sum_list f (ndenumerate a) =
  sumZ (λ i, sumZ (λ j, f ((i, j), cell2 a i j)) c) r.
Proof.
  intros [Hl Hall]. unfold ndenumerate.
  rewrite sum_list_mjoin.
  rewrite (sum_list_imap (sum_list f)), Hl.
  apply sumZ_ext. intros i Hi.
  destruct (a !! i) as [row|] eqn:Hrow.
  - rewrite (sum_list_imap f).
    pose proof (Forall_lookup_1 _ _ _ _ Hall Hrow) as Hlen. simpl in Hlen.
    rewrite Hlen. apply sumZ_ext. intros j Hj.
    unfold cell2, cell1. rewrite Hrow. simpl.
    destruct (row !! j) as [v|] eqn:Hv; [done|].
    apply lookup_ge_None in Hv. lia.
  - apply lookup_ge_None in Hrow. lia.
Qed.

(** The aggregates of the word statistics under a class assignment. *)
Definition agg_cls (w2c : list (option nat)) (wcs : list Z) (V c : nat) : Z :=
  sumZ (λ i, ind (class_at w2c i = c) * cell1 wcs i) V.

Definition agg_cc (w2c : list (option nat)) (wws : list (list Z)) (V a b : nat) : Z :=
  sumZ (λ i, sumZ (λ j, ind (class_at w2c i = a) * ind (class_at w2c j = b)
                         * cell2 wws i j) V) V.

Definition agg_cw (w2c : list (option nat)) (wws : list (list Z)) (V a j : nat) : Z :=
  sumZ (λ i, ind (class_at w2c i = a) * cell2 wws i j) V.

Definition agg_wc (w2c : list (option nat)) (wws : list (list Z)) (V i b : nat) : Z :=
  sumZ (λ j, ind (class_at w2c j = b) * cell2 wws i j) V.

Definition classes_ok (C : nat) (w2c : list (option nat)) : Prop :=
  Forall (λ oc, ∃ c, oc = Some c ∧ (c < C)%nat) w2c.

(** Four tables hold the (wrapped) aggregates. *)
Record tables_agree (C V : nat) (wcs : list Z) (wws : list (list Z))
    (w2c : list (option nat))
    (cls : list Z) (cc cw wc : list (list Z)) : Prop := mk_agree {
  ta_cls_len : length cls = C;
  ta_cc_shape : shape2 cc C C;
  ta_cw_shape : shape2 cw C V;
  ta_wc_shape : shape2 wc V C;
  ta_cls : ∀ c, (c < C)%nat → cell1 cls c = wrap64 (agg_cls w2c wcs V c);
  ta_cc : ∀ a b, (a < C)%nat → (b < C)%nat →
    cell2 cc a b = wrap64 (agg_cc w2c wws V a b);
  ta_cw : ∀ a j, (a < C)%nat → (j < V)%nat →
    cell2 cw a j = wrap64 (agg_cw w2c wws V a j);
  ta_wc : ∀ i b, (i < V)%nat → (b < C)%nat →
    cell2 wc i b = wrap64 (agg_wc w2c wws V i b)
}.

Lemma classes_ok_at C w2c i :
  classes_ok C w2c → (i < length w2c)%nat →
  w2c !! i = Some (Some (class_at w2c i)) ∧ (class_at w2c i < C)%nat.
Proof.
  intros Hok Hi. destruct (lookup_lt_is_Some_2 w2c i Hi) as [oc Hoc].
  pose proof (Forall_lookup_1 _ _ _ _ Hok Hoc) as (c & -> & Hc).
  unfold class_at. by rewrite Hoc.
Qed.

Lemma class_counts_loop C V wcs w2c :
  length wcs = V → length w2c = V → classes_ok C w2c →
  ∃ cls,
    for_res (enumerate w2c)
      (λ x cls,
         class_id <~ as_index x.2;
         n <~ getitem wcs x.1;
         iadd1 cls class_id n)
      (replicate C 0) = Ok cls
    ∧ length cls = C
    ∧ ∀ c, (c < C)%nat → cell1 cls c = wrap64 (agg_cls w2c wcs V c).
Proof.
  intros Hwcs Hw2c Hok.
  set (f := λ (c : nat) (x : nat * option nat),
              ind (default O x.2 = c) * cell1 wcs x.1).
  edestruct (for_res_inv (enumerate w2c)
    (λ x cls, class_id <~ as_index x.2; n <~ getitem wcs x.1;
              iadd1 cls class_id n)
    (replicate C 0)
    (λ pre cls, length cls = C ∧
       ∀ c, (c < C)%nat → cell1 cls c = wrap64 (sum_list (f c) pre)))
    as (cls & Hcls & Hlen & Hcells).
  - split; [by rewrite length_replicate|]. intros c _.
    by rewrite cell1_replicate.
  - intros pre x post cls Hxs [Hlen Hcells].
    assert (x ∈ enumerate w2c) as Hx
      by (rewrite Hxs; apply elem_of_app; right; left).
    apply elem_of_enumerate in Hx.
    destruct (classes_ok_at C w2c x.1 Hok) as [Hc HcC];
      [by apply lookup_lt_Some in Hx|].
    rewrite Hx in Hc. injection Hc as Hc. rewrite Hc. simpl.
    rewrite getitem_cell1
      by (apply lookup_lt_Some in Hx; lia). simpl.
    rewrite iadd1_lt by lia. eexists; split; [done|].
    split; [by rewrite length_upd1|]. intros c Hc'.
    rewrite sum_list_app. simpl. rewrite Z.add_0_r.
    rewrite (acc1 _ _ _ (sum_list (f c) pre)) by (lia || auto).
    f_equal. f_equal. unfold at1, f. by rewrite Hc.
  - exists cls. split; [done|]. split; [done|]. intros c Hc.
    rewrite Hcells by done. f_equal. unfold f, agg_cls.
    unfold enumerate. rewrite sum_list_imap, Hw2c.
    apply sumZ_ext. intros i Hi.
    destruct (classes_ok_at C w2c i Hok) as [Hci _]; [lia|].
    rewrite Hci. done.
Qed.

Lemma class_tables_loop C V wws w2c :
  shape2 wws V V → length w2c = V → classes_ok C w2c →
  ∃ t,
    for_res (ndenumerate wws)
      (λ x t,
         let left_word_id := x.1.1 in
         let right_word_id := x.1.2 in
         let count := x.2 in
         lc <~ getitem w2c left_word_id;
         left_class_id <~ as_index lc;
         rc <~ getitem w2c right_word_id;
         right_class_id <~ as_index rc;
         cc <~ iadd2 t.1.1 left_class_id right_class_id count;
         cw <~ iadd2 t.1.2 left_class_id right_word_id count;
         wc <~ iadd2 t.2 left_word_id right_class_id count;
         Ok (cc, cw, wc))
      (replicate C (replicate C 0), replicate C (replicate V 0),
       replicate V (replicate C 0)) = Ok t
    ∧ shape2 t.1.1 C C ∧ shape2 t.1.2 C V ∧ shape2 t.2 V C
    ∧ (∀ a b, (a < C)%nat → (b < C)%nat →
         cell2 t.1.1 a b = wrap64 (agg_cc w2c wws V a b))
    ∧ (∀ a j, (a < C)%nat → (j < V)%nat →
         cell2 t.1.2 a j = wrap64 (agg_cw w2c wws V a j))
    ∧ (∀ i b, (i < V)%nat → (b < C)%nat →
         cell2 t.2 i b = wrap64 (agg_wc w2c wws V i b)).
Proof.
  intros Hwws Hw2c Hok.
  set (cl := class_at w2c).
  set (fcc := λ (a b : nat) (x : nat * nat * Z), at2 (cl x.1.1) (cl x.1.2) x.2 a b).
  set (fcw := λ (a j : nat) (x : nat * nat * Z), at2 (cl x.1.1) x.1.2 x.2 a j).
  set (fwc := λ (i b : nat) (x : nat * nat * Z), at2 x.1.1 (cl x.1.2) x.2 i b).
  edestruct (for_res_inv (ndenumerate wws)
    (λ x t,
         let left_word_id := x.1.1 in
         let right_word_id := x.1.2 in
         let count := x.2 in
         lc <~ getitem w2c left_word_id;
         left_class_id <~ as_index lc;
         rc <~ getitem w2c right_word_id;
         right_class_id <~ as_index rc;
         cc <~ iadd2 t.1.1 left_class_id right_class_id count;
         cw <~ iadd2 t.1.2 left_class_id right_word_id count;
         wc <~ iadd2 t.2 left_word_id right_class_id count;
         Ok (cc, cw, wc))
    (replicate C (replicate C 0), replicate C (replicate V 0),
     replicate V (replicate C 0))
    (λ pre t, shape2 t.1.1 C C ∧ shape2 t.1.2 C V ∧ shape2 t.2 V C
       ∧ (∀ a b, (a < C)%nat → (b < C)%nat →
            cell2 t.1.1 a b = wrap64 (sum_list (fcc a b) pre))
       ∧ (∀ a j, (a < C)%nat → (j < V)%nat →
            cell2 t.1.2 a j = wrap64 (sum_list (fcw a j) pre))
       ∧ (∀ i b, (i < V)%nat → (b < C)%nat →
            cell2 t.2 i b = wrap64 (sum_list (fwc i b) pre))))
    as (t & Ht & Hcc & Hcw & Hwc & Ecc & Ecw & Ewc).
  - simpl. split_and!; try apply shape2_replicate;
      intros; by rewrite cell2_replicate.
  - intros pre x post [[cc cw] wc] Hxs (Hcc & Hcw & Hwc & Ecc & Ecw & Ewc).
    simpl in *.
    assert (x ∈ ndenumerate wws) as Hx
      by (rewrite Hxs; apply elem_of_app; right; left).
    destruct (elem_of_ndenumerate _ _ _ _ Hwws Hx) as (Hi & Hj & _).
    destruct (classes_ok_at C w2c x.1.1 Hok) as [Hci HciC]; [lia|].
    destruct (classes_ok_at C w2c x.1.2 Hok) as [Hcj HcjC]; [lia|].
    unfold getitem at 1. rewrite Hci. simpl.
    unfold getitem at 1. rewrite Hcj. simpl.
    rewrite (iadd2_lt cc C C), (iadd2_lt cw C V), (iadd2_lt wc V C) by done.
    simpl. eexists; split; [done|]. simpl.
    split_and!; try (by apply shape2_upd2).
    + intros a b Ha Hb. rewrite sum_list_app. simpl. rewrite Z.add_0_r.
      by apply (acc2 _ C C); auto.
    + intros a j Ha Hj'. rewrite sum_list_app. simpl. rewrite Z.add_0_r.
      by apply (acc2 _ C V); auto.
    + intros i b Hi' Hb. rewrite sum_list_app. simpl. rewrite Z.add_0_r.
      by apply (acc2 _ V C); auto.
  - exists t. split; [done|]. split_and!; try done.
    + intros a b Ha Hb. rewrite Ecc by done. f_equal.
      by rewrite (sum_list_ndenumerate _ _ V V).
    + intros a j Ha Hj. rewrite Ecw by done. f_equal.
      rewrite (sum_list_ndenumerate _ _ V V) by done. unfold fcw, agg_cw.
      apply sumZ_ext. intros i Hi. simpl. unfold at2.
      rewrite <- (sumZ_pick (λ j', ind (cl i = a) * cell2 wws i j') V j) by done.
      apply sumZ_ext. intros j' _. unfold cl. ring.
    + intros i b Hi Hb. rewrite Ewc by done. f_equal.
      rewrite (sum_list_ndenumerate _ _ V V) by done. unfold fwc, agg_wc.
      simpl. unfold at2.
      rewrite <- (sumZ_pick
        (λ i', sumZ (λ j, ind (cl j = b) * cell2 wws i' j) V) V i) by done.
      apply sumZ_ext. intros i' _. rewrite <- sumZ_scale.
      apply sumZ_ext. intros j _. unfold cl. ring.
Qed.
Lemma compute_spec ncls V wcs wws w2c :
  0 ≤ ncls → length wcs = V → shape2 wws V V → length w2c = V →
  classes_ok (Z.to_nat ncls) w2c →
  ∃ cls cc cw wc,
    _compute_class_statistics ncls V wcs wws w2c = Ok (cls, cc, cw, wc)
    ∧ tables_agree (Z.to_nat ncls) V wcs wws w2c cls cc cw wc.
Proof.
  intros Hn Hwcs Hwws Hw2c Hok. unfold _compute_class_statistics.
  unfold zeros1, zeros2.
  destruct (Z.ltb_spec ncls 0) as [?|_]; [lia|].
  destruct (Z.ltb_spec (Z.of_nat V) 0) as [?|_]; [lia|].
  cbn [orb res_bind]. rewrite Nat2Z.id.
  destruct (class_counts_loop (Z.to_nat ncls) V wcs w2c Hwcs Hw2c Hok)
    as (cls & -> & Hlen & Ecls).
  cbn [res_bind].
  pose proof (class_tables_loop (Z.to_nat ncls) V wws w2c Hwws Hw2c Hok) as H.
  cbv zeta in H.
  destruct H as ([[cc cw] wc] & -> & Hcc & Hcw & Hwc & Ecc & Ecw & Ewc).
  simpl in *. exists cls, cc, cw, wc. split; [done|]. by split.
Qed.

Lemma tables_agree_unique C V wcs wws w2c cls cc cw wc cls' cc' cw' wc' :
  tables_agree C V wcs wws w2c cls cc cw wc →
  tables_agree C V wcs wws w2c cls' cc' cw' wc' →
  cls = cls' ∧ cc = cc' ∧ cw = cw' ∧ wc = wc'.
Proof.
  intros H H'. split_and!.
  - apply array1_ext; [by rewrite (ta_cls_len _ _ _ _ _ _ _ _ _ H),
                          (ta_cls_len _ _ _ _ _ _ _ _ _ H')|].
    intros i Hi. rewrite (ta_cls_len _ _ _ _ _ _ _ _ _ H) in Hi.
    by rewrite (ta_cls _ _ _ _ _ _ _ _ _ H), (ta_cls _ _ _ _ _ _ _ _ _ H').
  - apply (array2_ext _ _ C C); [apply H|apply H'|]. intros i j Hi Hj.
    by rewrite (ta_cc _ _ _ _ _ _ _ _ _ H), (ta_cc _ _ _ _ _ _ _ _ _ H').
  - apply (array2_ext _ _ C V); [apply H|apply H'|]. intros i j Hi Hj.
    by rewrite (ta_cw _ _ _ _ _ _ _ _ _ H), (ta_cw _ _ _ _ _ _ _ _ _ H').
  - apply (array2_ext _ _ V C); [apply H|apply H'|]. intros i j Hi Hj.
    by rewrite (ta_wc _ _ _ _ _ _ _ _ _ H), (ta_wc _ _ _ _ _ _ _ _ _ H').
Qed.

(** The four class tables of a store are what [_compute_class_statistics]
    computes from its word statistics and its [word_to_class]. *)
Definition aggregated (o : Optimizer) : Prop :=
  _compute_class_statistics (num_classes o) (vocabulary_size o)
    (word_counts o) (ww_counts o) (word_to_class o)
  = Ok (class_counts o, cc_counts o, cw_counts o, wc_counts o).

Definition agrees (o : Optimizer) : Prop :=
  tables_agree (nclasses o) (nwords o) (word_counts o) (ww_counts o)
    (word_to_class o) (class_counts o) (cc_counts o) (cw_counts o)
    (wc_counts o).

Lemma aggregated_agrees o : wf o → aggregated o ↔ agrees o.
Proof.
  intros Hwf.
  destruct (compute_spec (num_classes o) (nwords o) (word_counts o)
              (ww_counts o) (word_to_class o))
    as (cls & cc & cw & wc & Hc & Ht); try apply Hwf.
  unfold aggregated, agrees. fold (nwords o). rewrite Hc. split.
  - intros [= <- <- <- <-]. exact Ht.
  - intros Ht'.
    destruct (tables_agree_unique _ _ _ _ _ _ _ _ _ _ _ _ _ Ht Ht')
      as (-> & -> & -> & ->). done.
Qed.
(** ** Aggregates before and after the move of one word *)

(** A sum without the term of index [w]. *)
Definition sumZ_except (w : nat) (f : nat → Z) (n : nat) : Z :=
  sumZ (λ i, if decide (i = w) then 0 else f i) n.

Lemma sumZ_except_ext w f g n :
  (∀ i, (i < n)%nat → i ≠ w → f i = g i) →
  sumZ_except w f n = sumZ_except w g n.
Proof.
  intros H. apply sumZ_ext. intros i Hi. case_decide; [done|]. by apply H.
Qed.

Lemma sumZ_except_scale w c f n :
  sumZ_except w (λ i, c * f i) n = c * sumZ_except w f n.
Proof.
  unfold sumZ_except. rewrite <- sumZ_scale. apply sumZ_ext.
  intros i _. case_decide; lia.
Qed.

Lemma sumZ_split_except f n w :
  (w < n)%nat → sumZ f n = f w + sumZ_except w f n.
Proof. apply sumZ_split. Qed.

Section Bilinear.
(** A bigram table [m], and weights [u] on its rows and [v] on its
    columns. *)
Variable m : nat → nat → Z.
Variable n w : nat.
Hypothesis Hw : (w < n)%nat.

Definition bil (u v : nat → Z) : Z :=
  sumZ (λ i, sumZ (λ j, u i * v j * m i j) n) n.

Definition bil_row (v : nat → Z) : Z := sumZ_except w (λ j, v j * m w j) n.
Definition bil_col (u : nat → Z) : Z := sumZ_except w (λ i, u i * m i w) n.
Definition bil_rest (u v : nat → Z) : Z :=
  sumZ_except w (λ i, sumZ_except w (λ j, u i * v j * m i j) n) n.

Lemma bil_split u v :
  bil u v = u w * v w * m w w + u w * bil_row v + v w * bil_col u
            + bil_rest u v.
Proof.
  unfold bil.
  rewrite (sumZ_ext _ (λ i, u i * v w * m i w
                            + sumZ_except w (λ j, u i * v j * m i j) n))
    by (intros i _;
        by apply (sumZ_split_except (λ j, u i * v j * m i j) n w)).
  rewrite sumZ_plus.
  rewrite (sumZ_split_except (λ i, u i * v w * m i w) n w Hw).
  rewrite (sumZ_split_except
             (λ i, sumZ_except w (λ j, u i * v j * m i j) n) n w Hw).
  fold (bil_rest u v).
  rewrite (sumZ_except_ext w (λ i, u i * v w * m i w)
             (λ i, v w * (u i * m i w))) by (intros; ring).
  rewrite sumZ_except_scale. fold (bil_col u).
  rewrite (sumZ_except_ext w (λ j, u w * v j * m w j)
             (λ j, u w * (v j * m w j))) by (intros; ring).
  rewrite sumZ_except_scale. fold (bil_row v). ring.
Qed.

(** Changing the weights at [w] only. *)
Lemma bil_change u v u' v' :
  (∀ i, i ≠ w → u' i = u i) → (∀ j, j ≠ w → v' j = v j) →
  bil u' v' = bil u v
    + (u' w * v' w - u w * v w) * m w w
    + (u' w - u w) * bil_row v + (v' w - v w) * bil_col u.
Proof.
  intros Hu Hv. rewrite (bil_split u' v'), (bil_split u v).
  assert (bil_row v' = bil_row v) as ->.
  { apply sumZ_except_ext. intros j _ Hj. by rewrite Hv. }
  assert (bil_col u' = bil_col u) as ->.
  { apply sumZ_except_ext. intros i _ Hi. by rewrite Hu. }
  assert (bil_rest u' v' = bil_rest u v) as ->.
  { apply sumZ_except_ext. intros i _ Hi. apply sumZ_except_ext.
    intros j _ Hj. by rewrite Hu, Hv. }
  ring.
Qed.
End Bilinear.

Lemma class_at_insert w2c w new i :
  (w < length w2c)%nat →
  class_at (<[w := Some new]> w2c) i =
    if decide (i = w) then new else class_at w2c i.
Proof.
  intros Hw. unfold class_at. case_decide as Hi.
  - subst. by rewrite list_lookup_insert_eq.
  - by rewrite list_lookup_insert_ne.
Qed.
Lemma sumZ_change f f' n w :
  (w < n)%nat → (∀ i, i ≠ w → f' i = f i) →
  sumZ f' n = sumZ f n + (f' w - f w).
Proof.
  intros Hw Hf. rewrite (sumZ_split_except f' n w Hw),
    (sumZ_split_except f n w Hw).
  rewrite (sumZ_except_ext w f' f) by (intros; by apply Hf). lia.
Qed.

Lemma ww_row_lookup o w j :
  wf o → (w < nwords o)%nat → (j < nwords o)%nat →
  ww_row o w !! j = Some (cell2 (ww_counts o) w j).
Proof.
  intros Hwf Hw Hj.
  destruct (shape2_row _ _ _ w (wf_ww_counts o Hwf) Hw) as (row & Hrow & Hlen).
  unfold ww_row, cell2, cell1. rewrite Hrow. simpl.
  destruct (lookup_lt_is_Some_2 row j) as [x ->]; [lia|done].
Qed.

Lemma ww_col_lookup o w i :
  wf o → (w < nwords o)%nat → (i < nwords o)%nat →
  ww_col o w !! i = Some (cell2 (ww_counts o) i w).
Proof.
  intros Hwf Hw Hi.
  destruct (shape2_row _ _ _ i (wf_ww_counts o Hwf) Hi) as (row & Hrow & Hlen).
  unfold ww_col, cell2. rewrite list_lookup_fmap, Hrow. done.
Qed.

Lemma sum_list_row o w (F : nat → Z → Z) :
  wf o → (w < nwords o)%nat →
  sum_list (λ x, if decide (x.1 = w) then 0 else F x.1 x.2)
    (enumerate (ww_row o w))
  = sumZ_except w (λ j, F j (cell2 (ww_counts o) w j)) (nwords o).
Proof.
  intros Hwf Hw. destruct (getrow_lt o w Hwf Hw) as [_ Hlen].
  etrans; [exact (sum_list_enumerate
             (λ j c, if decide (j = w) then 0 else F j c) (ww_row o w))|].
  rewrite Hlen. apply sumZ_ext. intros j Hj. by rewrite ww_row_lookup.
Qed.

Lemma sum_list_col o w (F : nat → Z → Z) :
  wf o → (w < nwords o)%nat →
  sum_list (λ x, if decide (x.1 = w) then 0 else F x.1 x.2)
    (enumerate (ww_col o w))
  = sumZ_except w (λ i, F i (cell2 (ww_counts o) i w)) (nwords o).
Proof.
  intros Hwf Hw. destruct (getcol_lt o w Hwf Hw) as [_ Hlen].
  etrans; [exact (sum_list_enumerate
             (λ j c, if decide (j = w) then 0 else F j c) (ww_col o w))|].
  rewrite Hlen. apply sumZ_ext. intros j Hj. by rewrite ww_col_lookup.
Qed.

(** Rewriting with an instance of a lemma after beta-reduction. *)
Ltac rewrite_beta H :=
  let H' := fresh in pose proof H as H'; cbv beta in H'; rewrite H'; clear H'.

Section MoveDelta.
Variable o : Optimizer.
Variables w new : nat.
Hypothesis Hwf : wf o.
Hypothesis Hw : (w < nwords o)%nat.

Let w2c := word_to_class o.
Let old := class_at w2c w.
Let cl := class_at w2c.
Let m := cell2 (ww_counts o).
Let V := nwords o.

Lemma move_delta_cls c :
  d_cls (move_delta o w new) c
  = (ind (new = c) - ind (old = c)) * cell1 (word_counts o) w.
Proof.
  unfold move_delta. cbn [d_cls dplus dsum dcls_at dcc_at dcw_at dwc_at].
  rewrite (sum_list_ext _ (λ _, 0)), sum_list_zero.
  2:{ intros x _. unfold row_delta. by case_decide. }
  rewrite (sum_list_ext _ (λ _, 0)), sum_list_zero.
  2:{ intros x _. unfold col_delta. by case_decide. }
  unfold at1. fold w2c old. ring.
Qed.

Lemma move_delta_cw a j :
  (j < V)%nat →
  d_cw (move_delta o w new) a j = (ind (new = a) - ind (old = a)) * m w j.
Proof.
  intros Hj.
  unfold move_delta. cbn [d_cw dplus dsum dcls_at dcc_at dcw_at dwc_at].
  rewrite (sum_list_ext _
    (λ x, if decide (x.1 = w) then 0
          else ind (x.1 = j) * ((ind (new = a) - ind (old = a)) * x.2))).
  2:{ intros x _. unfold row_delta. case_decide; [done|].
      cbn [d_cw dplus dcc_at dcw_at]. unfold at2. fold w2c old. ring. }
  rewrite_beta (sum_list_row o w
    (λ j' c, ind (j' = j) * ((ind (new = a) - ind (old = a)) * c)) Hwf Hw).
  rewrite (sum_list_ext _ (λ _, 0)), sum_list_zero.
  2:{ intros x _. unfold col_delta. by case_decide. }
  fold w2c old m V.
  rewrite <- (sumZ_pick (λ j', (ind (new = a) - ind (old = a)) * m w j') V j Hj).
  rewrite (sumZ_split_except _ V w Hw). unfold at2. ring.
Qed.

Lemma move_delta_wc i b :
  (i < V)%nat →
  d_wc (move_delta o w new) i b = (ind (new = b) - ind (old = b)) * m i w.
Proof.
  intros Hi.
  unfold move_delta. cbn [d_wc dplus dsum dcls_at dcc_at dcw_at dwc_at].
  rewrite (sum_list_ext _ (λ _, 0)), sum_list_zero.
  2:{ intros x _. unfold row_delta. by case_decide. }
  rewrite (sum_list_ext _
    (λ x, if decide (x.1 = w) then 0
          else ind (x.1 = i) * ((ind (new = b) - ind (old = b)) * x.2))).
  2:{ intros x _. unfold col_delta. case_decide; [done|].
      cbn [d_wc dplus dcc_at dwc_at]. unfold at2. fold w2c old. ring. }
  rewrite_beta (sum_list_col o w
    (λ i' c, ind (i' = i) * ((ind (new = b) - ind (old = b)) * c)) Hwf Hw).
  fold w2c old m V.
  rewrite <- (sumZ_pick (λ i', (ind (new = b) - ind (old = b)) * m i' w) V i Hi).
  rewrite (sumZ_split_except _ V w Hw). unfold at2. ring.
Qed.

Lemma move_delta_cc a b :
  d_cc (move_delta o w new) a b
  = (ind (new = a) * ind (new = b) - ind (old = a) * ind (old = b)) * m w w
    + (ind (new = a) - ind (old = a)) * bil_row m V w (λ j, ind (cl j = b))
    + (ind (new = b) - ind (old = b)) * bil_col m V w (λ i, ind (cl i = a)).
Proof.
  unfold move_delta. cbn [d_cc dplus dsum dcls_at dcc_at dcw_at dwc_at].
  rewrite (sum_list_ext _
    (λ x, if decide (x.1 = w) then 0
          else (ind (new = a) - ind (old = a)) * (ind (cl x.1 = b) * x.2))).
  2:{ intros x _. unfold row_delta. case_decide; [done|].
      cbn [d_cc dplus dcc_at dcw_at]. unfold at2, cl. fold w2c old. ring. }
  rewrite_beta (sum_list_row o w
    (λ j c, (ind (new = a) - ind (old = a)) * (ind (cl j = b) * c)) Hwf Hw).
  rewrite (sum_list_ext
    (λ x, d_cc (col_delta (word_to_class o) w
                  (class_at (word_to_class o) w) new x) a b)
    (λ x, if decide (x.1 = w) then 0
          else (ind (new = b) - ind (old = b)) * (ind (cl x.1 = a) * x.2))).
  2:{ intros x _. unfold col_delta. case_decide; [done|].
      cbn [d_cc dplus dcc_at dwc_at]. unfold at2, cl. fold w2c old. ring. }
  rewrite_beta (sum_list_col o w
    (λ i c, (ind (new = b) - ind (old = b)) * (ind (cl i = a) * c)) Hwf Hw).
  rewrite !sumZ_except_scale. unfold bil_row, bil_col, at2.
  fold w2c old m V. ring.
Qed.
End MoveDelta.
Section AggregateMove.
Variable o : Optimizer.
Variables w new : nat.
Hypothesis Hwf : wf o.
Hypothesis Hw : (w < nwords o)%nat.

Let w2c := word_to_class o.
Let w2c' := <[w := Some new]> (word_to_class o).
Let V := nwords o.

Lemma class_at_moved i :
  class_at w2c' i = if decide (i = w) then new else class_at w2c i.
Proof.
  apply class_at_insert. unfold w2c. by rewrite (wf_word_to_class o Hwf).
Qed.

Lemma class_at_moved_ne i : i ≠ w → class_at w2c' i = class_at w2c i.
Proof. intros Hi. rewrite class_at_moved. by rewrite decide_False. Qed.

Lemma class_at_moved_eq : class_at w2c' w = new.
Proof. rewrite class_at_moved. by rewrite decide_True. Qed.

Lemma agg_cls_move c :
  agg_cls w2c' (word_counts o) V c
  = agg_cls w2c (word_counts o) V c + d_cls (move_delta o w new) c.
Proof.
  rewrite move_delta_cls by done. unfold agg_cls.
  rewrite (sumZ_change
             (λ i, ind (class_at w2c i = c) * cell1 (word_counts o) i)
             (λ i, ind (class_at w2c' i = c) * cell1 (word_counts o) i)
             V w Hw).
  - rewrite class_at_moved_eq. fold w2c. ring.
  - intros i Hi. by rewrite class_at_moved_ne.
Qed.

Lemma agg_cw_move a j :
  (j < V)%nat →
  agg_cw w2c' (ww_counts o) V a j
  = agg_cw w2c (ww_counts o) V a j + d_cw (move_delta o w new) a j.
Proof.
  intros Hj. rewrite move_delta_cw by done. unfold agg_cw.
  rewrite (sumZ_change
             (λ i, ind (class_at w2c i = a) * cell2 (ww_counts o) i j)
             (λ i, ind (class_at w2c' i = a) * cell2 (ww_counts o) i j)
             V w Hw).
  - rewrite class_at_moved_eq. fold w2c. ring.
  - intros i Hi. by rewrite class_at_moved_ne.
Qed.

Lemma agg_wc_move i b :
  (i < V)%nat →
  agg_wc w2c' (ww_counts o) V i b
  = agg_wc w2c (ww_counts o) V i b + d_wc (move_delta o w new) i b.
Proof.
  intros Hi. rewrite move_delta_wc by done. unfold agg_wc.
  rewrite (sumZ_change
             (λ j, ind (class_at w2c j = b) * cell2 (ww_counts o) i j)
             (λ j, ind (class_at w2c' j = b) * cell2 (ww_counts o) i j)
             V w Hw).
  - rewrite class_at_moved_eq. fold w2c. ring.
  - intros j Hj. by rewrite class_at_moved_ne.
Qed.

Lemma agg_cc_move a b :
  agg_cc w2c' (ww_counts o) V a b
  = agg_cc w2c (ww_counts o) V a b + d_cc (move_delta o w new) a b.
Proof.
  rewrite move_delta_cc by done.
  change (agg_cc w2c' (ww_counts o) V a b)
    with (bil (cell2 (ww_counts o)) V
            (λ i, ind (class_at w2c' i = a)) (λ j, ind (class_at w2c' j = b))).
  change (agg_cc w2c (ww_counts o) V a b)
    with (bil (cell2 (ww_counts o)) V
            (λ i, ind (class_at w2c i = a)) (λ j, ind (class_at w2c j = b))).
  rewrite (bil_change (cell2 (ww_counts o)) V w Hw
             (λ i, ind (class_at w2c i = a)) (λ j, ind (class_at w2c j = b))
             (λ i, ind (class_at w2c' i = a)) (λ j, ind (class_at w2c' j = b))).
  - rewrite class_at_moved_eq. fold w2c V. ring.
  - intros i Hi. by rewrite class_at_moved_ne.
  - intros j Hj. by rewrite class_at_moved_ne.
Qed.
End AggregateMove.
(** ** The word-class mapping pair after a move *)

Lemma move_sets_inverse w2c c2w w new :
  inverse_maps w2c c2w → (w < length w2c)%nat →
  (class_at w2c w < length c2w)%nat → (new < length c2w)%nat →
  w2c !! w = Some (Some (class_at w2c w)) →
  inverse_maps (<[w := Some new]> w2c) (move_sets c2w w (class_at w2c w) new).
Proof.
  intros Hinv Hw Hold Hnew Hcl. set (old := class_at w2c w) in *.
  destruct (lookup_lt_is_Some_2 c2w old Hold) as [so Hso].
  destruct (lookup_lt_is_Some_2 c2w new Hnew) as [sn Hsn].
  intros c s Hs x. unfold move_sets in Hs. rewrite Hso in Hs. simpl in Hs.
  assert (∀ c' s', c2w !! c' = Some s' → w ∈ s' ↔ c' = old) as Hw_in.
  { intros c' s' Hs'. rewrite (Hinv c' s' Hs' w), Hcl. naive_solver. }
  destruct (decide (x = w)) as [->|Hx].
  - rewrite list_lookup_insert_eq by done.
    destruct (decide (c = new)) as [->|Hc].
    + rewrite list_lookup_insert_eq in Hs
        by (rewrite length_insert; lia).
      injection Hs as <-. set_solver.
    + rewrite list_lookup_insert_ne in Hs by done.
      split; [|naive_solver]. intros Hin. exfalso.
      destruct (decide (c = old)) as [->|Hco].
      * rewrite list_lookup_insert_eq in Hs by done.
        injection Hs as <-. set_solver.
      * rewrite list_lookup_insert_ne in Hs by done.
        by apply Hco, (Hw_in c s).
  - rewrite list_lookup_insert_ne by done.
    destruct (decide (c = new)) as [->|Hc].
    + rewrite list_lookup_insert_eq in Hs
        by (rewrite length_insert; lia).
      injection Hs as <-.
      destruct (decide (new = old)) as [->|Hno].
      * rewrite list_lookup_insert_eq by done. simpl.
        rewrite <- (Hinv old so Hso x). set_solver.
      * rewrite list_lookup_insert_ne by done. rewrite Hsn. simpl.
        rewrite <- (Hinv new sn Hsn x). set_solver.
    + rewrite list_lookup_insert_ne in Hs by done.
      destruct (decide (c = old)) as [->|Hco].
      * rewrite list_lookup_insert_eq in Hs by done.
        injection Hs as <-. rewrite <- (Hinv old so Hso x). set_solver.
      * rewrite list_lookup_insert_ne in Hs by done.
        apply (Hinv c s Hs x).
Qed.

Lemma length_move_sets c2w w old new :
  length (move_sets c2w w old new) = length c2w.
Proof. unfold move_sets. by rewrite !length_insert. Qed.

Lemma moved_wf o w new o' :
  wf o → (w < nwords o)%nat → (new < nclasses o)%nat →
  moved o w new o' → wf o'.
Proof.
  intros Hwf Hw Hnew (o1 & HD & ->).
  pose proof (dl_wf _ _ _ HD) as Hwf1.
  destruct (delta_dims _ _ _ HD) as [HV HC].
  destruct (wf_class_at o w Hwf Hw) as [Hcl Hold].
  split; unfold nclasses, nwords; simpl;
    fold (nclasses o1) (nwords o1); try apply Hwf1.
  - rewrite length_insert, HV. apply Hwf.
  - rewrite HC. apply Forall_insert; [apply Hwf|by exists new].
  - rewrite length_move_sets, HC. apply Hwf.
  - apply move_sets_inverse; try apply Hwf;
      rewrite ?(wf_word_to_class o Hwf), ?(wf_class_to_words o Hwf); done.
Qed.

Lemma moved_agrees o w new o' :
  wf o → (w < nwords o)%nat → (new < nclasses o)%nat →
  agrees o → moved o w new o' → agrees o'.
Proof.
  intros Hwf Hw Hnew Hag (o1 & HD & ->).
  pose proof (dl_wf _ _ _ HD) as Hwf1.
  destruct (delta_dims _ _ _ HD) as [HV HC].
  destruct (dl_raw _ _ _ HD) as (_ & _ & _ & Hwcs & Hwws & _).
  change (tables_agree (nclasses o1) (nwords o1) (word_counts o1)
            (ww_counts o1) (<[w:=Some new]> (word_to_class o))
            (class_counts o1) (cc_counts o1) (cw_counts o1) (wc_counts o1)).
  rewrite HC, HV, Hwcs, Hwws.
  destruct Hag as [_ _ _ _ Ecls Ecc Ecw Ewc]. split.
  - rewrite <- HC. apply Hwf1.
  - rewrite <- HC. apply Hwf1.
  - rewrite <- HC, <- HV. apply Hwf1.
  - rewrite <- HC, <- HV. apply Hwf1.
  - intros c Hc. rewrite (dl_cls _ _ _ HD), Ecls by done.
    rewrite wrap64_add_l. f_equal. symmetry. by apply agg_cls_move.
  - intros a b Ha Hb. rewrite (dl_cc _ _ _ HD), Ecc by done.
    rewrite wrap64_add_l. f_equal. symmetry. by apply agg_cc_move.
  - intros a j Ha Hj. rewrite (dl_cw _ _ _ HD), Ecw by done.
    rewrite wrap64_add_l. f_equal. symmetry. by apply agg_cw_move.
  - intros i b Hi Hb. rewrite (dl_wc _ _ _ HD), Ewc by done.
    rewrite wrap64_add_l. f_equal. symmetry. by apply agg_wc_move.
Qed.
(** ** What no method changes *)

Lemma same_raw_refl o : same_raw o o.
Proof. by repeat split. Qed.

Lemma same_raw_trans o1 o2 o3 : same_raw o1 o2 → same_raw o2 o3 → same_raw o1 o3.
Proof.
  intros (?&?&?&?&?&?) (?&?&?&?&?&?). repeat split; congruence.
Qed.

(** [keeps m]: whatever it returns or raises, [m] leaves the vocabulary,
    the word ids, the word statistics and the number of classes as they
    were. *)
Definition keeps {A} (m : M A) : Prop := ∀ o, same_raw o (m o).2.

Lemma keeps_ret {A} (a : A) : keeps (retM a).
Proof. intros o. apply same_raw_refl. Qed.

Lemma keeps_read {A} (f : Optimizer → res A) : keeps (read f).
Proof. intros o. apply same_raw_refl. Qed.

Lemma keeps_bind {A B} (m : M A) (k : A → M B) :
  keeps m → (∀ a, keeps (k a)) → keeps (bindM m k).
Proof.
  intros Hm Hk o. unfold bindM. specialize (Hm o).
  destruct (m o) as [[a|e] o1]; simpl in *; [|done].
  eapply same_raw_trans; [exact Hm|apply Hk].
Qed.

Lemma keeps_for {A} (xs : list A) (body : A → M unit) :
  (∀ x, keeps (body x)) → keeps (for_M xs body).
Proof.
  intros Hb. induction xs as [|x xs IH]; simpl.
  - apply keeps_ret.
  - apply keeps_bind; [apply Hb|done].
Qed.

Lemma keeps_fold {A S} (xs : list A) (body : A → S → M S) (s : S) :
  (∀ x s, keeps (body x s)) → keeps (fold_M xs body s).
Proof.
  intros Hb. revert s. induction xs as [|x xs IH]; intros s; simpl.
  - apply keeps_ret.
  - apply keeps_bind; [apply Hb|done].
Qed.

Lemma keeps_assign (f : Optimizer → res Optimizer) :
  (∀ o o', f o = Ok o' → same_raw o o') → keeps (assign f).
Proof.
  intros Hf o. unfold assign. destruct (f o) as [o'|e] eqn:E; simpl.
  - by apply Hf.
  - apply same_raw_refl.
Qed.

Ltac keeps_tac :=
  repeat first
    [ apply keeps_ret
    | apply keeps_read
    | apply keeps_assign;
      let H := fresh in
      intros ? ? H; unfold res_bind in H; repeat case_match; simplify_eq;
      by repeat split
    | apply keeps_for; intros
    | apply keeps_fold; intros
    | apply keeps_bind; [|intros]
    | progress cbv zeta
    | case_decide ].

Lemma keeps_class_of_word w : keeps (class_of_word w).
Proof. unfold class_of_word. keeps_tac. Qed.

Lemma keeps_move w new : keeps (_move w new).
Proof.
  unfold _move, class_counts_iadd, class_counts_isub, cc_counts_iadd,
    cc_counts_isub, cw_counts_iadd, cw_counts_isub, wc_counts_iadd,
    wc_counts_isub, class_of_word.
  keeps_tac.
Qed.

(** A method that assigns nothing leaves the whole store as it was. *)
Definition pure_method {A} (m : M A) : Prop := ∀ o, (m o).2 = o.

Lemma pure_ret {A} (a : A) : pure_method (retM a).
Proof. done. Qed.

Lemma pure_read {A} (f : Optimizer → res A) : pure_method (read f).
Proof. done. Qed.

Lemma pure_bind {A B} (m : M A) (k : A → M B) :
  pure_method m → (∀ a, pure_method (k a)) → pure_method (bindM m k).
Proof.
  intros Hm Hk o. unfold bindM. specialize (Hm o).
  destruct (m o) as [[a|e] o1]; simpl in *; [|done].
  subst. apply Hk.
Qed.

Lemma pure_fold {A S} (xs : list A) (body : A → S → M S) (s : S) :
  (∀ x s, pure_method (body x s)) → pure_method (fold_M xs body s).
Proof.
  intros Hb. revert s. induction xs as [|x xs IH]; intros s; simpl.
  - apply pure_ret.
  - apply pure_bind; [apply Hb|done].
Qed.

Ltac pure_tac :=
  repeat first
    [ apply pure_ret
    | apply pure_read
    | apply pure_fold; intros
    | apply pure_bind; [|intros]
    | progress cbv zeta
    | case_decide ].

Lemma pure_evaluate_move np_log w new : pure_method (_evaluate_move np_log w new).
Proof. unfold _evaluate_move, class_terms. pure_tac. Qed.

Lemma pure_log_likelihood np_log np_sum : pure_method (log_likelihood np_log np_sum).
Proof. apply pure_read. Qed.
(** ** Moving a word and moving it back *)

Lemma optimizer_ext (o o' : Optimizer) :
  vocabulary o = vocabulary o' → vocabulary_size o = vocabulary_size o' →
  word_ids o = word_ids o' → word_counts o = word_counts o' →
  ww_counts o = ww_counts o' → num_classes o = num_classes o' →
  word_to_class o = word_to_class o' → class_to_words o = class_to_words o' →
  class_counts o = class_counts o' → cc_counts o = cc_counts o' →
  cw_counts o = cw_counts o' → wc_counts o = wc_counts o' → o = o'.
Proof. destruct o, o'. simpl. intros. by subst. Qed.

Lemma move_sets_back (c2w : list (gset nat)) w A B sA :
  c2w !! A = Some sA → w ∈ sA → (B < length c2w)%nat →
  (A ≠ B → ∀ s, c2w !! B = Some s → w ∉ s) →
  move_sets (move_sets c2w w A B) w B A = c2w.
Proof.
  intros HA Hin HB Hnot. pose proof (lookup_lt_Some _ _ _ HA) as HlA.
  assert ((sA ∖ {[w]}) ∪ {[w]} = sA) as Hback.
  { apply set_eq. intros x. destruct (decide (x = w)); set_solver. }
  unfold move_sets. rewrite HA. simpl.
  destruct (decide (A = B)) as [<-|Hne].
  - rewrite !list_lookup_insert_eq by (rewrite ?length_insert; lia). simpl.
    rewrite !list_insert_insert_eq, Hback, Hback.
    by apply list_insert_id.
  - destruct (lookup_lt_is_Some_2 c2w B HB) as [sB HsB].
    specialize (Hnot Hne sB HsB).
    rewrite (list_lookup_insert_ne _ A B) by done. rewrite HsB. simpl.
    rewrite list_lookup_insert_eq by (rewrite length_insert; lia). simpl.
    rewrite list_insert_insert_eq.
    rewrite (list_lookup_insert_ne _ B A) by done.
    rewrite list_lookup_insert_eq by lia. simpl.
    rewrite Hback.
    assert ((sB ∪ {[w]}) ∖ {[w]} = sB) as -> by set_solver.
    apply list_eq. intros c.
    destruct (decide (c = A)) as [->|HcA].
    + rewrite list_lookup_insert_eq by (rewrite !length_insert; lia). done.
    + rewrite list_lookup_insert_ne by done.
      destruct (decide (c = B)) as [->|HcB].
      * rewrite list_lookup_insert_eq by (rewrite !length_insert; lia). done.
      * by rewrite !list_lookup_insert_ne by done.
Qed.
Lemma moved_facts o w new o1 :
  moved o w new o1 →
  same_raw o o1
  ∧ word_to_class o1 = <[w := Some new]> (word_to_class o)
  ∧ class_to_words o1
    = move_sets (class_to_words o) w (class_at (word_to_class o) w) new
  ∧ (∀ c, (c < nclasses o)%nat →
       cell1 (class_counts o1) c
       = wrap64 (cell1 (class_counts o) c + d_cls (move_delta o w new) c))
  ∧ (∀ a b, (a < nclasses o)%nat → (b < nclasses o)%nat →
       cell2 (cc_counts o1) a b
       = wrap64 (cell2 (cc_counts o) a b + d_cc (move_delta o w new) a b))
  ∧ (∀ a j, (a < nclasses o)%nat → (j < nwords o)%nat →
       cell2 (cw_counts o1) a j
       = wrap64 (cell2 (cw_counts o) a j + d_cw (move_delta o w new) a j))
  ∧ (∀ i b, (i < nwords o)%nat → (b < nclasses o)%nat →
       cell2 (wc_counts o1) i b
       = wrap64 (cell2 (wc_counts o) i b + d_wc (move_delta o w new) i b)).
Proof.
  intros (o' & [Hraw Hmaps _ Ecls Ecc Ecw Ewc] & ->).
  split; [exact Hraw|]. split; [reflexivity|]. split; [reflexivity|].
  split; [exact Ecls|]. split; [exact Ecc|]. split; [exact Ecw|exact Ewc].
Qed.

Lemma move_delta_back o w B o1 :
  wf o → (w < nwords o)%nat → (B < nclasses o)%nat → moved o w B o1 →
  let A := class_at (word_to_class o) w in
  let D := move_delta o w B in
  let D' := move_delta o1 w A in
  (∀ c, d_cls D c + d_cls D' c = 0)
  ∧ (∀ a b, d_cc D a b + d_cc D' a b = 0)
  ∧ (∀ a j, (j < nwords o)%nat → d_cw D a j + d_cw D' a j = 0)
  ∧ (∀ i b, (i < nwords o)%nat → d_wc D i b + d_wc D' i b = 0).
Proof.
  intros Hwf Hw HB Hmoved A D D'.
  pose proof (moved_wf o w B o1 Hwf Hw HB Hmoved) as Hwf1.
  destruct (moved_facts _ _ _ _ Hmoved) as (Hraw & Hw2c & _).
  destruct (same_raw_dims _ _ Hraw) as [HV HC].
  destruct Hraw as (_ & _ & _ & Hwcs & Hwws & _).
  assert (w < nwords o1)%nat as Hw1 by lia.
  assert (class_at (word_to_class o1) w = B) as HclB
    by (rewrite Hw2c; by apply class_at_moved_eq).
  assert (∀ i, i ≠ w → class_at (word_to_class o1) i
                        = class_at (word_to_class o) i) as Hcl
    by (intros i Hi; rewrite Hw2c; by apply class_at_moved_ne).
  unfold D, D'. split_and!.
  - intros c. rewrite !move_delta_cls by done. rewrite HclB, Hwcs.
    fold A. ring.
  - intros a b. rewrite !move_delta_cc by done. rewrite HclB, Hwws, HV.
    fold A. unfold bil_row, bil_col.
    rewrite (sumZ_except_ext w
      (λ j, ind (class_at (word_to_class o1) j = b) * cell2 (ww_counts o) w j)
      (λ j, ind (class_at (word_to_class o) j = b) * cell2 (ww_counts o) w j))
      by (intros j _ Hj; by rewrite Hcl).
    rewrite (sumZ_except_ext w
      (λ i, ind (class_at (word_to_class o1) i = a) * cell2 (ww_counts o) i w)
      (λ i, ind (class_at (word_to_class o) i = a) * cell2 (ww_counts o) i w))
      by (intros i _ Hi; by rewrite Hcl).
    ring.
  - intros a j Hj. rewrite !move_delta_cw by (done || lia).
    rewrite HclB, Hwws. fold A. ring.
  - intros i b Hi. rewrite !move_delta_wc by (done || lia).
    rewrite HclB, Hwws. fold A. ring.
Qed.

Lemma wrap64_cancel c d d' :
  is_int64 c → d + d' = 0 → wrap64 (wrap64 (c + d) + d') = c.
Proof.
  intros Hc Hd. rewrite wrap64_add_l.
  replace (c + d + d') with c by lia. by apply wrap64_id.
Qed.

Lemma move_back_store o w B o1 o2 :
  wf o → (w < nwords o)%nat → (B < nclasses o)%nat →
  moved o w B o1 → moved o1 w (class_at (word_to_class o) w) o2 → o2 = o.
Proof.
  intros Hwf Hw HB Hm1 Hm2. set (A := class_at (word_to_class o) w) in *.
  pose proof (moved_wf o w B o1 Hwf Hw HB Hm1) as Hwf1.
  destruct (wf_class_at o w Hwf Hw) as [HclA HA]. fold A in HclA, HA.
  destruct (move_delta_back o w B o1 Hwf Hw HB Hm1)
    as (Zcls & Zcc & Zcw & Zwc). fold A in Zcls, Zcc, Zcw, Zwc.
  destruct (moved_facts _ _ _ _ Hm1)
    as (Hraw1 & Hw2c1 & Hc2w1 & Ecls1 & Ecc1 & Ecw1 & Ewc1).
  destruct (moved_facts _ _ _ _ Hm2)
    as (Hraw2 & Hw2c2 & Hc2w2 & Ecls2 & Ecc2 & Ecw2 & Ewc2).
  destruct (same_raw_dims _ _ Hraw1) as [HV1 HC1].
  destruct (same_raw_dims _ _ Hraw2) as [HV2 HC2].
  assert (wf o2) as Hwf2 by (eapply (moved_wf o1 w A); [done|lia|lia|done]).
  assert (class_at (word_to_class o1) w = B) as HclB
    by (rewrite Hw2c1; by apply class_at_moved_eq).
  destruct Hraw1 as (?&?&?&?&?&?), Hraw2 as (?&?&?&?&?&?).
  apply optimizer_ext; try congruence.
  - rewrite Hw2c2, Hw2c1, list_insert_insert_eq. by apply list_insert_id.
  - rewrite Hc2w2, Hc2w1, HclB. fold A.
    destruct (lookup_lt_is_Some_2 (class_to_words o) A) as [sA HsA];
      [by rewrite (wf_class_to_words o Hwf)|].
    apply (move_sets_back _ w A B sA); [done| |by rewrite (wf_class_to_words o Hwf)|].
    + by apply (wf_inverse o Hwf A sA HsA).
    + intros Hne s Hs Hin. apply (wf_inverse o Hwf B s Hs) in Hin.
      rewrite HclA in Hin. by simplify_eq.
  - apply array1_ext;
      [by rewrite (wf_class_counts o2 Hwf2), (wf_class_counts o Hwf), HC2, HC1|].
    intros c Hc. rewrite (wf_class_counts o2 Hwf2), HC2, HC1 in Hc.
    rewrite Ecls2, Ecls1 by lia.
    apply wrap64_cancel; [apply cell1_int64, Hwf|apply Zcls].
  - apply (array2_ext _ _ (nclasses o) (nclasses o)); [|apply Hwf|].
    { rewrite <- HC1, <- HC2. apply Hwf2. }
    intros a b Ha Hb. rewrite Ecc2, Ecc1 by lia.
    apply wrap64_cancel; [apply cell2_int64, Hwf|apply Zcc].
  - apply (array2_ext _ _ (nclasses o) (nwords o)); [|apply Hwf|].
    { rewrite <- HC1, <- HC2, <- HV1, <- HV2. apply Hwf2. }
    intros a j Ha Hj. rewrite Ecw2, Ecw1 by lia.
    apply wrap64_cancel; [apply cell2_int64, Hwf|by apply Zcw].
  - apply (array2_ext _ _ (nwords o) (nclasses o)); [|apply Hwf|].
    { rewrite <- HC1, <- HC2, <- HV1, <- HV2. apply Hwf2. }
    intros i b Hi Hb. rewrite Ewc2, Ewc1 by lia.
    apply wrap64_cancel; [apply cell2_int64, Hwf|by apply Zwc].
Qed.
(** ** Construction: the store it returns is well formed *)

Lemma res_bind_ok {A B} (m : res A) (k : A → res B) b :
  res_bind m k = Ok b → ∃ a, m = Ok a ∧ k a = Ok b.
Proof. destruct m as [a|e]; simpl; [eauto|done]. Qed.

Lemma for_res_ok {A S} (xs : list A) (body : A → S → res S) (s0 s' : S)
    (I : list A → S → Prop) :
  for_res xs body s0 = Ok s' → I [] s0 →
  (∀ pre x post s s1, xs = pre ++ x :: post → I pre s →
     body x s = Ok s1 → I (pre ++ [x]) s1) →
  I xs s'.
Proof.
  intros Hrun H0 Hstep.
  enough (∀ post pre s, xs = pre ++ post → I pre s →
            for_res post body s = Ok s' → I xs s') as H
    by by apply (H xs [] s0).
  induction post as [|x post IH]; intros pre s Hxs Hpre Hr; simpl in Hr.
  - injection Hr as <-. by rewrite Hxs, app_nil_r.
  - apply res_bind_ok in Hr as (s1 & Hb & Hr).
    apply (IH (pre ++ [x]) s1); [by rewrite <- app_assoc| |done].
    by eapply Hstep.
Qed.

Lemma getitem_ok {A} (l : list A) i x :
  getitem l i = Ok x → l !! i = Some x.
Proof. unfold getitem. by destruct (l !! i); intros [= ->]. Qed.

Lemma setitem_ok {A} (l : list A) i x l' :
  setitem l i x = Ok l' → (i < length l)%nat ∧ l' = <[i := x]> l.
Proof.
  unfold setitem. destruct (l !! i) eqn:E; intros [= <-].
  split; [by apply lookup_lt_Some in E|done].
Qed.

Lemma iadd1_ok a i d a' :
  iadd1 a i d = Ok a' → (i < length a)%nat ∧ a' = upd1 a i d.
Proof.
  unfold iadd1. intros H. apply res_bind_ok in H as (x & Hx & H).
  apply getitem_ok in Hx. apply setitem_ok in H as [Hi ->].
  split; [done|]. unfold upd1, cell1. by rewrite Hx.
Qed.

Lemma iadd2_ok a r c i j d a' :
  shape2 a r c → iadd2 a i j d = Ok a' →
  (i < r)%nat ∧ (j < c)%nat ∧ a' = upd2 a i j d.
Proof.
  intros [Hl Hall]. unfold iadd2. intros H.
  apply res_bind_ok in H as (row & Hrow & H). apply getitem_ok in Hrow.
  apply res_bind_ok in H as (row' & Hrow' & H).
  apply iadd1_ok in Hrow' as [Hj ->]. apply setitem_ok in H as [Hi ->].
  pose proof (Forall_lookup_1 _ _ _ _ Hall Hrow) as Hlen. simpl in Hlen.
  split; [lia|]. split; [lia|]. unfold upd2. by rewrite Hrow.
Qed.

Lemma zeros1_ok n a : zeros1 n = Ok a → 0 ≤ n ∧ a = replicate (Z.to_nat n) 0.
Proof.
  unfold zeros1. destruct (Z.ltb_spec n 0); [done|]. by intros [= <-].
Qed.

Lemma zeros2_ok n m a :
  zeros2 n m = Ok a →
  0 ≤ n ∧ 0 ≤ m ∧ a = replicate (Z.to_nat n) (replicate (Z.to_nat m) 0).
Proof.
  unfold zeros2. destruct (Z.ltb_spec n 0), (Z.ltb_spec m 0); try done.
  simpl. by intros [= <-].
Qed.

Lemma read_word_statistics_shape voc size ids corpus wcs wws :
  _read_word_statistics voc size ids corpus = Ok (wcs, wws) →
  length wcs = size ∧ shape2 wws size size.
Proof.
  unfold _read_word_statistics. intros H.
  apply res_bind_ok in H as (wcs0 & H0 & H). apply zeros1_ok in H0 as [_ ->].
  apply res_bind_ok in H as (wws0 & H0 & H).
  apply zeros2_ok in H0 as (_ & _ & ->). rewrite Nat2Z.id in H.
  apply (for_res_ok _ _ _ _
           (λ _ st, length st.1 = size ∧ shape2 st.2 size size)) in H;
    [done| |].
  - simpl. split; [by rewrite length_replicate|apply shape2_replicate].
  - clear H. intros _ line _ [a b] [a' b'] _ [Ha Hb] H. simpl in *.
    apply res_bind_ok in H as (sentence & _ & H).
    apply res_bind_ok in H as (a1 & H1 & H).
    apply res_bind_ok in H as (b1 & H2 & H). injection H as <- <-.
    split.
    + apply (for_res_ok _ _ _ _ (λ _ x, length x = size)) in H1; [done..|].
      intros _ y _ s s1 _ Hs Hy. apply iadd1_ok in Hy as [_ ->].
      by rewrite length_upd1.
    + apply (for_res_ok _ _ _ _ (λ _ x, shape2 x size size)) in H2; [done..|].
      intros _ y _ s s1 _ Hs Hy.
      apply (iadd2_ok _ size size) in Hy as (_ & _ & ->); [|done].
      by apply shape2_upd2.
Qed.
Lemma dict_zip_range_lookup keys n k i :
  dict_zip_range keys n !! k = Some i → keys !! i = Some k ∧ (i < n)%nat.
Proof.
  unfold dict_zip_range.
  assert (∀ (l : list (string * nat)) (d : gmap string nat),
            foldl (λ d kv, <[kv.1 := kv.2]> d) d l !! k = Some i →
            (k, i) ∈ l ∨ d !! k = Some i) as Hfold.
  { induction l as [|[k' i'] l IH]; intros d H; simpl in *; [by right|].
    apply IH in H as [H|H]; [left; by right|].
    destruct (decide (k' = k)) as [->|Hne].
    - rewrite lookup_insert_eq in H. injection H as ->. left. by left.
    - rewrite lookup_insert_ne in H by done. by right. }
  intros H. apply Hfold in H as [H|H]; [|by rewrite lookup_empty in H].
  apply list_elem_of_lookup in H as [j Hj].
  apply lookup_zip_with_Some in Hj as (k' & i' & [= <- <-] & Hk & Hi).
  apply lookup_seq in Hi as [-> Hlt]. done.
Qed.

Lemma dict_zip_range_inj keys n k1 k2 i :
  dict_zip_range keys n !! k1 = Some i →
  dict_zip_range keys n !! k2 = Some i → k1 = k2.
Proof.
  intros H1 H2. apply dict_zip_range_lookup in H1 as [H1 _].
  apply dict_zip_range_lookup in H2 as [H2 _]. congruence.
Qed.

Lemma dict_get_ok d k i : dict_get d k = Ok i → d !! k = Some i.
Proof. unfold dict_get. by destruct (d !! k); intros [= ->]. Qed.

Lemma insert_by_count_perm x l : insert_by_count x l ≡ₚ x :: l.
Proof.
  induction l as [|y l IH]; simpl; [done|].
  case_match; [done|]. rewrite IH. apply Permutation_swap.
Qed.

Lemma sorted_by_count_perm l : sorted_by_count l ≡ₚ l.
Proof.
  induction l as [|x l IH]; simpl; [done|].
  rewrite insert_by_count_perm. by rewrite IH.
Qed.

Lemma elem_of_enumerate_2 {A} (l : list A) i x :
  l !! i = Some x → (i, x) ∈ enumerate l.
Proof.
  intros H. apply list_elem_of_lookup. exists i.
  unfold enumerate. by rewrite list_lookup_imap, H.
Qed.

(** The invariant of [_freq_init_classes]. *)
Definition init_inv (V Cn : nat) (s : init_state) : Prop :=
  length (i_word_to_class s) = V
  ∧ length (i_class_to_words s) = Cn
  ∧ inverse_maps (i_word_to_class s) (i_class_to_words s)
  ∧ ∀ w c, i_word_to_class s !! w = Some (Some c) → (c < Cn)%nat.

Lemma assign_class_inv V Cn w2c c2w cid w c w2c' c2w' cid' :
  init_inv V Cn (mkInit w2c c2w cid) → w2c !! w = Some None →
  setitem w2c w (Some c) = Ok w2c' → set_add c2w c w = Ok c2w' →
  init_inv V Cn (mkInit w2c' c2w' cid').
Proof.
  intros (Hl1 & Hl2 & Hinv & Hrange) Hnone Hset Hadd. simpl in *.
  apply setitem_ok in Hset as [Hw ->].
  unfold set_add in Hadd. apply res_bind_ok in Hadd as (s & Hs & Hadd).
  apply getitem_ok in Hs. apply setitem_ok in Hadd as [Hc ->].
  split_and!; simpl.
  - by rewrite length_insert.
  - by rewrite length_insert.
  - intros c' s' Hs' x.
    destruct (decide (c' = c)) as [->|Hne].
    + rewrite list_lookup_insert_eq in Hs' by done. injection Hs' as <-.
      destruct (decide (x = w)) as [->|Hx].
      * rewrite list_lookup_insert_eq by done. set_solver.
      * rewrite list_lookup_insert_ne by done.
        rewrite <- (Hinv c s Hs x). set_solver.
    + rewrite list_lookup_insert_ne in Hs' by done.
      rewrite (Hinv c' s' Hs' x).
      destruct (decide (x = w)) as [->|Hx].
      * rewrite list_lookup_insert_eq by done. rewrite Hnone. naive_solver.
      * by rewrite list_lookup_insert_ne by done.
  - intros x c'. destruct (decide (x = w)) as [->|Hx].
    + rewrite list_lookup_insert_eq by done. intros [= <-]. lia.
    + rewrite list_lookup_insert_ne by done. apply Hrange.
Qed.

Lemma assign_reserved_inv V Cn ids key c s s' :
  init_inv V Cn s →
  (∀ w, ids !! key = Some w → i_word_to_class s !! w = Some None) →
  assign_reserved ids key c s = Ok s' →
  ∃ w, ids !! key = Some w
    ∧ init_inv V Cn s'
    ∧ i_word_to_class s' = <[w := Some c]> (i_word_to_class s)
    ∧ i_class_id s' = i_class_id s.
Proof.
  intros Hinv Hnone H. unfold assign_reserved in H.
  apply res_bind_ok in H as (w & Hw & H). apply dict_get_ok in Hw.
  apply res_bind_ok in H as (w2c' & Hset & H).
  apply res_bind_ok in H as (w' & Hw' & H). apply dict_get_ok in Hw'.
  assert (w' = w) as -> by congruence.
  apply res_bind_ok in H as (c2w' & Hadd & H). injection H as <-.
  exists w. split; [done|]. destruct s as [w2c c2w cid]. simpl in *.
  split; [by eapply assign_class_inv; eauto|].
  apply setitem_ok in Hset as [_ ->]. done.
Qed.

Lemma freq_init_step_inv V Cn ncls word_id s s' :
  init_inv V Cn s → freq_init_step ncls word_id s = Ok s' →
  init_inv V Cn s'
  ∧ (∃ c, i_word_to_class s' !! word_id = Some (Some c))
  ∧ (∀ w c, i_word_to_class s !! w = Some (Some c) →
            i_word_to_class s' !! w = Some (Some c)).
Proof.
  intros Hinv H. unfold freq_init_step in H.
  apply res_bind_ok in H as (cur & Hcur & H). apply getitem_ok in Hcur.
  destruct cur as [c|].
  - injection H as <-. eauto.
  - apply res_bind_ok in H as (w2c' & Hset & H).
    apply res_bind_ok in H as (c2w' & Hadd & H).
    apply res_bind_ok in H as (cid & _ & H). injection H as <-.
    destruct s as [w2c c2w cid0]. simpl in *.
    split; [by eapply assign_class_inv; eauto|].
    apply setitem_ok in Hset as [Hlt ->]. simpl. split.
    + exists cid0. by rewrite list_lookup_insert_eq.
    + intros w c Hw. destruct (decide (w = word_id)) as [->|Hne].
      * congruence.
      * by rewrite list_lookup_insert_ne.
Qed.
Lemma freq_init_classes_ok keys nc size wcs ncls w2c c2w :
  length wcs = size →
  _freq_init_classes nc size (dict_zip_range keys size) wcs
    = Ok (ncls, w2c, c2w) →
  ncls = nc + 3
  ∧ length w2c = size ∧ length c2w = Z.to_nat ncls
  ∧ inverse_maps w2c c2w ∧ classes_ok (Z.to_nat ncls) w2c.
Proof.
  intros Hwcs H. unfold _freq_init_classes in H.
  set (ids := dict_zip_range keys size) in *.
  set (Cn := Z.to_nat (nc + 3)) in *.
  assert (init_inv size Cn (mkInit (replicate size None) (replicate Cn ∅) 3))
    as H0.
  { split_and!; simpl; try by rewrite length_replicate.
    - intros c s Hs w. apply lookup_replicate in Hs as [-> _].
      split; [set_solver|]. intros Hw. by apply lookup_replicate in Hw as [? _].
    - intros w c Hw. by apply lookup_replicate in Hw as [? _]. }
  apply res_bind_ok in H as (s1 & H1 & H).
  apply (assign_reserved_inv size Cn) in H1
    as (w1 & Hw1 & I1 & E1 & _); [|done|]; simpl in *.
  2:{ intros w Hw. apply dict_zip_range_lookup in Hw as [_ Hw].
      by apply lookup_replicate_2. }
  apply res_bind_ok in H as (s2 & H2 & H).
  apply (assign_reserved_inv size Cn) in H2
    as (w2 & Hw2 & I2 & E2 & _); [|done|].
  2:{ intros w Hw. assert (w ≠ w1) as Hne.
      { intros ->. by pose proof (dict_zip_range_inj _ _ _ _ _ Hw Hw1). }
      rewrite E1, list_lookup_insert_ne by done.
      apply dict_zip_range_lookup in Hw as [_ Hw].
      by apply lookup_replicate_2. }
  apply res_bind_ok in H as (s3 & H3 & H).
  apply (assign_reserved_inv size Cn) in H3
    as (w3 & Hw3 & I3 & E3 & _); [|done|].
  2:{ intros w Hw. assert (w ≠ w1) as Hne1.
      { intros ->. by pose proof (dict_zip_range_inj _ _ _ _ _ Hw Hw1). }
      assert (w ≠ w2) as Hne2.
      { intros ->. by pose proof (dict_zip_range_inj _ _ _ _ _ Hw Hw2). }
      rewrite E2, list_lookup_insert_ne by done.
      rewrite E1, list_lookup_insert_ne by done.
      apply dict_zip_range_lookup in Hw as [_ Hw].
      by apply lookup_replicate_2. }
  apply res_bind_ok in H as (s4 & H4 & H). injection H as <- <- <-.
  apply (for_res_ok _ _ _ _
    (λ pre s, init_inv size Cn s
       ∧ ∀ x, x ∈ pre → ∃ c, i_word_to_class s !! x.1 = Some (Some c)))
    in H4.
  - destruct H4 as ((Hl1 & Hl2 & Hinv & Hrange) & Hall).
    split_and!; try done.
    apply Forall_lookup_2. intros i oc Hoc.
    assert (i < length wcs)%nat as Hi
      by (apply lookup_lt_Some in Hoc; lia).
    destruct (lookup_lt_is_Some_2 wcs i Hi) as [n Hn].
    destruct (Hall (i, n)) as [c Hc].
    { rewrite sorted_by_count_perm. by apply elem_of_enumerate_2. }
    simpl in Hc. rewrite Hoc in Hc. injection Hc as ->.
    exists c. split; [done|]. by eapply Hrange.
  - split; [done|]. intros x Hx. by apply elem_of_nil in Hx.
  - intros pre x post s s' _ [Hinv Hall] Hstep.
    apply (freq_init_step_inv size Cn) in Hstep as (Hinv' & Hx & Hmono);
      [|done].
    split; [done|]. intros y Hy. apply elem_of_app in Hy as [Hy|Hy].
    + destruct (Hall y Hy) as [c Hc]. exists c. by apply Hmono.
    + apply list_elem_of_singleton in Hy as ->. done.
Qed.

Lemma tables_agree_int64 C V wcs wws w2c cls cc cw wc :
  tables_agree C V wcs wws w2c cls cc cw wc →
  Forall is_int64 cls ∧ Forall (Forall is_int64) cc
  ∧ Forall (Forall is_int64) cw ∧ Forall (Forall is_int64) wc.
Proof.
  intros [Hl Hcc Hcw Hwc Ecls Ecc Ecw Ewc]. split_and!.
  - apply int64_cells1. intros i Hi. rewrite Ecls by lia.
    apply wrap64_is_int64.
  - apply (int64_cells2 _ C C); [done|]. intros i j Hi Hj.
    rewrite Ecc by done. apply wrap64_is_int64.
  - apply (int64_cells2 _ C V); [done|]. intros i j Hi Hj.
    rewrite Ecw by done. apply wrap64_is_int64.
  - apply (int64_cells2 _ V C); [done|]. intros i j Hi Hj.
    rewrite Ewc by done. apply wrap64_is_int64.
Qed.

(** Whatever the iteration order of the vocabulary, a store that
    [__init__] returns is well formed and holds the aggregated tables. *)
Lemma init_wf set_iter nc corpus vf o :
  __init__ set_iter nc corpus vf = Ok o → wf o ∧ aggregated o.
Proof.
  unfold __init__. intros H.
  apply res_bind_ok in H as ([wcs wws] & Hread & H).
  apply res_bind_ok in H as ([[ncls w2c] c2w] & Hinit & H).
  apply res_bind_ok in H as ([[[cls cc] cw] wc] & Hstat & H).
  injection H as <-. simpl in *.
  apply read_word_statistics_shape in Hread as [Hwcs Hwws].
  apply freq_init_classes_ok in Hinit; [|done].
  destruct Hinit as (-> & Hl1 & Hl2 & Hinv & Hok).
  assert (0 ≤ nc + 3) as Hn.
  { unfold _compute_class_statistics in Hstat.
    apply res_bind_ok in Hstat as (? & Hz & _).
    by apply zeros1_ok in Hz as [? _]. }
  destruct (compute_spec (nc + 3) _ wcs wws w2c Hn Hwcs Hwws Hl1 Hok)
    as (cls' & cc' & cw' & wc' & Hc & Hag).
  rewrite Hc in Hstat. injection Hstat as -> -> -> ->.
  destruct (tables_agree_int64 _ _ _ _ _ _ _ _ _ Hag) as (?&?&?&?).
  split; [|exact Hc].
  destruct Hag. by split.
Qed.
(** ** [_evaluate_move] *)

Lemma bind_ok {A B} (m : M A) (k : A → M B) o a o' :
  m o = (Ok a, o') → bindM m k o = k a o'.
Proof. intros H. unfold bindM. by rewrite H. Qed.

Lemma bind_raise {A B} (m : M A) (k : A → M B) o e o' :
  m o = (Raise e, o') → bindM m k o = (Raise e, o').
Proof. intros H. unfold bindM. by rewrite H. Qed.

Lemma bind_read_ok {A B} (f : Optimizer → res A) (k : A → M B) o v :
  f o = Ok v → bindM (read f) k o = k v o.
Proof. intros H. apply bind_ok. unfold read. by rewrite H. Qed.

Lemma class_terms_ok np_log o old new w :
  wf o → (old < nclasses o)%nat → (new < nclasses o)%nat →
  (w < nwords o)%nat →
  class_terms np_log old new w o =
    (Ok (PrimFloat.sub
           (PrimFloat.add
              (PrimFloat.sub
                 (two_count_log np_log (cell1 (class_counts o) old))
                 (two_count_log np_log
                    (i64_sub (cell1 (class_counts o) old)
                             (cell1 (word_counts o) w))))
              (two_count_log np_log (cell1 (class_counts o) new)))
           (two_count_log np_log
              (i64_add (cell1 (class_counts o) new)
                       (cell1 (word_counts o) w)))), o).
Proof.
  intros Hwf Hold Hnew Hw. unfold class_terms.
  rewrite (bind_read_ok _ _ o (cell1 (class_counts o) old))
    by (apply getitem_cell1; by rewrite (wf_class_counts o Hwf)).
  rewrite (bind_read_ok _ _ o (cell1 (word_counts o) w))
    by (apply getitem_cell1; by rewrite (wf_word_counts o Hwf)).
  cbv zeta.
  rewrite (bind_read_ok _ _ o (cell1 (class_counts o) new))
    by (apply getitem_cell1; by rewrite (wf_class_counts o Hwf)).
  rewrite (bind_read_ok _ _ o (cell1 (word_counts o) w))
    by (apply getitem_cell1; by rewrite (wf_word_counts o Hwf)).
  done.
Qed.

(** ** Not-a-number in the class-count terms *)

Definition is_NaN (x : float) : Prop := Prim2SF x = S754_nan.

Lemma is_NaN_is_nan x : is_NaN x → PrimFloat.is_nan x = true.
Proof.
  unfold is_NaN, PrimFloat.is_nan. intros H.
  rewrite FloatAxioms.eqb_spec, H. reflexivity.
Qed.

Lemma is_NaN_sub_l x y : is_NaN x → is_NaN (PrimFloat.sub x y).
Proof. unfold is_NaN. intros H. rewrite sub_spec, H. reflexivity. Qed.

Lemma is_NaN_sub_r x y : is_NaN y → is_NaN (PrimFloat.sub x y).
Proof.
  unfold is_NaN. intros H. rewrite sub_spec, H.
  by destruct (Prim2SF x).
Qed.

Lemma is_NaN_add_l x y : is_NaN x → is_NaN (PrimFloat.add x y).
Proof. unfold is_NaN. intros H. rewrite add_spec, H. reflexivity. Qed.

Lemma two_count_log_zero np_log :
  np_log (of_int64 0) = neg_infinity → is_NaN (two_count_log np_log 0).
Proof.
  intros Hlog. unfold two_count_log. rewrite Hlog. vm_compute. reflexivity.
Qed.

(** ** Construction returns a store *)

Definition reserved : gset string := {["<s>"; "</s>"; "<UNK>"]}.

Lemma read_vocabulary_reserved corpus vf : reserved ⊆ read_vocabulary corpus vf.
Proof.
  unfold read_vocabulary. fold reserved. generalize reserved as base.
  destruct vf as [lines|].
  - induction corpus as [|line corpus IH]; intros base; simpl; [done|].
    etrans; [|apply IH].
    generalize (split line) as ws. intros ws. revert base.
    induction ws as [|word ws IHw]; intros base; simpl; [done|].
    etrans; [|apply IHw]. case_decide; set_solver.
  - induction corpus as [|line corpus IH]; intros base; simpl; [done|].
    etrans; [|apply IH]. set_solver.
Qed.

Lemma dict_zip_range_total keys k :
  k ∈ keys → is_Some (dict_zip_range keys (length keys) !! k).
Proof.
  intros Hk. unfold dict_zip_range.
  assert (∀ (l : list (string * nat)) (d : gmap string nat),
            (∃ i, (k, i) ∈ l) ∨ is_Some (d !! k) →
            is_Some (foldl (λ d kv, <[kv.1 := kv.2]> d) d l !! k)) as Hfold.
  { induction l as [|[k' i'] l IH]; intros d H; simpl.
    - destruct H as [[i Hi]|H]; [by apply elem_of_nil in Hi|done].
    - apply IH. destruct H as [[i Hi]|H].
      + apply elem_of_cons in Hi as [[= <- <-]|Hi]; [|left; eauto].
        right. rewrite lookup_insert_eq. eauto.
      + right. destruct (decide (k' = k)) as [->|Hne].
        * rewrite lookup_insert_eq. eauto.
        * by rewrite lookup_insert_ne. }
  apply Hfold. left.
  apply list_elem_of_lookup in Hk as [j Hj]. exists j.
  apply list_elem_of_lookup. exists j.
  apply lookup_zip_with_Some. exists k, j. split; [done|]. split; [done|].
  apply lookup_seq. split; [done|]. by apply lookup_lt_Some in Hj.
Qed.

(** The word ids when the vocabulary is iterated once each. *)
Lemma word_ids_total (set_iter : gset string → list string) (voc : gset string) k :
  set_iter voc ≡ₚ elements voc → k ∈ voc →
  ∃ i, dict_zip_range (set_iter voc) (size voc) !! k = Some i
       ∧ (i < size voc)%nat.
Proof.
  intros Hperm Hk.
  assert (size voc = length (set_iter voc)) as ->
    by (by rewrite Hperm).
  destruct (dict_zip_range_total (set_iter voc) k) as [i Hi].
  { rewrite Hperm. by apply elem_of_elements. }
  exists i. split; [done|]. by apply dict_zip_range_lookup in Hi as [_ ?].
Qed.

Lemma map_res_total {A B} (f : A → res B) (P : B → Prop) (l : list A) :
  (∀ x, x ∈ l → ∃ y, f x = Ok y ∧ P y) →
  ∃ ys, map_res f l = Ok ys ∧ Forall P ys ∧ length ys = length l.
Proof.
  induction l as [|x l IH]; intros H; simpl.
  - by exists [].
  - destruct (H x) as (y & -> & Hy); [by left|].
    destruct IH as (ys & -> & Hys & Hlen); [intros; apply H; by right|].
    simpl. exists (y :: ys). split; [done|]. split; [by constructor|].
    simpl. by rewrite Hlen.
Qed.

Lemma sentence_ids_total set_iter voc line :
  set_iter voc ≡ₚ elements voc → reserved ⊆ voc →
  ∃ sentence,
    sentence_ids voc (dict_zip_range (set_iter voc) (size voc)) line
      = Ok sentence
    ∧ Forall (λ i, (i < size voc)%nat) sentence
    ∧ length sentence = (length (split line) + 2)%nat.
Proof.
  intros Hperm Hres. set (ids := dict_zip_range (set_iter voc) (size voc)).
  assert (∀ k, k ∈ voc → ∃ i, dict_get ids k = Ok i ∧ (i < size voc)%nat)
    as Hget.
  { intros k Hk. destruct (word_ids_total set_iter voc k Hperm Hk)
      as (i & Hi & Hlt).
    exists i. unfold dict_get. fold ids in Hi. by rewrite Hi. }
  unfold sentence_ids.
  destruct (Hget "<s>") as (bos & -> & Hbos); [set_solver|].
  destruct (Hget "</s>") as (eos & Heos & Heos'); [set_solver|].
  destruct (Hget "<UNK>") as (unk & Hunk & Hunk'); [set_solver|].
  simpl.
  destruct (map_res_total
    (λ word, if decide (word ∈ voc) then dict_get ids word
             else dict_get ids "<UNK>")
    (λ i, (i < size voc)%nat) (split line)) as (ws & -> & Hws & Hlen).
  { intros word _. case_decide; [by apply Hget|eauto]. }
  simpl. rewrite Heos. simpl. eexists. split; [done|]. split.
  - constructor; [done|]. apply Forall_app. split; [done|]. by constructor.
  - simpl. rewrite length_app, Hlen. simpl. lia.
Qed.

Lemma elem_of_drop_1 {A} (x : A) n l : x ∈ drop n l → x ∈ l.
Proof.
  intros H. apply list_elem_of_lookup in H as [i Hi].
  rewrite lookup_drop in Hi. apply list_elem_of_lookup. eauto.
Qed.

Lemma bigrams_range sentence n :
  Forall (λ i, (i < n)%nat) sentence →
  Forall (λ lr, (lr.1 < n)%nat ∧ (lr.2 < n)%nat) (bigrams sentence).
Proof.
  intros Hs. rewrite Forall_forall in Hs. apply Forall_forall.
  intros [l r] Hlr. unfold bigrams in Hlr. simpl. split.
  - apply elem_of_zip_l in Hlr. apply elem_of_take in Hlr as (i & Hi & _).
    apply Hs. apply list_elem_of_lookup. eauto.
  - apply elem_of_zip_r in Hlr. apply elem_of_drop_1 in Hlr. by apply Hs.
Qed.

Lemma length_bigrams sentence :
  length (bigrams sentence) = (length sentence - 1)%nat.
Proof.
  unfold bigrams. rewrite length_zip_with, length_take, length_drop. lia.
Qed.

Lemma zeros1_nat n : zeros1 (Z.of_nat n) = Ok (replicate n 0).
Proof.
  unfold zeros1. destruct (Z.ltb_spec (Z.of_nat n) 0); [lia|].
  by rewrite Nat2Z.id.
Qed.

Lemma zeros2_nat n m :
  zeros2 (Z.of_nat n) (Z.of_nat m) = Ok (replicate n (replicate m 0)).
Proof.
  unfold zeros2.
  destruct (Z.ltb_spec (Z.of_nat n) 0), (Z.ltb_spec (Z.of_nat m) 0); try lia.
  by rewrite !Nat2Z.id.
Qed.

Lemma count_loop_total wcs sentence :
  Forall (λ i, (i < length wcs)%nat) sentence →
  ∃ wcs', for_res sentence (λ word_id wcs, iadd1 wcs word_id 1) wcs = Ok wcs'
          ∧ length wcs' = length wcs.
Proof.
  revert wcs. induction sentence as [|i sentence IH]; intros wcs Hs; simpl.
  - by exists wcs.
  - apply Forall_cons in Hs as [Hi Hs]. rewrite iadd1_lt by done. simpl.
    destruct (IH (upd1 wcs i 1)) as (wcs' & -> & Hlen).
    { by rewrite length_upd1. }
    exists wcs'. split; [done|]. by rewrite Hlen, length_upd1.
Qed.

Lemma bigram_loop_total wws n bs :
  shape2 wws n n →
  Forall (λ lr : nat * nat, (lr.1 < n)%nat ∧ (lr.2 < n)%nat) bs →
  ∃ wws', for_res bs (λ lr wws, iadd2 wws lr.1 lr.2 1) wws = Ok wws'
          ∧ shape2 wws' n n.
Proof.
  revert wws. induction bs as [|lr bs IH]; intros wws Hshape Hs; simpl.
  - by exists wws.
  - apply Forall_cons in Hs as [[Hl Hr] Hs].
    rewrite (iadd2_lt wws n n) by done. simpl.
    apply IH; [by apply shape2_upd2|done].
Qed.

Lemma read_word_statistics_total set_iter voc corpus :
  set_iter voc ≡ₚ elements voc → reserved ⊆ voc →
  ∃ wcs wws,
    _read_word_statistics voc (size voc)
      (dict_zip_range (set_iter voc) (size voc)) corpus = Ok (wcs, wws).
Proof.
  intros Hperm Hres. unfold _read_word_statistics.
  rewrite zeros1_nat, zeros2_nat. simpl.
  edestruct (for_res_inv corpus
    (λ line st,
       sentence <~ sentence_ids voc
                     (dict_zip_range (set_iter voc) (size voc)) line;
       wcs <~ for_res sentence (λ word_id wcs, iadd1 wcs word_id 1) st.1;
       wws <~ for_res (bigrams sentence)
                (λ lr wws, iadd2 wws lr.1 lr.2 1) st.2;
       Ok (wcs, wws))
    (replicate (size voc) 0, replicate (size voc) (replicate (size voc) 0))
    (λ _ st, length st.1 = size voc ∧ shape2 st.2 (size voc) (size voc)))
    as ([wcs wws] & Hrun & _).
  - simpl. split; [by rewrite length_replicate|apply shape2_replicate].
  - intros _ line _ [wcs wws] _ [Hl Hs]. simpl in *.
    destruct (sentence_ids_total set_iter voc line Hperm Hres)
      as (sentence & -> & Hrange & _).
    simpl.
    destruct (count_loop_total wcs sentence) as (wcs' & -> & Hl');
      [by rewrite Hl|].
    simpl.
    destruct (bigram_loop_total wws (size voc) (bigrams sentence) Hs)
      as (wws' & -> & Hs'); [by apply bigrams_range|].
    simpl. eexists. split; [done|]. simpl. split; [lia|done].
  - by exists wcs, wws.
Qed.

Lemma assign_reserved_total V Cn ids key c s w :
  init_inv V Cn s → ids !! key = Some w → (w < V)%nat → (c < Cn)%nat →
  ∃ s', assign_reserved ids key c s = Ok s'.
Proof.
  intros (Hl1 & Hl2 & _) Hw HwV Hc. unfold assign_reserved, dict_get.
  rewrite Hw. simpl. rewrite setitem_lt by lia. simpl.
  unfold set_add.
  destruct (getitem_lt (i_class_to_words s) c) as (x & _ & ->); [lia|].
  simpl. rewrite setitem_lt by lia. simpl. eauto.
Qed.

Lemma assign_reserved_raises V Cn ids key c s w :
  init_inv V Cn s → ids !! key = Some w → (w < V)%nat → (Cn ≤ c)%nat →
  assign_reserved ids key c s = Raise IndexError.
Proof.
  intros (Hl1 & Hl2 & _) Hw HwV Hc. unfold assign_reserved, dict_get.
  rewrite Hw. simpl. rewrite setitem_lt by lia. simpl.
  unfold set_add, getitem. rewrite lookup_ge_None_2 by lia. done.
Qed.

Lemma next_class_id_le ncls c :
  0 < ncls → ∃ c', next_class_id ncls c = Ok c' ∧ (c' ≤ 3)%nat.
Proof.
  intros H. unfold next_class_id. rewrite decide_False by lia.
  eexists. split; [done|].
  pose proof (Z.mod_pos_bound (Z.of_nat c + 1) ncls H). lia.
Qed.

Lemma freq_init_step_total V Cn ncls word_id s :
  init_inv V Cn s → (word_id < V)%nat → (i_class_id s < Cn)%nat → 0 < ncls →
  ∃ s', freq_init_step ncls word_id s = Ok s'
        ∧ (i_class_id s' ≤ 3 ∨ i_class_id s' = i_class_id s)%nat.
Proof.
  intros (Hl1 & Hl2 & _) Hw Hc Hn. unfold freq_init_step.
  destruct (getitem_lt (i_word_to_class s) word_id) as (cur & _ & ->); [lia|].
  simpl. destruct cur as [c|]; [eauto|].
  rewrite setitem_lt by lia. simpl. unfold set_add.
  destruct (getitem_lt (i_class_to_words s) (i_class_id s)) as (x & _ & ->);
    [lia|].
  simpl. rewrite setitem_lt by lia. simpl.
  destruct (next_class_id_le ncls (i_class_id s) Hn) as (c' & -> & Hc').
  simpl. eexists. split; [done|]. simpl. by left.
Qed.

Lemma sorted_enumerate_range (wcs : list Z) x :
  x ∈ sorted_by_count (enumerate wcs) → (x.1 < length wcs)%nat.
Proof.
  rewrite sorted_by_count_perm. intros Hx. apply elem_of_enumerate in Hx.
  by apply lookup_lt_Some in Hx.
Qed.

(** The state of [_freq_init_classes] after the three reserved
    assignments (lines 78-83). *)
Lemma reserved_assigned nc size ids w1 w2 w3 :
  ids !! "<s>" = Some w1 → ids !! "</s>" = Some w2 → ids !! "<UNK>" = Some w3 →
  (w1 < size)%nat → (w2 < size)%nat → (w3 < size)%nat →
  w1 ≠ w2 → w1 ≠ w3 → w2 ≠ w3 → 0 ≤ nc →
  ∃ s,
    (s1 <~ assign_reserved ids "<s>" 0
             (mkInit (replicate size None) (replicate (Z.to_nat (nc + 3)) ∅) 3);
     s2 <~ assign_reserved ids "</s>" 1 s1;
     assign_reserved ids "<UNK>" 2 s2) = Ok s
    ∧ init_inv size (Z.to_nat (nc + 3)) s
    ∧ i_class_id s = 3%nat
    ∧ i_word_to_class s
      = <[w3 := Some 2%nat]> (<[w2 := Some 1%nat]>
          (<[w1 := Some 0%nat]> (replicate size None))).
Proof.
  intros H1 H2 H3 Hw1 Hw2 Hw3 H12 H13 H23 Hnc.
  set (Cn := Z.to_nat (nc + 3)).
  assert (3 ≤ Cn)%nat as HCn by lia.
  assert (init_inv size Cn (mkInit (replicate size None) (replicate Cn ∅) 3))
    as I0.
  { split_and!; simpl; try by rewrite length_replicate.
    - intros c s Hs w. apply lookup_replicate in Hs as [-> _].
      split; [set_solver|]. intros Hw. by apply lookup_replicate in Hw as [? _].
    - intros w c Hw. by apply lookup_replicate in Hw as [? _]. }
  destruct (assign_reserved_total size Cn ids "<s>" 0 _ w1 I0 H1 Hw1)
    as [s1 Hs1]; [lia|].
  rewrite Hs1. simpl.
  apply (assign_reserved_inv size Cn) in Hs1 as (w & Hw & I1 & E1 & C1);
    [|done|].
  2:{ intros w' Hw'. simpl. assert (w' = w1) as -> by congruence.
      by apply lookup_replicate_2. }
  assert (w = w1) as -> by congruence. simpl in E1, C1.
  destruct (assign_reserved_total size Cn ids "</s>" 1 s1 w2 I1 H2 Hw2)
    as [s2 Hs2]; [lia|].
  rewrite Hs2. simpl.
  apply (assign_reserved_inv size Cn) in Hs2 as (w & Hw' & I2 & E2 & C2);
    [|done|].
  2:{ intros w' Hw''. assert (w' = w2) as -> by congruence.
      rewrite E1, list_lookup_insert_ne by done. by apply lookup_replicate_2. }
  assert (w = w2) as -> by congruence.
  destruct (assign_reserved_total size Cn ids "<UNK>" 2 s2 w3 I2 H3 Hw3)
    as [s3 Hs3]; [lia|].
  rewrite Hs3. exists s3. split; [done|].
  apply (assign_reserved_inv size Cn) in Hs3 as (w & Hw'' & I3 & E3 & C3);
    [|done|].
  2:{ intros w' Hw'''. assert (w' = w3) as -> by congruence.
      rewrite E2, list_lookup_insert_ne by done.
      rewrite E1, list_lookup_insert_ne by done. by apply lookup_replicate_2. }
  assert (w = w3) as -> by congruence.
  split; [done|]. split; [congruence|]. by rewrite E3, E2, E1.
Qed.

Lemma freq_init_loop_total V Cn ncls xs s :
  init_inv V Cn s → (4 ≤ Cn)%nat → 0 < ncls → (i_class_id s ≤ 3)%nat →
  Forall (λ x : nat * Z, (x.1 < V)%nat) xs →
  ∃ s', for_res xs (λ x s, freq_init_step ncls x.1 s) s = Ok s'.
Proof.
  intros Hinv HCn Hn. revert s Hinv.
  induction xs as [|x xs IH]; intros s Hinv Hc Hxs; simpl; [eauto|].
  apply Forall_cons in Hxs as [Hx Hxs].
  destruct (freq_init_step_total V Cn ncls x.1 s Hinv Hx) as (s' & Hs' & Hc');
    [lia|done|].
  rewrite Hs'. simpl.
  apply IH; [|lia|done].
  by apply (freq_init_step_inv V Cn) in Hs' as (? & _).
Qed.

Lemma reserved_ids set_iter voc :
  set_iter voc ≡ₚ elements voc → reserved ⊆ voc →
  let ids := dict_zip_range (set_iter voc) (size voc) in
  ∃ w1 w2 w3,
    ids !! "<s>" = Some w1 ∧ ids !! "</s>" = Some w2 ∧ ids !! "<UNK>" = Some w3
    ∧ (w1 < size voc)%nat ∧ (w2 < size voc)%nat ∧ (w3 < size voc)%nat
    ∧ w1 ≠ w2 ∧ w1 ≠ w3 ∧ w2 ≠ w3.
Proof.
  intros Hperm Hres ids.
  destruct (word_ids_total set_iter voc "<s>" Hperm) as (w1 & H1 & L1);
    [set_solver|].
  destruct (word_ids_total set_iter voc "</s>" Hperm) as (w2 & H2 & L2);
    [set_solver|].
  destruct (word_ids_total set_iter voc "<UNK>" Hperm) as (w3 & H3 & L3);
    [set_solver|].
  exists w1, w2, w3. split_and!; try done.
  - intros ->. by pose proof (dict_zip_range_inj _ _ _ _ _ H1 H2).
  - intros ->. by pose proof (dict_zip_range_inj _ _ _ _ _ H1 H3).
  - intros ->. by pose proof (dict_zip_range_inj _ _ _ _ _ H2 H3).
Qed.

Lemma freq_init_classes_total set_iter voc nc wcs :
  set_iter voc ≡ₚ elements voc → reserved ⊆ voc → 1 ≤ nc →
  length wcs = size voc →
  ∃ r, _freq_init_classes nc (size voc)
         (dict_zip_range (set_iter voc) (size voc)) wcs = Ok r.
Proof.
  intros Hperm Hres Hnc Hwcs.
  destruct (reserved_ids set_iter voc Hperm Hres)
    as (w1 & w2 & w3 & H1 & H2 & H3 & L1 & L2 & L3 & N12 & N13 & N23).
  unfold _freq_init_classes. cbv zeta.
  destruct (reserved_assigned nc (size voc) _ w1 w2 w3 H1 H2 H3)
    as (s & Hs & Hinv & Hc & _); try done; [lia|].
  apply res_bind_ok in Hs as (s1 & -> & Hs). simpl.
  apply res_bind_ok in Hs as (s2 & -> & Hs). simpl. rewrite Hs. simpl.
  destruct (freq_init_loop_total (size voc) (Z.to_nat (nc + 3)) (nc + 3)
              (sorted_by_count (enumerate wcs)) s Hinv) as [s' ->];
    [lia|lia|lia| |simpl; eauto].
  apply Forall_forall. intros x Hx. rewrite <- Hwcs.
  by apply sorted_enumerate_range.
Qed.

(** With at least one class beyond the reserved ones, construction
    returns a store, whatever the corpus and the vocabulary file. *)
Lemma init_total set_iter nc corpus vf :
  set_iter (read_vocabulary corpus vf) ≡ₚ elements (read_vocabulary corpus vf) →
  1 ≤ nc →
  ∃ o, __init__ set_iter nc corpus vf = Ok o
       ∧ num_classes o = nc + 3
       ∧ vocabulary_size o = size (read_vocabulary corpus vf).
Proof.
  intros Hperm Hnc. unfold __init__. cbv zeta.
  set (voc := read_vocabulary corpus vf) in *.
  pose proof (read_vocabulary_reserved corpus vf) as Hres. fold voc in Hres.
  destruct (read_word_statistics_total set_iter voc corpus Hperm Hres)
    as (wcs & wws & Hread).
  rewrite Hread. simpl.
  apply read_word_statistics_shape in Hread as [Hwcs Hwws].
  destruct (freq_init_classes_total set_iter voc nc wcs Hperm Hres Hnc Hwcs)
    as ([[ncls w2c] c2w] & Hinit).
  rewrite Hinit. simpl.
  apply freq_init_classes_ok in Hinit; [|done].
  destruct Hinit as (-> & Hl1 & Hl2 & Hinv & Hok).
  destruct (compute_spec (nc + 3) _ wcs wws w2c ltac:(lia) Hwcs Hwws Hl1 Hok)
    as (cls & cc & cw & wc & -> & _).
  simpl. eauto.
Qed.

(** ** Construction with no class beyond the reserved ones *)

Lemma init_inv_initial size Cn cid :
  init_inv size Cn (mkInit (replicate size None) (replicate Cn ∅) cid).
Proof.
  split_and!; simpl; try by rewrite length_replicate.
  - intros c s Hs w. apply lookup_replicate in Hs as [-> _].
    split; [set_solver|]. intros Hw. by apply lookup_replicate in Hw as [? _].
  - intros w c Hw. by apply lookup_replicate in Hw as [? _].
Qed.

Lemma freq_init_classes_negative set_iter voc nc wcs :
  set_iter voc ≡ₚ elements voc → reserved ⊆ voc → nc < 0 →
  _freq_init_classes nc (size voc)
    (dict_zip_range (set_iter voc) (size voc)) wcs = Raise IndexError.
Proof.
  intros Hperm Hres Hnc.
  destruct (reserved_ids set_iter voc Hperm Hres)
    as (w1 & w2 & w3 & H1 & H2 & H3 & L1 & L2 & L3 & N12 & N13 & N23).
  unfold _freq_init_classes. cbv zeta.
  set (Cn := Z.to_nat (nc + 3)). set (V := size voc) in *.
  set (ids := dict_zip_range (set_iter voc) V) in *.
  pose proof (init_inv_initial V Cn 3) as I0.
  destruct (decide (Cn = 0%nat)) as [HC0|HC0].
  { by rewrite (assign_reserved_raises V Cn ids "<s>" 0 _ w1) by (done || lia). }
  destruct (assign_reserved_total V Cn ids "<s>" 0 _ w1 I0 H1 L1)
    as [s1 Hs1]; [lia|].
  rewrite Hs1. simpl.
  apply (assign_reserved_inv V Cn) in Hs1 as (w & Hw & I1 & E1 & _);
    [|done|].
  2:{ intros w' Hw'. simpl. assert (w' = w1) as -> by congruence.
      by apply lookup_replicate_2. }
  assert (w = w1) as -> by congruence. simpl in E1.
  destruct (decide (Cn = 1%nat)) as [HC1|HC1].
  { by rewrite (assign_reserved_raises V Cn ids "</s>" 1 _ w2) by (done || lia). }
  destruct (assign_reserved_total V Cn ids "</s>" 1 s1 w2 I1 H2 L2)
    as [s2 Hs2]; [lia|].
  rewrite Hs2. simpl.
  apply (assign_reserved_inv V Cn) in Hs2 as (w & Hw' & I2 & E2 & _);
    [|done|].
  2:{ intros w' Hw''. assert (w' = w2) as -> by congruence.
      rewrite E1, list_lookup_insert_ne by done. by apply lookup_replicate_2. }
  by rewrite (assign_reserved_raises V Cn ids "<UNK>" 2 _ w3) by (done || lia).
Qed.

(** A word without a class makes the loop of [_freq_init_classes] raise
    when there are only the three reserved classes. *)
Lemma freq_init_loop_raises V ncls xs s x :
  init_inv V 3 s → i_class_id s = 3%nat →
  Forall (λ y : nat * Z, (y.1 < V)%nat) xs →
  x ∈ xs → i_word_to_class s !! x.1 = Some None →
  for_res xs (λ y s, freq_init_step ncls y.1 s) s = Raise IndexError.
Proof.
  intros Hinv Hc Hxs Hx Hnone. destruct Hinv as (Hl1 & Hl2 & _).
  induction xs as [|y xs IH]; [by apply elem_of_nil in Hx|].
  apply Forall_cons in Hxs as [Hy Hxs]. simpl. unfold freq_init_step at 1.
  destruct (getitem_lt (i_word_to_class s) y.1) as (cur & Hcur & ->); [lia|].
  simpl. destruct cur as [c|].
  - simpl. apply IH; [done|].
    apply elem_of_cons in Hx as [->|Hx]; [congruence|done].
  - rewrite setitem_lt by lia. simpl. unfold set_add, getitem.
    rewrite lookup_ge_None_2 by lia. done.
Qed.

(** When every word has a class, the loop assigns nothing. *)
Lemma freq_init_loop_skips ncls (xs : list (nat * Z)) s :
  (∀ y, y ∈ xs → ∃ c, i_word_to_class s !! y.1 = Some (Some c)) →
  for_res xs (λ y s, freq_init_step ncls y.1 s) s = Ok s.
Proof.
  induction xs as [|y xs IH]; intros H; simpl; [done|].
  destruct (H y) as [c Hc]; [by left|].
  unfold freq_init_step at 1, getitem. rewrite Hc. simpl.
  apply IH. intros z Hz. apply H. by right.
Qed.

Lemma fourth_word (w1 w2 w3 : nat) :
  ∃ i, (i ≤ 3)%nat ∧ i ≠ w1 ∧ i ≠ w2 ∧ i ≠ w3.
Proof.
  destruct (decide (0%nat = w1 ∨ 0%nat = w2 ∨ 0%nat = w3)); [|exists 0%nat; lia].
  destruct (decide (1%nat = w1 ∨ 1%nat = w2 ∨ 1%nat = w3)); [|exists 1%nat; lia].
  destruct (decide (2%nat = w1 ∨ 2%nat = w2 ∨ 2%nat = w3)); [|exists 2%nat; lia].
  exists 3%nat. lia.
Qed.

Lemma freq_init_classes_zero set_iter voc wcs :
  set_iter voc ≡ₚ elements voc → reserved ⊆ voc → length wcs = size voc →
  ((3 < size voc)%nat →
     _freq_init_classes 0 (size voc)
       (dict_zip_range (set_iter voc) (size voc)) wcs = Raise IndexError)
  ∧ (size voc = 3%nat →
     ∃ r, _freq_init_classes 0 (size voc)
            (dict_zip_range (set_iter voc) (size voc)) wcs = Ok r).
Proof.
  intros Hperm Hres Hwcs.
  destruct (reserved_ids set_iter voc Hperm Hres)
    as (w1 & w2 & w3 & H1 & H2 & H3 & L1 & L2 & L3 & N12 & N13 & N23).
  unfold _freq_init_classes. cbv zeta.
  destruct (reserved_assigned 0 (size voc) _ w1 w2 w3 H1 H2 H3)
    as (s & Hs & Hinv & Hc & Ew2c); try done.
  apply res_bind_ok in Hs as (s1 & -> & Hs). simpl.
  apply res_bind_ok in Hs as (s2 & -> & Hs). simpl. rewrite Hs. simpl.
  change (Z.to_nat (0 + 3)) with 3%nat in Hinv.
  assert (Forall (λ y : nat * Z, (y.1 < size voc)%nat)
            (sorted_by_count (enumerate wcs))) as Hrange.
  { apply Forall_forall. intros x Hx. rewrite <- Hwcs.
    by apply sorted_enumerate_range. }
  split.
  - intros Hsize. destruct (fourth_word w1 w2 w3) as (i & Hi & Ni1 & Ni2 & Ni3).
    destruct (lookup_lt_is_Some_2 wcs i) as [n Hn]; [lia|].
    rewrite (freq_init_loop_raises (size voc) _ _ s (i, n)); try done.
    + rewrite sorted_by_count_perm. by apply elem_of_enumerate_2.
    + simpl. rewrite Ew2c, !list_lookup_insert_ne by done.
      apply lookup_replicate_2. lia.
  - intros Hsize. rewrite freq_init_loop_skips; [simpl; eauto|].
    intros y Hy. rewrite Forall_forall in Hrange. specialize (Hrange y Hy).
    rewrite Ew2c.
    destruct (decide (y.1 = w3)) as [->|N3];
      [rewrite list_lookup_insert_eq
         by (rewrite !length_insert, length_replicate; lia); eauto|].
    rewrite list_lookup_insert_ne by done.
    destruct (decide (y.1 = w2)) as [->|N2];
      [rewrite list_lookup_insert_eq
         by (rewrite !length_insert, length_replicate; lia); eauto|].
    rewrite list_lookup_insert_ne by done.
    destruct (decide (y.1 = w1)) as [->|N1];
      [rewrite list_lookup_insert_eq
         by (rewrite length_replicate; lia); eauto|].
    lia.
Qed.

(** The steps of [__init__] after the word statistics. *)
Lemma init_after_statistics set_iter nc corpus vf :
  set_iter (read_vocabulary corpus vf) ≡ₚ elements (read_vocabulary corpus vf) →
  let voc := read_vocabulary corpus vf in
  ∃ wcs,
    length wcs = size voc
    ∧ (∀ e, _freq_init_classes nc (size voc)
              (dict_zip_range (set_iter voc) (size voc)) wcs = Raise e →
            __init__ set_iter nc corpus vf = Raise e)
    ∧ (∀ r, _freq_init_classes nc (size voc)
              (dict_zip_range (set_iter voc) (size voc)) wcs = Ok r →
            0 ≤ nc + 3 →
            ∃ o, __init__ set_iter nc corpus vf = Ok o
                 ∧ num_classes o = nc + 3
                 ∧ vocabulary_size o = size voc).
Proof.
  intros Hperm voc.
  pose proof (read_vocabulary_reserved corpus vf) as Hres. fold voc in Hres.
  destruct (read_word_statistics_total set_iter voc corpus Hperm Hres)
    as (wcs & wws & Hread).
  pose proof (read_word_statistics_shape _ _ _ _ _ _ Hread) as [Hwcs Hwws].
  exists wcs. split; [done|]. split.
  - intros e He. unfold __init__. cbv zeta. fold voc. rewrite Hread. simpl.
    by rewrite He.
  - intros [[ncls w2c] c2w] Hr Hn. unfold __init__. cbv zeta. fold voc.
    rewrite Hread. simpl. rewrite Hr. simpl.
    apply freq_init_classes_ok in Hr; [|done].
    destruct Hr as (-> & Hl1 & Hl2 & Hinv & Hok).
    destruct (compute_spec (nc + 3) _ wcs wws w2c Hn Hwcs Hwws Hl1 Hok)
      as (cls & cc & cw & wc & -> & _).
    simpl. eauto.
Qed.


(** ** Totals of the tables *)

Definition total1 (a : list Z) : Z := foldr Z.add 0 a.
Definition total2 (a : list (list Z)) : Z := total1 (total1 <$> a).

(** The number of tokens of the corpus, with the two sentence markers of
    every line. *)
Definition tokens (corpus_file : list string) : Z :=
  foldr (λ line n, Z.of_nat (length (split line)) + 2 + n) 0 corpus_file.

Definition nonneg1 (a : list Z) : Prop := Forall (λ x, 0 ≤ x) a.
Definition nonneg2 (a : list (list Z)) : Prop := Forall nonneg1 a.

Lemma total1_app a b : total1 (a ++ b) = total1 a + total1 b.
Proof. induction a as [|x a IH]; simpl; lia. Qed.

Lemma total1_nonneg a : nonneg1 a → 0 ≤ total1 a.
Proof. induction 1; simpl; lia. Qed.

Lemma total1_insert a i v x :
  a !! i = Some x → total1 (<[i := v]> a) = total1 a - x + v.
Proof.
  revert i. induction a as [|y a IH]; intros [|i] H; simplify_eq/=; [lia|].
  rewrite (IH i H). lia.
Qed.

Lemma total1_lookup_le a i x : nonneg1 a → a !! i = Some x → 0 ≤ x ≤ total1 a.
Proof.
  intros Ha. revert i. induction Ha as [|y a Hy Ha IH]; intros [|i] H;
    simplify_eq/=.
  - pose proof (total1_nonneg a Ha). lia.
  - specialize (IH i H). lia.
Qed.

Lemma total1_replicate n : total1 (replicate n 0) = 0.
Proof. induction n as [|n IH]; simpl; lia. Qed.

Lemma total2_replicate n m : total2 (replicate n (replicate m 0)) = 0.
Proof.
  unfold total2. rewrite fmap_replicate, total1_replicate.
  apply total1_replicate.
Qed.

Lemma tokens_app c1 c2 : tokens (c1 ++ c2) = tokens c1 + tokens c2.
Proof. induction c1 as [|x c1 IH]; simpl; lia. Qed.

Lemma tokens_nonneg c : 0 ≤ tokens c.
Proof. induction c as [|x c IH]; simpl; lia. Qed.

(** One increment of a cell, away from the int64 bound. *)
Lemma upd1_incr a i :
  nonneg1 a → (i < length a)%nat → total1 a + 1 < 2 ^ 63 →
  nonneg1 (upd1 a i 1) ∧ total1 (upd1 a i 1) = total1 a + 1.
Proof.
  intros Ha Hi Hb. destruct (lookup_lt_is_Some_2 a i Hi) as [x Hx].
  pose proof (total1_lookup_le a i x Ha Hx) as Hle.
  unfold upd1, cell1. rewrite Hx. change (default 0 (Some x)) with x.
  rewrite wrap64_id by (unfold is_int64; lia). split.
  - apply Forall_insert; [done|lia].
  - rewrite (total1_insert a i _ x Hx). lia.
Qed.

Lemma total2_nonneg a : nonneg2 a → 0 ≤ total2 a.
Proof.
  intros Ha. unfold total2. apply total1_nonneg, Forall_fmap.
  eapply Forall_impl; [exact Ha|]. intros r Hr. by apply total1_nonneg.
Qed.

Lemma total2_insert a i row row' :
  a !! i = Some row →
  total2 (<[i := row']> a) = total2 a - total1 row + total1 row'.
Proof.
  intros H. unfold total2. rewrite list_fmap_insert.
  apply total1_insert. by rewrite list_lookup_fmap, H.
Qed.

Lemma total2_row_le a i row : nonneg2 a → a !! i = Some row → total1 row ≤ total2 a.
Proof.
  intros Ha H. unfold total2.
  apply (total1_lookup_le (total1 <$> a) i).
  - apply Forall_fmap. eapply Forall_impl; [exact Ha|].
    intros r Hr. by apply total1_nonneg.
  - by rewrite list_lookup_fmap, H.
Qed.

Lemma upd2_incr a r c i j :
  shape2 a r c → nonneg2 a → (i < r)%nat → (j < c)%nat →
  total2 a + 1 < 2 ^ 63 →
  nonneg2 (upd2 a i j 1) ∧ total2 (upd2 a i j 1) = total2 a + 1.
Proof.
  intros Hs Ha Hi Hj Hb.
  destruct (shape2_row a r c i Hs Hi) as (row & Hrow & Hlen).
  pose proof (Forall_lookup_1 _ _ _ _ Ha Hrow) as Hnn. simpl in Hnn.
  pose proof (total2_row_le a i row Ha Hrow) as Hle.
  destruct (upd1_incr row j Hnn) as [Hnn' Htot]; [lia|lia|].
  unfold upd2. rewrite Hrow. simpl. split.
  - by apply Forall_insert.
  - rewrite (total2_insert a i row _ Hrow), Htot. lia.
Qed.

Lemma count_loop_total1 wcs sentence wcs' :
  for_res sentence (λ word_id wcs, iadd1 wcs word_id 1) wcs = Ok wcs' →
  nonneg1 wcs → total1 wcs + Z.of_nat (length sentence) < 2 ^ 63 →
  nonneg1 wcs' ∧ total1 wcs' = total1 wcs + Z.of_nat (length sentence).
Proof.
  revert wcs. induction sentence as [|i sentence IH]; intros wcs H Hnn Hb;
    simpl in *.
  - injection H as <-. split; [done|lia].
  - apply res_bind_ok in H as (wcs1 & H1 & H).
    apply iadd1_ok in H1 as [Hi ->].
    destruct (upd1_incr wcs i Hnn Hi) as [Hnn1 Ht1]; [lia|].
    destruct (IH _ H Hnn1) as [Hnn' Ht']; [lia|]. split; [done|lia].
Qed.

Lemma bigram_loop_total2 wws n bs wws' :
  for_res bs (λ lr wws, iadd2 wws lr.1 lr.2 1) wws = Ok wws' →
  shape2 wws n n → nonneg2 wws → total2 wws + Z.of_nat (length bs) < 2 ^ 63 →
  nonneg2 wws' ∧ total2 wws' = total2 wws + Z.of_nat (length bs).
Proof.
  revert wws. induction bs as [|lr bs IH]; intros wws H Hs Hnn Hb; simpl in *.
  - injection H as <-. split; [done|lia].
  - apply res_bind_ok in H as (wws1 & H1 & H).
    apply (iadd2_ok _ n n) in H1 as (Hi & Hj & ->); [|done].
    destruct (upd2_incr wws n n lr.1 lr.2 Hs Hnn Hi Hj) as [Hnn1 Ht1]; [lia|].
    destruct (IH _ H) as [Hnn' Ht']; [by apply shape2_upd2|done|lia|].
    split; [done|lia].
Qed.

Lemma map_res_length {A B} (f : A → res B) l ys :
  map_res f l = Ok ys → length ys = length l.
Proof.
  revert ys. induction l as [|x l IH]; intros ys H; simpl in *.
  - by injection H as <-.
  - apply res_bind_ok in H as (y & _ & H).
    apply res_bind_ok in H as (ys' & Hys & H). injection H as <-.
    simpl. by rewrite (IH ys').
Qed.

Lemma sentence_ids_length voc ids line sentence :
  sentence_ids voc ids line = Ok sentence →
  length sentence = (length (split line) + 2)%nat.
Proof.
  unfold sentence_ids. intros H.
  apply res_bind_ok in H as (bos & _ & H).
  apply res_bind_ok in H as (ws & Hws & H).
  apply res_bind_ok in H as (eos & _ & H). injection H as <-.
  apply map_res_length in Hws. simpl. rewrite length_app, Hws. simpl. lia.
Qed.

(** The totals of the word statistics: one count per token, one bigram
    per token but the last of its line. *)
Lemma read_word_statistics_totals voc size ids corpus wcs wws :
  _read_word_statistics voc size ids corpus = Ok (wcs, wws) →
  tokens corpus < 2 ^ 63 →
  nonneg1 wcs ∧ nonneg2 wws
  ∧ total1 wcs = tokens corpus
  ∧ total2 wws = tokens corpus - Z.of_nat (length corpus).
Proof.
  unfold _read_word_statistics. intros H Hb.
  apply res_bind_ok in H as (wcs0 & H0 & H). apply zeros1_ok in H0 as [_ ->].
  apply res_bind_ok in H as (wws0 & H0 & H).
  apply zeros2_ok in H0 as (_ & _ & ->). rewrite Nat2Z.id in H.
  apply (for_res_ok _ _ _ _
    (λ pre st, shape2 st.2 size size ∧ nonneg1 st.1 ∧ nonneg2 st.2
       ∧ total1 st.1 = tokens pre
       ∧ total2 st.2 = tokens pre - Z.of_nat (length pre))) in H.
  - simpl in H. tauto.
  - simpl. split_and!.
    + apply shape2_replicate.
    + by apply Forall_replicate.
    + apply Forall_replicate. by apply Forall_replicate.
    + apply total1_replicate.
    + apply total2_replicate.
  - clear H. intros pre line post [a b] [a' b'] Hc (Hs & Ha & Hb' & Ta & Tb) H.
    simpl in *.
    assert (tokens pre + (Z.of_nat (length (split line)) + 2) < 2 ^ 63) as Hlt.
    { rewrite Hc, tokens_app in Hb. simpl in Hb.
      pose proof (tokens_nonneg post). lia. }
    pose proof (tokens_nonneg pre) as Hpre.
    apply res_bind_ok in H as (sentence & Hsen & H).
    apply sentence_ids_length in Hsen.
    apply res_bind_ok in H as (a1 & H1 & H).
    apply res_bind_ok in H as (b1 & H2 & H). injection H as <- <-.
    apply count_loop_total1 in H1 as [Ha1 Ta1]; [|done|lia].
    pose proof H2 as H2'.
    apply (bigram_loop_total2 _ size) in H2 as [Hb1 Tb1];
      [|done|done|rewrite length_bigrams; lia].
    rewrite length_bigrams in Tb1.
    split_and!; try done.
    + apply (for_res_ok _ _ _ _ (λ _ x, shape2 x size size)) in H2'; [done..|].
      intros _ y _ s s1 _ Hs' Hy.
      apply (iadd2_ok _ size size) in Hy as (_ & _ & ->); [|done].
      by apply shape2_upd2.
    + rewrite tokens_app. simpl. lia.
    + rewrite tokens_app, length_app. simpl. lia.
Qed.

(** ** Conservation of the totals under aggregation *)

Lemma total1_cells a : total1 a = sumZ (cell1 a) (length a).
Proof.
  induction a as [|x a IH] using rev_ind; [done|].
  rewrite total1_app, length_app, Nat.add_comm. simpl.
  rewrite IH. unfold cell1 at 3. rewrite lookup_app_r, Nat.sub_diag by lia.
  simpl. rewrite Z.add_0_r. f_equal. apply sumZ_ext. intros i Hi.
  unfold cell1. by rewrite lookup_app_l.
Qed.

Lemma total2_cells a r c :
  shape2 a r c → total2 a = sumZ (λ i, sumZ (cell2 a i) c) r.
Proof.
  intros [Hl Hall]. unfold total2. rewrite total1_cells, length_fmap, Hl.
  apply sumZ_ext. intros i Hi.
  destruct (lookup_lt_is_Some_2 a i) as [row Hrow]; [lia|].
  pose proof (Forall_lookup_1 _ _ _ _ Hall Hrow) as Hlen. simpl in Hlen.
  unfold cell1 at 1. rewrite list_lookup_fmap, Hrow. simpl.
  rewrite total1_cells, Hlen. apply sumZ_ext. intros j Hj.
  unfold cell2. by rewrite Hrow.
Qed.

Lemma sumZ_le f g n :
  (∀ i, (i < n)%nat → f i ≤ g i) → sumZ f n ≤ sumZ g n.
Proof.
  induction n as [|n IH]; intros H; simpl; [done|].
  specialize (H n ltac:(lia)) as Hn. assert (sumZ f n ≤ sumZ g n) by auto with lia.
  lia.
Qed.

Lemma ind_range (P : Prop) `{Decision P} : 0 ≤ ind P ≤ 1.
Proof. unfold ind. case_decide; lia. Qed.

Lemma ind_mul_le (P : Prop) `{Decision P} x : 0 ≤ x → 0 ≤ ind P * x ≤ x.
Proof. intros Hx. unfold ind. case_decide; lia. Qed.

(** Summing over the classes the counts of the words of each class sums
    over the words. *)
Lemma sum_classes (cl : nat → nat) C V (g : nat → Z) :
  (∀ i, (i < V)%nat → (cl i < C)%nat) →
  sumZ (λ c, sumZ (λ i, ind (cl i = c) * g i) V) C = sumZ g V.
Proof.
  intros Hcl. rewrite sumZ_swap. apply sumZ_ext. intros i Hi.
  etrans; [|apply (sumZ_pick (λ _, g i) C (cl i)); auto].
  apply sumZ_ext. intros c _.
  by rewrite (ind_ext (cl i = c) (c = cl i)) by (split; congruence).
Qed.

Lemma cell1_nonneg a i : nonneg1 a → 0 ≤ cell1 a i.
Proof.
  intros Ha. unfold cell1. destruct (a !! i) as [x|] eqn:Hx; simpl; [|done].
  by eapply Forall_lookup_1 in Ha.
Qed.

Lemma cell2_nonneg a i j : nonneg2 a → 0 ≤ cell2 a i j.
Proof.
  intros Ha. unfold cell2. apply cell1_nonneg.
  destruct (a !! i) as [row|] eqn:Hrow; simpl; [|by apply Forall_nil].
  by eapply Forall_lookup_1 in Ha.
Qed.

Section Conservation.
Variable o : Optimizer.
Hypothesis Hwf : wf o.
Hypothesis Hag : agrees o.
Hypothesis Hnn1 : nonneg1 (word_counts o).
Hypothesis Hnn2 : nonneg2 (ww_counts o).
Hypothesis Hb1 : total1 (word_counts o) < 2 ^ 63.
Hypothesis Hb2 : total2 (ww_counts o) < 2 ^ 63.

Let V := nwords o.
Let C := nclasses o.
Let cl := class_at (word_to_class o).

Lemma class_in_range i : (i < V)%nat → (cl i < C)%nat.
Proof. intros Hi. by apply (wf_class_at o i Hwf Hi). Qed.

Lemma agg_cls_bounds c :
  0 ≤ agg_cls (word_to_class o) (word_counts o) V c ≤ total1 (word_counts o).
Proof.
  unfold agg_cls. split.
  - apply sumZ_nonneg. intros i _. by apply ind_mul_le, cell1_nonneg.
  - rewrite total1_cells, (wf_word_counts o Hwf). apply sumZ_le.
    intros i _. by apply ind_mul_le, cell1_nonneg.
Qed.

Lemma agg_cc_bounds a b :
  0 ≤ agg_cc (word_to_class o) (ww_counts o) V a b ≤ total2 (ww_counts o).
Proof.
  assert (∀ i j,
    0 ≤ ind (class_at (word_to_class o) i = a)
        * ind (class_at (word_to_class o) j = b) * cell2 (ww_counts o) i j
      ≤ cell2 (ww_counts o) i j) as Hterm.
  { intros i j. rewrite <- Z.mul_assoc.
    pose proof (ind_mul_le (class_at (word_to_class o) j = b)
                  (cell2 (ww_counts o) i j) (cell2_nonneg _ i j Hnn2)) as H1.
    destruct H1 as [H1 H1'].
    pose proof (ind_mul_le (class_at (word_to_class o) i = a) _ H1) as H2.
    lia. }
  unfold agg_cc. split.
  - apply sumZ_nonneg. intros i _. apply sumZ_nonneg. intros j _.
    apply Hterm.
  - rewrite (total2_cells _ V V) by apply Hwf. apply sumZ_le. intros i _.
    apply sumZ_le. intros j _. apply Hterm.
Qed.

Lemma class_counts_total : total1 (class_counts o) = total1 (word_counts o).
Proof.
  destruct Hag as [Hl _ _ _ Ecls _ _ _].
  rewrite total1_cells, Hl.
  rewrite (sumZ_ext _ (agg_cls (word_to_class o) (word_counts o) V)).
  - unfold agg_cls. rewrite (sum_classes cl C V) by apply class_in_range.
    rewrite total1_cells. by rewrite (wf_word_counts o Hwf).
  - intros c Hc. rewrite Ecls by done. apply wrap64_id.
    pose proof (agg_cls_bounds c). unfold is_int64. fold V in H. lia.
Qed.

Lemma cc_counts_total : total2 (cc_counts o) = total2 (ww_counts o).
Proof.
  destruct Hag as [_ Hs _ _ _ Ecc _ _].
  rewrite (total2_cells _ C C) by done.
  rewrite (sumZ_ext _
    (λ a, sumZ (agg_cc (word_to_class o) (ww_counts o) V a) C)).
  2:{ intros a Ha. apply sumZ_ext. intros b Hb. rewrite Ecc by done.
      apply wrap64_id. pose proof (agg_cc_bounds a b) as H.
      unfold is_int64. lia. }
  rewrite (total2_cells _ V V) by apply Hwf.
  rewrite <- (sum_classes cl C V (λ i, sumZ (cell2 (ww_counts o) i) V)) by apply class_in_range.
  apply sumZ_ext. intros a Ha. unfold agg_cc. rewrite sumZ_swap.
  apply sumZ_ext. intros i Hi.
  rewrite <- (sum_classes cl C V (cell2 (ww_counts o) i)) by apply class_in_range.
  rewrite <- sumZ_scale. apply sumZ_ext. intros b Hb.
  rewrite <- sumZ_scale. apply sumZ_ext. intros j Hj.
  unfold cl. ring.
Qed.
End Conservation.

(** ** The stores reached from construction by moves *)

Inductive reachable (set_iter : gset string → list string) (nc : Z)
    (corpus : list string) (vf : option (list string)) : Optimizer → Prop :=
  | reach_init o :
      __init__ set_iter nc corpus vf = Ok o →
      reachable set_iter nc corpus vf o
  | reach_move o w new o' :
      reachable set_iter nc corpus vf o →
      (w < nwords o)%nat → (new < nclasses o)%nat →
      _move w new o = (Ok tt, o') →
      reachable set_iter nc corpus vf o'.

Lemma init_totals set_iter nc corpus vf o :
  __init__ set_iter nc corpus vf = Ok o → tokens corpus < 2 ^ 63 →
  nonneg1 (word_counts o) ∧ nonneg2 (ww_counts o)
  ∧ total1 (word_counts o) = tokens corpus
  ∧ total2 (ww_counts o) = tokens corpus - Z.of_nat (length corpus).
Proof.
  unfold __init__. intros H Hb.
  apply res_bind_ok in H as ([wcs wws] & Hread & H).
  apply res_bind_ok in H as (ci & _ & H).
  apply res_bind_ok in H as (cs & _ & H). injection H as <-. simpl.
  by eapply read_word_statistics_totals.
Qed.

Lemma reachable_facts set_iter nc corpus vf o :
  reachable set_iter nc corpus vf o →
  wf o ∧ aggregated o
  ∧ ∃ o0, __init__ set_iter nc corpus vf = Ok o0
          ∧ word_counts o = word_counts o0 ∧ ww_counts o = ww_counts o0.
Proof.
  induction 1 as [o Hinit|o w new o' Hreach IH Hw Hnew Hmove].
  - destruct (init_wf _ _ _ _ _ Hinit) as [? ?].
    split_and!; try done. by exists o.
  - destruct IH as (Hwf & Hag & o0 & Hinit & Hwcs & Hwws).
    destruct (move_spec o w new Hwf Hw Hnew) as ([] & o1 & Hrun & Hmoved).
    assert (o1 = o') as -> by congruence.
    pose proof (moved_wf o w new o' Hwf Hw Hnew Hmoved) as Hwf'.
    split; [done|]. split.
    + apply aggregated_agrees; [done|].
      apply (moved_agrees o w new); try done. by apply aggregated_agrees.
    + exists o0. split; [done|].
      destruct (moved_facts _ _ _ _ Hmoved) as ((_&_&_&E1&E2&_) & _).
      split; congruence.
Qed.

(** ** A small corpus *)

Definition example_corpus : list string := ["a b a"; "b a b"].

(** The store built from [example_corpus] with one class beyond the three
    reserved ones, the vocabulary iterated in the order of [elements]. *)
Definition example_store : Optimizer :=
  match __init__ elements 1 example_corpus None with
  | Ok o => o
  | Raise _ => mkOptimizer ∅ 0 ∅ [] [] 0 [] [] [] [] [] []
  end.

Lemma example_store_init :
  __init__ elements 1 example_corpus None = Ok example_store.
Proof. vm_compute. reflexivity. Qed.

Lemma example_store_wf : wf example_store.
Proof. apply (init_wf _ _ _ _ _ example_store_init). Qed.

Lemma example_store_aggregated : aggregated example_store.
Proof. apply (init_wf _ _ _ _ _ example_store_init). Qed.

Example example_store_tables :
  (vocabulary_size example_store, num_classes example_store,
   word_counts example_store, word_to_class example_store,
   class_counts example_store)
  = (5%nat, 4, [3; 3; 2; 2; 0],
     [Some 3%nat; Some 0%nat; Some 1%nat; Some 0%nat; Some 2%nat],
     [5; 2; 0; 3]).
Proof. vm_compute. reflexivity. Qed.

(** A stand-in for [numpy.log] with its value at 0. *)
Definition log_stub (x : float) : float :=
  if PrimFloat.eqb x PrimFloat.zero then neg_infinity else x.

(** * The claims *)

(** C1 (the code departs from it): [_evaluate_move] returns no delta.  On
    every well-formed store, for every word and class in range, the loop
    over [wc_counts[word_id,:]] unpacks an int64 scalar into two variables
    and the call raises [TypeError], leaving the store as it was. *)
Theorem evaluate_move_raises_type_error np_log o w new :
  wf o → (w < nwords o)%nat → (new < nclasses o)%nat →
  _evaluate_move np_log w new o = (Raise TypeError, o).
Proof.
  intros Hwf Hw Hnew. destruct (wf_class_at o w Hwf Hw) as [Hcl Hold].
  unfold _evaluate_move.
  rewrite (bind_read_ok _ _ o (Some (class_at (word_to_class o) w)))
    by (unfold getitem; by rewrite Hcl).
  rewrite (bind_read_ok _ _ o (class_at (word_to_class o) w)) by done.
  rewrite (bind_ok _ _ o _ o (class_terms_ok np_log o _ new w Hwf Hold Hnew Hw)).
  destruct (shape2_row _ _ _ w (wf_wc_counts o Hwf) Hw) as (row & Hrow & Hlen).
  rewrite (bind_read_ok _ _ o row) by (unfold getrow, getitem; by rewrite Hrow).
  destruct row as [|x row]; [simpl in Hlen; lia|].
  apply bind_raise. simpl. by apply bind_raise.
Qed.

Lemma evaluate_move_raises_type_error_witness :
  _evaluate_move log_stub 0 2 example_store = (Raise TypeError, example_store).
Proof.
  apply (evaluate_move_raises_type_error log_stub example_store 0 2).
  - exact example_store_wf.
  - vm_compute. lia.
  - vm_compute. lia.
Defined.

(** C2: after [_move] of a word in range to a class in range on a
    well-formed store whose four class tables are the aggregates of the
    word statistics, the move returns, the four tables are again what
    [_compute_class_statistics] computes from [word_counts], [ww_counts]
    and the updated [word_to_class], and [class_to_words] is again the
    inverse of [word_to_class]. *)
Theorem move_restores_invariants o w new :
  wf o → aggregated o → (w < nwords o)%nat → (new < nclasses o)%nat →
  ∃ o', _move w new o = (Ok tt, o')
    ∧ aggregated o'
    ∧ inverse_maps (word_to_class o') (class_to_words o')
    ∧ word_to_class o' = <[w := Some new]> (word_to_class o)
    ∧ wf o'.
Proof.
  intros Hwf Hag Hw Hnew.
  destruct (move_spec o w new Hwf Hw Hnew) as ([] & o' & Hrun & Hmoved).
  pose proof (moved_wf o w new o' Hwf Hw Hnew Hmoved) as Hwf'.
  exists o'. split_and!; try done.
  - apply aggregated_agrees; [done|].
    apply (moved_agrees o w new); try done. by apply aggregated_agrees.
  - apply Hwf'.
  - by destruct (moved_facts _ _ _ _ Hmoved) as (_ & -> & _).
Qed.

Lemma move_restores_invariants_witness :
  ∃ o', _move 0 2 example_store = (Ok tt, o')
    ∧ aggregated o'
    ∧ inverse_maps (word_to_class o') (class_to_words o')
    ∧ word_to_class o' = <[0%nat := Some 2%nat]> (word_to_class example_store)
    ∧ wf o'.
Proof.
  apply (move_restores_invariants example_store 0 2).
  - exact example_store_wf.
  - exact example_store_aggregated.
  - vm_compute. lia.
  - vm_compute. lia.
Defined.

(** C5: on a well-formed store, moving a word in range from its class A to
    a class B in range and then back to A returns both times and ends in
    the store it started from: every table and both mappings have their
    former values, and so has the log likelihood. *)
Theorem move_and_back_restores np_log np_sum o w B :
  wf o → (w < nwords o)%nat → (B < nclasses o)%nat →
  ∃ o1 o2,
    _move w B o = (Ok tt, o1)
    ∧ _move w (class_at (word_to_class o) w) o1 = (Ok tt, o2)
    ∧ o2 = o
    ∧ log_likelihood np_log np_sum o2 = log_likelihood np_log np_sum o.
Proof.
  intros Hwf Hw HB.
  destruct (move_spec o w B Hwf Hw HB) as ([] & o1 & Hrun1 & Hm1).
  pose proof (moved_wf o w B o1 Hwf Hw HB Hm1) as Hwf1.
  destruct (moved_facts _ _ _ _ Hm1) as (Hraw & _).
  destruct (same_raw_dims _ _ Hraw) as [HV HC].
  destruct (wf_class_at o w Hwf Hw) as [_ HA].
  destruct (move_spec o1 w (class_at (word_to_class o) w) Hwf1)
    as ([] & o2 & Hrun2 & Hm2); [lia..|].
  assert (o2 = o) as -> by by apply (move_back_store o w B o1 o2).
  by exists o1, o.
Qed.

Lemma move_and_back_restores_witness :
  ∃ o1 o2,
    _move 0 2 example_store = (Ok tt, o1)
    ∧ _move 0 (class_at (word_to_class example_store) 0) o1 = (Ok tt, o2)
    ∧ o2 = example_store
    ∧ log_likelihood log_stub (foldl PrimFloat.add PrimFloat.zero) o2
      = log_likelihood log_stub (foldl PrimFloat.add PrimFloat.zero)
          example_store.
Proof.
  apply (move_and_back_restores log_stub (foldl PrimFloat.add PrimFloat.zero)
           example_store 0 2).
  - exact example_store_wf.
  - vm_compute. lia.
  - vm_compute. lia.
Defined.

(** C10: whatever the store and the arguments, and whether it returns or
    raises, [_move] leaves [word_counts] and [ww_counts] as they were (and
    with them the vocabulary, the word ids and the number of classes). *)
Theorem move_keeps_word_statistics o w new :
  word_counts (_move w new o).2 = word_counts o
  ∧ ww_counts (_move w new o).2 = ww_counts o
  ∧ same_raw o (_move w new o).2.
Proof.
  pose proof (keeps_move w new o) as H. split_and!; [apply H..|exact H].
Qed.

Lemma self_move_store o w o' :
  wf o → (w < nwords o)%nat →
  moved o w (class_at (word_to_class o) w) o' → o' = o.
Proof.
  intros Hwf Hw Hm. set (A := class_at (word_to_class o) w) in *.
  destruct (wf_class_at o w Hwf Hw) as [HclA HA]. fold A in HclA, HA.
  pose proof (moved_wf o w A o' Hwf Hw HA Hm) as Hwf'.
  destruct (moved_facts _ _ _ _ Hm)
    as (Hraw & Hw2c & Hc2w & Ecls & Ecc & Ecw & Ewc).
  destruct (same_raw_dims _ _ Hraw) as [HV HC].
  destruct Hraw as (?&?&?&?&?&?).
  apply optimizer_ext; try congruence.
  - rewrite Hw2c. by apply list_insert_id.
  - rewrite Hc2w. fold A.
    destruct (lookup_lt_is_Some_2 (class_to_words o) A) as [sA HsA];
      [by rewrite (wf_class_to_words o Hwf)|].
    assert (w ∈ sA) as Hin by by apply (wf_inverse o Hwf A sA HsA).
    unfold move_sets. rewrite HsA. simpl.
    rewrite list_lookup_insert_eq by (by apply lookup_lt_Some in HsA).
    simpl. rewrite list_insert_insert_eq.
    assert ((sA ∖ {[w]}) ∪ {[w]} = sA) as ->.
    { apply set_eq. intros x. destruct (decide (x = w)); set_solver. }
    by apply list_insert_id.
  - apply array1_ext;
      [by rewrite (wf_class_counts o' Hwf'), (wf_class_counts o Hwf), HC|].
    intros c Hc. rewrite (wf_class_counts o' Hwf'), HC in Hc.
    rewrite Ecls, move_delta_cls by done. fold A.
    replace ((ind (A = c) - ind (A = c)) * cell1 (word_counts o) w) with 0
      by ring.
    symmetry. apply wrap64_cell_0, cell1_int64, Hwf.
  - apply (array2_ext _ _ (nclasses o) (nclasses o)); [|apply Hwf|].
    { rewrite <- HC. apply Hwf'. }
    intros a b Ha Hb. rewrite Ecc, move_delta_cc by done. fold A.
    symmetry. etrans; [apply wrap64_cell_0, cell2_int64, Hwf|].
    f_equal. ring.
  - apply (array2_ext _ _ (nclasses o) (nwords o)); [|apply Hwf|].
    { rewrite <- HC, <- HV. apply Hwf'. }
    intros a j Ha Hj. rewrite Ecw, move_delta_cw by done. fold A.
    symmetry. etrans; [apply wrap64_cell_0, cell2_int64, Hwf|].
    f_equal. ring.
  - apply (array2_ext _ _ (nwords o) (nclasses o)); [|apply Hwf|].
    { rewrite <- HC, <- HV. apply Hwf'. }
    intros i b Hi Hb. rewrite Ewc, move_delta_wc by done. fold A.
    symmetry. etrans; [apply wrap64_cell_0, cell2_int64, Hwf|].
    f_equal. ring.
Qed.

(** C6, as the code has it: evaluating a move assigns nothing (the store
    after the call is the store before it), and applying a move of a word
    in range to its own class on a well-formed store returns and leaves
    every table and both mappings as they were. *)
Theorem self_move_leaves_store np_log o w :
  wf o → (w < nwords o)%nat →
  (_evaluate_move np_log w (class_at (word_to_class o) w) o).2 = o
  ∧ _move w (class_at (word_to_class o) w) o = (Ok tt, o).
Proof.
  intros Hwf Hw. split; [apply pure_evaluate_move|].
  destruct (wf_class_at o w Hwf Hw) as [_ HA].
  destruct (move_spec o w _ Hwf Hw HA) as ([] & o' & Hrun & Hm).
  by rewrite (self_move_store o w o' Hwf Hw Hm) in Hrun.
Qed.

Lemma self_move_leaves_store_witness :
  (_evaluate_move log_stub 0
     (class_at (word_to_class example_store) 0) example_store).2
    = example_store
  ∧ _move 0 (class_at (word_to_class example_store) 0) example_store
    = (Ok tt, example_store).
Proof.
  apply (self_move_leaves_store log_stub example_store 0).
  - exact example_store_wf.
  - vm_compute. lia.
Defined.

(** C6 as stated fails: in the example store the word of id 0 is in class
    3, and evaluating its move to class 3 returns no delta of 0; it
    raises [TypeError]. *)
Lemma evaluate_self_move_returns_no_zero :
  class_at (word_to_class example_store) 0 = 3%nat
  ∧ (_evaluate_move log_stub 0 3 example_store).1 = Raise TypeError
  ∧ (_evaluate_move log_stub 0 3 example_store).1 ≠ Ok PrimFloat.zero.
Proof.
  assert ((_evaluate_move log_stub 0 3 example_store).1 = Raise TypeError)
    as H by (vm_compute; reflexivity).
  split; [by vm_compute|]. split; [exact H|]. by rewrite H.
Qed.

(** C7 (the code departs from it): the class-count terms of
    [_evaluate_move] are not guarded against a zero count.  With
    [numpy.log(0) = -inf], when the old class holds exactly the count of
    the moved word (the word leaves its class empty), the term
    [2 * new_count * numpy.log(new_count)] is 0 times -inf, and the class
    terms evaluate to not-a-number. *)
Theorem class_terms_nan_when_class_emptied np_log o w new :
  np_log (of_int64 0) = neg_infinity →
  wf o → (w < nwords o)%nat → (new < nclasses o)%nat →
  cell1 (class_counts o) (class_at (word_to_class o) w)
    = cell1 (word_counts o) w →
  ∃ r, class_terms np_log (class_at (word_to_class o) w) new w o = (Ok r, o)
       ∧ PrimFloat.is_nan r = true.
Proof.
  intros Hlog Hwf Hw Hnew Heq.
  destruct (wf_class_at o w Hwf Hw) as [_ Hold].
  eexists. split; [by apply class_terms_ok|].
  apply is_NaN_is_nan, is_NaN_sub_l, is_NaN_add_l, is_NaN_sub_r.
  rewrite Heq. unfold i64_sub. rewrite Z.sub_diag.
  by apply two_count_log_zero.
Qed.

Lemma class_terms_nan_when_class_emptied_witness :
  ∃ r, class_terms log_stub (class_at (word_to_class example_store) 0) 2 0
         example_store = (Ok r, example_store)
       ∧ PrimFloat.is_nan r = true.
Proof.
  apply (class_terms_nan_when_class_emptied log_stub example_store 0 2).
  - vm_compute. reflexivity.
  - exact example_store_wf.
  - vm_compute. lia.
  - vm_compute. lia.
  - vm_compute. reflexivity.
Defined.

(** The guarded terms: [_ll_change] adds nothing for a zero count. *)
Lemma ll_change_zero_counts np_log : _ll_change np_log 0 0 = of_int64 0.
Proof. reflexivity. Qed.

(** A cell that is not positive is masked in [log_likelihood]. *)
Lemma ma_log_times_masked np_log c : c ≤ 0 → ma_log_times np_log c = None.
Proof.
  intros Hc. unfold ma_log_times. destruct (Z.leb_spec c 0); [done|lia].
Qed.

(** ** Every iteration order of a small vocabulary *)

(** A property of the store built with each order of the vocabulary
    holds for the store built with any iteration function that returns
    the words of the vocabulary once each. *)
Lemma init_all_orders (check : res Optimizer → bool) set_iter nc corpus vf :
  set_iter (read_vocabulary corpus vf) ≡ₚ elements (read_vocabulary corpus vf) →
  forallb (λ order, check (__init__ (λ _, order) nc corpus vf))
    (permutations (elements (read_vocabulary corpus vf))) = true →
  check (__init__ set_iter nc corpus vf) = true.
Proof.
  intros Hperm Hall. rewrite forallb_forall in Hall.
  specialize (Hall (set_iter (read_vocabulary corpus vf))).
  apply Hall. apply list_elem_of_In, permutations_Permutation. by symmetry.
Qed.

(** The statistics of the example corpus, as a check of a store. *)
Definition example_check (r : res Optimizer) : bool :=
  match r with
  | Ok o =>
      match word_ids o !! "a", word_ids o !! "b", word_ids o !! "<s>" with
      | Some a, Some b, Some s =>
          bool_decide (vocabulary o = {["<s>"; "</s>"; "<UNK>"; "a"; "b"]})
          && (num_classes o =? 4)
          && bool_decide (getitem (word_counts o) a = Ok 3)
          && bool_decide (getitem (word_counts o) b = Ok 3)
          && bool_decide (getitem2 (ww_counts o) s a = Ok 1)
      | _, _, _ => false
      end
  | Raise _ => false
  end.

(** C9: for the corpus of the two lines "a b a" and "b a b" with
    [num_classes = 1], whatever the iteration order of the vocabulary,
    construction returns a store whose vocabulary is the three reserved
    words with "a" and "b", with 4 classes, [word_counts] 3 for "a" and for
    "b", and [ww_counts] 1 for "<s>" followed by "a". *)
Theorem example_corpus_statistics set_iter :
  set_iter (read_vocabulary example_corpus None)
    ≡ₚ elements (read_vocabulary example_corpus None) →
  ∃ o a b s,
    __init__ set_iter 1 example_corpus None = Ok o
    ∧ vocabulary o = {["<s>"; "</s>"; "<UNK>"; "a"; "b"]}
    ∧ num_classes o = 4
    ∧ word_ids o !! "a" = Some a ∧ word_ids o !! "b" = Some b
    ∧ word_ids o !! "<s>" = Some s
    ∧ getitem (word_counts o) a = Ok 3
    ∧ getitem (word_counts o) b = Ok 3
    ∧ getitem2 (ww_counts o) s a = Ok 1.
Proof.
  intros Hperm.
  pose proof (init_all_orders example_check set_iter 1 example_corpus None
                Hperm) as H.
  specialize (H ltac:(vm_compute; reflexivity)).
  unfold example_check in H.
  destruct (__init__ set_iter 1 example_corpus None) as [o|e]; [|done].
  destruct (word_ids o !! "a") as [a|] eqn:Ha; [|done].
  destruct (word_ids o !! "b") as [b|] eqn:Hb; [|done].
  destruct (word_ids o !! "<s>") as [s|] eqn:Hs; [|done].
  repeat (apply andb_prop in H as [H ?]).
  exists o, a, b, s.
  repeat match goal with
         | H : bool_decide _ = true |- _ => apply bool_decide_eq_true in H
         end.
  split_and!; try done. by apply Z.eqb_eq.
Qed.

Lemma example_corpus_statistics_witness :
  ∃ o a b s,
    __init__ elements 1 example_corpus None = Ok o
    ∧ vocabulary o = {["<s>"; "</s>"; "<UNK>"; "a"; "b"]}
    ∧ num_classes o = 4
    ∧ word_ids o !! "a" = Some a ∧ word_ids o !! "b" = Some b
    ∧ word_ids o !! "<s>" = Some s
    ∧ getitem (word_counts o) a = Ok 3
    ∧ getitem (word_counts o) b = Ok 3
    ∧ getitem2 (ww_counts o) s a = Ok 1.
Proof.
  apply (example_corpus_statistics elements). reflexivity.
Defined.

(** [class_id] after line 93: with five classes or more it stays 3, with
    four classes it leaves 3 for the reserved class 0. *)
Lemma next_class_id_stays ncls : 5 ≤ ncls → next_class_id ncls 3 = Ok 3%nat.
Proof.
  intros H. unfold next_class_id. rewrite decide_False by lia.
  rewrite (Z.mod_small (Z.of_nat 3 + 1) ncls) by lia. reflexivity.
Qed.

Lemma next_class_id_four : next_class_id 4 3 = Ok 0%nat.
Proof. reflexivity. Qed.

Definition two_word_corpus : list string := ["a b"].

Definition two_word_check (r : res Optimizer) : bool :=
  match r with
  | Ok o =>
      match word_ids o !! "a", word_ids o !! "b" with
      | Some a, Some b =>
          (num_classes o =? 5)
          && bool_decide (word_to_class o !! a = Some (Some 3%nat))
          && bool_decide (word_to_class o !! b = Some (Some 3%nat))
          && bool_decide (class_to_words o !! 4%nat = Some ∅)
      | _, _ => false
      end
  | Raise _ => false
  end.

(** C4 (the code departs from it): with [num_classes = 2] there are the
    classes 3 and 4 for the words beyond the reserved ones, and the corpus
    of the one line "a b" has two such words.  Whatever the iteration order
    of the vocabulary, both get class 3 and class 4 stays empty: line 93
    takes the minimum of the next class id and 3 where a round robin
    over 3..C-1 needs the maximum. *)
Theorem freq_init_puts_both_words_in_class_3 set_iter :
  set_iter (read_vocabulary two_word_corpus None)
    ≡ₚ elements (read_vocabulary two_word_corpus None) →
  ∃ o a b,
    __init__ set_iter 2 two_word_corpus None = Ok o
    ∧ num_classes o = 5
    ∧ word_ids o !! "a" = Some a ∧ word_ids o !! "b" = Some b
    ∧ word_to_class o !! a = Some (Some 3%nat)
    ∧ word_to_class o !! b = Some (Some 3%nat)
    ∧ class_to_words o !! 4%nat = Some ∅.
Proof.
  intros Hperm.
  pose proof (init_all_orders two_word_check set_iter 2 two_word_corpus None
                Hperm) as H.
  specialize (H ltac:(vm_compute; reflexivity)).
  unfold two_word_check in H.
  destruct (__init__ set_iter 2 two_word_corpus None) as [o|e]; [|done].
  destruct (word_ids o !! "a") as [a|] eqn:Ha; [|done].
  destruct (word_ids o !! "b") as [b|] eqn:Hb; [|done].
  repeat (apply andb_prop in H as [H ?]).
  exists o, a, b.
  repeat match goal with
         | H : bool_decide _ = true |- _ => apply bool_decide_eq_true in H
         end.
  split_and!; try done. by apply Z.eqb_eq.
Qed.

Lemma freq_init_puts_both_words_in_class_3_witness :
  ∃ o a b,
    __init__ elements 2 two_word_corpus None = Ok o
    ∧ num_classes o = 5
    ∧ word_ids o !! "a" = Some a ∧ word_ids o !! "b" = Some b
    ∧ word_to_class o !! a = Some (Some 3%nat)
    ∧ word_to_class o !! b = Some (Some 3%nat)
    ∧ class_to_words o !! 4%nat = Some ∅.
Proof.
  apply (freq_init_puts_both_words_in_class_3 elements). reflexivity.
Defined.

(** C8, as the code has it: construction checks neither [num_classes]
    nor the number of classes against the vocabulary size.  With the
    vocabulary iterated once each: a negative [num_classes] raises
    [IndexError] (no store is produced); [num_classes = 0] raises
    [IndexError] when the vocabulary has a word beyond the three reserved
    ones and returns a store when it has none; and [num_classes >= 1]
    always returns a store with [num_classes + 3] classes, whatever the
    vocabulary size. *)
Theorem init_by_num_classes set_iter nc corpus vf :
  set_iter (read_vocabulary corpus vf) ≡ₚ elements (read_vocabulary corpus vf) →
  (nc < 0 → __init__ set_iter nc corpus vf = Raise IndexError)
  ∧ (nc = 0 → (3 < size (read_vocabulary corpus vf))%nat →
       __init__ set_iter nc corpus vf = Raise IndexError)
  ∧ (nc = 0 → size (read_vocabulary corpus vf) = 3%nat →
       ∃ o, __init__ set_iter nc corpus vf = Ok o)
  ∧ (1 ≤ nc →
       ∃ o, __init__ set_iter nc corpus vf = Ok o
            ∧ num_classes o = nc + 3
            ∧ vocabulary_size o = size (read_vocabulary corpus vf)).
Proof.
  intros Hperm.
  pose proof (read_vocabulary_reserved corpus vf) as Hres.
  destruct (init_after_statistics set_iter nc corpus vf Hperm)
    as (wcs & Hwcs & Hraise & Hok).
  split_and!.
  - intros Hnc. apply Hraise. by apply freq_init_classes_negative.
  - intros -> Hsize. apply Hraise.
    by apply (freq_init_classes_zero set_iter _ wcs Hperm Hres Hwcs).
  - intros -> Hsize.
    destruct (freq_init_classes_zero set_iter _ wcs Hperm Hres Hwcs)
      as [_ [r Hr]]; [done|].
    destruct (Hok r Hr) as (o & Ho & _); [lia|]. eauto.
  - intros Hnc. by apply init_total.
Qed.

Lemma init_by_num_classes_witness :
  ((-1) < 0 → __init__ elements (-1) example_corpus None = Raise IndexError)
  ∧ ((-1) = 0 → (3 < size (read_vocabulary example_corpus None))%nat →
       __init__ elements (-1) example_corpus None = Raise IndexError)
  ∧ ((-1) = 0 → size (read_vocabulary example_corpus None) = 3%nat →
       ∃ o, __init__ elements (-1) example_corpus None = Ok o)
  ∧ (1 ≤ (-1) →
       ∃ o, __init__ elements (-1) example_corpus None = Ok o
            ∧ num_classes o = (-1) + 3
            ∧ vocabulary_size o = size (read_vocabulary example_corpus None)).
Proof.
  apply (init_by_num_classes elements (-1) example_corpus None). reflexivity.
Defined.

(** C8 as stated fails: with [num_classes = 5] the example corpus gives 8
    classes for a vocabulary of 5 words and construction returns a store;
    with [num_classes = 0] and an empty corpus it returns a store too. *)
Lemma init_accepts_more_classes_than_words :
  (∃ o, __init__ elements 5 example_corpus None = Ok o
        ∧ num_classes o = 8 ∧ vocabulary_size o = 5%nat)
  ∧ (∃ o, __init__ elements 0 [] None = Ok o).
Proof.
  assert (match __init__ elements 5 example_corpus None with
          | Ok o => (num_classes o =? 8) && (vocabulary_size o =? 5)%nat
          | Raise _ => false
          end = true) as H5 by (vm_compute; reflexivity).
  assert (match __init__ elements 0 [] None with
          | Ok o => true
          | Raise _ => false
          end = true) as H0 by (vm_compute; reflexivity).
  split.
  - destruct (__init__ elements 5 example_corpus None) as [o|e];
      [|discriminate H5].
    apply andb_prop in H5 as [Hn Hv].
    apply Z.eqb_eq in Hn. apply Nat.eqb_eq in Hv.
    exists o. split; [reflexivity|]. split; assumption.
  - destruct (__init__ elements 0 [] None) as [o|e]; [|discriminate H0].
    exists o. reflexivity.
Qed.

(** C3, as the code has it: for every store reached from construction by
    moves of words in range to classes in range, when the number N of
    tokens (with the two markers of every line) is below 2^63, the sum of
    [class_counts] and the sum of [word_counts] are N, and the sum of
    [cc_counts] and the sum of [ww_counts] are N minus the number of
    lines: a line of k tokens has k - 1 bigrams, no bigram joins two
    lines.  Every such move returns, and the store it ends in is reached
    too. *)
Theorem totals_conserved set_iter nc corpus vf o :
  tokens corpus < 2 ^ 63 → reachable set_iter nc corpus vf o →
  total1 (class_counts o) = tokens corpus
  ∧ total1 (word_counts o) = tokens corpus
  ∧ total2 (cc_counts o) = tokens corpus - Z.of_nat (length corpus)
  ∧ total2 (ww_counts o) = tokens corpus - Z.of_nat (length corpus)
  ∧ ∀ w new, (w < nwords o)%nat → (new < nclasses o)%nat →
      ∃ o', _move w new o = (Ok tt, o')
            ∧ reachable set_iter nc corpus vf o'.
Proof.
  intros Hb Hreach.
  destruct (reachable_facts _ _ _ _ _ Hreach)
    as (Hwf & Hag & o0 & Hinit & Hwcs & Hwws).
  destruct (init_totals _ _ _ _ _ Hinit Hb) as (Hnn1 & Hnn2 & T1 & T2).
  rewrite <- Hwcs in Hnn1, T1. rewrite <- Hwws in Hnn2, T2.
  apply aggregated_agrees in Hag; [|done].
  pose proof (tokens_nonneg corpus) as Hpos.
  split_and!; try done.
  - rewrite (class_counts_total o Hwf Hag Hnn1) by lia. done.
  - rewrite (cc_counts_total o Hwf Hag Hnn2) by lia. done.
  - intros w new Hw Hnew.
    destruct (move_spec o w new Hwf Hw Hnew) as ([] & o' & Hrun & _).
    exists o'. split; [done|]. by eapply reach_move.
Qed.

Lemma totals_conserved_witness :
  total1 (class_counts example_store) = tokens example_corpus
  ∧ total1 (word_counts example_store) = tokens example_corpus
  ∧ total2 (cc_counts example_store)
    = tokens example_corpus - Z.of_nat (length example_corpus)
  ∧ total2 (ww_counts example_store)
    = tokens example_corpus - Z.of_nat (length example_corpus)
  ∧ ∀ w new, (w < nwords example_store)%nat →
      (new < nclasses example_store)%nat →
      ∃ o', _move w new example_store = (Ok tt, o')
            ∧ reachable elements 1 example_corpus None o'.
Proof.
  apply (totals_conserved elements 1 example_corpus None example_store).
  - vm_compute. reflexivity.
  - apply reach_init. exact example_store_init.
Defined.

(** C3 as stated fails: the example corpus has N = 10 tokens in 2 lines;
    the sums of [ww_counts] and of [cc_counts] are 8, not 10. *)
Lemma bigram_totals_are_not_the_token_count :
  reachable elements 1 example_corpus None example_store
  ∧ tokens example_corpus = 10
  ∧ total1 (word_counts example_store) = 10
  ∧ total2 (ww_counts example_store) = 8
  ∧ total2 (cc_counts example_store) = 8
  ∧ total2 (ww_counts example_store) ≠ tokens example_corpus.
Proof.
  split; [apply reach_init; exact example_store_init|].
  split_and!; by vm_compute.
Qed.

(** * Further properties *)

(** ** Construction: the vocabulary and the word ids *)

(** The attributes of a store that [__init__] returns, by the calls that
    computed them. *)
Lemma init_fields set_iter nc corpus vf o :
  __init__ set_iter nc corpus vf = Ok o →
  let voc := read_vocabulary corpus vf in
  let ids := dict_zip_range (set_iter voc) (size voc) in
  vocabulary o = voc ∧ vocabulary_size o = size voc ∧ word_ids o = ids
  ∧ _read_word_statistics voc (size voc) ids corpus
    = Ok (word_counts o, ww_counts o)
  ∧ _freq_init_classes nc (size voc) ids (word_counts o)
    = Ok (num_classes o, word_to_class o, class_to_words o)
  ∧ _compute_class_statistics (num_classes o) (size voc) (word_counts o)
      (ww_counts o) (word_to_class o)
    = Ok (class_counts o, cc_counts o, cw_counts o, wc_counts o).
Proof.
  unfold __init__. intros H.
  apply res_bind_ok in H as ([wcs wws] & Hread & H).
  apply res_bind_ok in H as ([[ncls w2c] c2w] & Hinit & H).
  apply res_bind_ok in H as ([[[cls cc] cw] wc] & Hstat & H).
  injection H as <-. simpl in *. done.
Qed.

Lemma dict_zip_range_nodup keys i k :
  NoDup keys → keys !! i = Some k →
  dict_zip_range keys (length keys) !! k = Some i.
Proof.
  intros Hnd Hi.
  destruct (dict_zip_range_total keys k) as [j Hj];
    [by apply list_elem_of_lookup_2 in Hi|].
  pose proof (proj1 (dict_zip_range_lookup _ _ _ _ Hj)) as Hj'.
  by rewrite (NoDup_lookup keys i j k Hnd Hi Hj').
Qed.

(** X1: the word ids are a one-to-one numbering of the vocabulary.  When
    the vocabulary set is iterated with every word once, a store that
    construction returns has [vocabulary_size] the number of words of the
    vocabulary (at least the three reserved ones), [word_ids] gives an id
    to exactly the words of the vocabulary, every id is below
    [vocabulary_size], no two words share an id, and every number below
    [vocabulary_size] is the id of a word. *)
Theorem word_ids_number_the_vocabulary set_iter nc corpus vf o :
  set_iter (read_vocabulary corpus vf) ≡ₚ elements (read_vocabulary corpus vf) →
  __init__ set_iter nc corpus vf = Ok o →
  vocabulary_size o = size (vocabulary o)
  ∧ (3 ≤ vocabulary_size o)%nat
  ∧ (∀ k, k ∈ vocabulary o ↔ is_Some (word_ids o !! k))
  ∧ (∀ k i, word_ids o !! k = Some i → (i < vocabulary_size o)%nat)
  ∧ (∀ k1 k2 i, word_ids o !! k1 = Some i → word_ids o !! k2 = Some i →
       k1 = k2)
  ∧ (∀ i, (i < vocabulary_size o)%nat → ∃ k, word_ids o !! k = Some i).
Proof.
  intros Hperm Hinit.
  destruct (init_fields _ _ _ _ _ Hinit) as (Hvoc & HV & Hids & _).
  rewrite Hvoc, HV, Hids. clear Hvoc HV Hids Hinit.
  set (voc := read_vocabulary corpus vf) in *.
  assert (length (set_iter voc) = size voc) as Hlen by (by rewrite Hperm).
  assert (NoDup (set_iter voc)) as Hnd
    by (rewrite Hperm; apply NoDup_elements).
  split_and!.
  - done.
  - pose proof (read_vocabulary_reserved corpus vf) as Hres. fold voc in Hres.
    apply subseteq_size in Hres.
    assert (size reserved = 3%nat) as Hthree by (by vm_compute).
    lia.
  - intros k. split.
    + intros Hk. destruct (word_ids_total set_iter voc k Hperm Hk) as (i & -> & _).
      eauto.
    + intros [i Hi]. apply dict_zip_range_lookup in Hi as [Hi _].
      apply list_elem_of_lookup_2 in Hi. rewrite Hperm in Hi.
      by apply elem_of_elements in Hi.
  - intros k i Hi. by apply dict_zip_range_lookup in Hi as [_ ?].
  - intros k1 k2 i. apply dict_zip_range_inj.
  - intros i Hi. rewrite <- Hlen in Hi.
    destruct (lookup_lt_is_Some_2 _ _ Hi) as [k Hk]. exists k.
    rewrite <- Hlen. by apply dict_zip_range_nodup.
Qed.

Lemma word_ids_number_the_vocabulary_witness :
  vocabulary_size example_store = size (vocabulary example_store)
  ∧ (3 ≤ vocabulary_size example_store)%nat
  ∧ (∀ k, k ∈ vocabulary example_store ↔ is_Some (word_ids example_store !! k))
  ∧ (∀ k i, word_ids example_store !! k = Some i →
       (i < vocabulary_size example_store)%nat)
  ∧ (∀ k1 k2 i, word_ids example_store !! k1 = Some i →
       word_ids example_store !! k2 = Some i → k1 = k2)
  ∧ (∀ i, (i < vocabulary_size example_store)%nat →
       ∃ k, word_ids example_store !! k = Some i).
Proof.
  apply (word_ids_number_the_vocabulary elements 1 example_corpus None).
  - reflexivity.
  - exact example_store_init.
Defined.




(** ** The tokens of a line *)







(** ** The word statistics as counts of the corpus *)

(** The number of occurrences of [i] in a list, as an integer. *)
Definition occ {A} `{EqDecision A} (i : A) (l : list A) : Z :=
  sum_list (λ x, ind (x = i)) l.

Lemma occ_bounds {A} `{EqDecision A} (i : A) l :
  0 ≤ occ i l ≤ Z.of_nat (length l).
Proof.
  unfold occ. induction l as [|x l IH]; simpl; [lia|].
  pose proof (ind_range (x = i)). lia.
Qed.

Lemma occ_app {A} `{EqDecision A} (i : A) l1 l2 :
  occ i (l1 ++ l2) = occ i l1 + occ i l2.
Proof. apply sum_list_app. Qed.

Lemma map_res_app {A B} (f : A → res B) l1 l2 ys1 ys2 :
  map_res f l1 = Ok ys1 → map_res f l2 = Ok ys2 →
  map_res f (l1 ++ l2) = Ok (ys1 ++ ys2).
Proof.
  revert ys1. induction l1 as [|x l1 IH]; intros ys1 H1 H2; simpl in *.
  - by injection H1 as <-.
  - apply res_bind_ok in H1 as (y & Hy & H1).
    apply res_bind_ok in H1 as (ys & Hys & H1). injection H1 as <-.
    rewrite Hy. simpl. by rewrite (IH ys Hys H2).
Qed.

(** The cells after the loop of line 64-65. *)
Lemma count_loop_cells sentence wcs wcs' i S :
  for_res sentence (λ word_id wcs, iadd1 wcs word_id 1) wcs = Ok wcs' →
  cell1 wcs i = wrap64 S → cell1 wcs' i = wrap64 (S + occ i sentence).
Proof.
  revert wcs S. induction sentence as [|x sentence IH]; intros wcs S H HS;
    simpl in *.
  - injection H as <-. rewrite HS. f_equal. unfold occ. simpl. lia.
  - apply res_bind_ok in H as (wcs1 & H1 & H).
    apply iadd1_ok in H1 as [Hx ->].
    rewrite (IH _ (S + at1 x 1 i) H) by (by apply acc1).
    f_equal. unfold occ, at1. simpl. lia.
Qed.

(** The cells after the loop of line 66-67. *)
Lemma bigram_loop_cells bs n wws wws' i j S :
  for_res bs (λ lr wws, iadd2 wws lr.1 lr.2 1) wws = Ok wws' →
  shape2 wws n n → cell2 wws i j = wrap64 S →
  cell2 wws' i j = wrap64 (S + occ (i, j) bs).
Proof.
  revert wws S. induction bs as [|[l r] bs IH]; intros wws S H Hs HS;
    simpl in *.
  - injection H as <-. rewrite HS. f_equal. unfold occ. simpl. lia.
  - apply res_bind_ok in H as (wws1 & H1 & H).
    apply (iadd2_ok _ n n) in H1 as (Hl & Hr & ->); [|done].
    rewrite (IH _ (S + at2 l r 1 i j) H);
      [|by apply shape2_upd2|by apply (acc2 _ n n)].
    f_equal. unfold occ, at2. simpl.
    assert (ind ((l, r) = (i, j)) = ind (l = i) * ind (r = j)) as ->.
    { unfold ind. repeat case_decide; simplify_eq; done. }
    lia.
Qed.

(** The ids that the loops of one line index are below the size of the
    arrays. *)
Lemma count_loop_range sentence wcs wcs' :
  for_res sentence (λ word_id wcs, iadd1 wcs word_id 1) wcs = Ok wcs' →
  Forall (λ x, (x < length wcs)%nat) sentence.
Proof.
  revert wcs. induction sentence as [|x sentence IH]; intros wcs H;
    simpl in *; [done|].
  apply res_bind_ok in H as (wcs1 & H1 & H).
  apply iadd1_ok in H1 as [Hx ->]. constructor; [done|].
  apply IH in H. by rewrite length_upd1 in H.
Qed.

(** [_read_word_statistics], cell by cell: counts of ids in the
    bracketed sentences, and counts of pairs in their bigrams. *)
Lemma read_word_statistics_cells voc size ids corpus wcs wws :
  _read_word_statistics voc size ids corpus = Ok (wcs, wws) →
  ∃ sentences,
    map_res (sentence_ids voc ids) corpus = Ok sentences
    ∧ Forall (Forall (λ x, (x < size)%nat)) sentences
    ∧ (∀ i, cell1 wcs i = wrap64 (sum_list (occ i) sentences))
    ∧ (∀ i j, cell2 wws i j
              = wrap64 (sum_list (λ s, occ (i, j) (bigrams s)) sentences)).
Proof.
  intros H. destruct (read_word_statistics_shape _ _ _ _ _ _ H) as [Hlen Hshape].
  unfold _read_word_statistics in H.
  apply res_bind_ok in H as (wcs0 & H0 & H). apply zeros1_ok in H0 as [_ ->].
  apply res_bind_ok in H as (wws0 & H0 & H).
  apply zeros2_ok in H0 as (_ & _ & ->). rewrite Nat2Z.id in H.
  apply (for_res_ok _ _ _ _
    (λ pre st,
       length st.1 = size ∧ shape2 st.2 size size
       ∧ ∃ sentences,
           map_res (sentence_ids voc ids) pre = Ok sentences
           ∧ Forall (Forall (λ x, (x < size)%nat)) sentences
           ∧ (∀ i, cell1 st.1 i = wrap64 (sum_list (occ i) sentences))
           ∧ (∀ i j, cell2 st.2 i j
                = wrap64 (sum_list (λ s, occ (i, j) (bigrams s)) sentences))))
    in H.
  - simpl in H. tauto.
  - simpl. split; [by rewrite length_replicate|].
    split; [apply shape2_replicate|].
    exists []. split_and!; try done.
    + intros i. by rewrite cell1_replicate.
    + intros i j. by rewrite cell2_replicate.
  - clear H. intros pre line post [a b] [a' b'] _
      (Ha & Hb & sentences & Hmap & Hrange & Ea & Eb) H. simpl in *.
    apply res_bind_ok in H as (sentence & Hsen & H).
    apply res_bind_ok in H as (a1 & H1 & H).
    apply res_bind_ok in H as (b1 & H2 & H). injection H as <- <-.
    pose proof (count_loop_range _ _ _ H1) as Hr. rewrite Ha in Hr.
    split_and!.
    + apply (for_res_ok _ _ _ _ (λ _ x, length x = size)) in H1; [done..|].
      intros _ y _ s s1 _ Hs Hy. apply iadd1_ok in Hy as [_ ->].
      by rewrite length_upd1.
    + apply (for_res_ok _ _ _ _ (λ _ x, shape2 x size size)) in H2; [done..|].
      intros _ y _ s s1 _ Hs Hy.
      apply (iadd2_ok _ size size) in Hy as (_ & _ & ->); [|done].
      by apply shape2_upd2.
    + exists (sentences ++ [sentence]). split_and!.
      * apply map_res_app; [done|]. simpl. by rewrite Hsen.
      * apply Forall_app. split; [done|]. by constructor.
      * intros i. rewrite sum_list_app. simpl.
        rewrite (count_loop_cells _ _ _ i _ H1 (Ea i)). f_equal. lia.
      * intros i j. rewrite sum_list_app. simpl.
        rewrite (bigram_loop_cells _ size _ _ i j _ H2 Hb (Eb i j)).
        f_equal. lia.
Qed.



(** The pairs of neighbours of a list. *)
Definition adjacent {A} (l : list A) : list (A * A) := zip l (drop 1 l).

Lemma bigrams_adjacent sentence : bigrams sentence = adjacent sentence.
Proof.
  unfold bigrams, adjacent.
  destruct sentence as [|x l]; [done|]. simpl. rewrite Nat.sub_0_r.
  revert x. induction l as [|y l IH]; intros x; [done|].
  simpl. f_equal. apply IH.
Qed.

Lemma map_res_Forall2 {A B} (f : A → res B) (P : A → B → Prop) l ys :
  map_res f l = Ok ys → (∀ x y, f x = Ok y → P x y) → Forall2 P l ys.
Proof.
  intros H HP. revert ys H. induction l as [|x l IH]; intros ys H; simpl in *.
  - injection H as <-. constructor.
  - apply res_bind_ok in H as (y & Hy & H).
    apply res_bind_ok in H as (ys' & Hys & H). injection H as <-.
    constructor; auto.
Qed.








(** ** Rows and columns of the bigram counts *)

Lemma sumZ_sum_list {A} (f : nat → A → Z) (l : list A) n :
  sumZ (λ j, sum_list (f j) l) n = sum_list (λ x, sumZ (λ j, f j x) n) l.
Proof.
  induction l as [|x l IH]; simpl.
  - apply sumZ_zero.
  - by rewrite sumZ_plus, IH.
Qed.

Lemma sum_list_minus {A} (f g : A → Z) l :
  sum_list (λ x, f x - g x) l = sum_list f l - sum_list g l.
Proof. induction l as [|x l IH]; simpl; lia. Qed.

Lemma sum_list_const {A} (c : Z) (l : list A) :
  sum_list (λ _, c) l = c * Z.of_nat (length l).
Proof. induction l as [|x l IH]; simpl; lia. Qed.

Lemma sum_list_bounds {A} (f g : A → Z) l :
  (∀ x, x ∈ l → 0 ≤ f x ≤ g x) → 0 ≤ sum_list f l ≤ sum_list g l.
Proof.
  induction l as [|x l IH]; intros H; simpl; [lia|].
  pose proof (H x ltac:(by left)).
  destruct IH; [intros y Hy; apply H; by right|]. lia.
Qed.

Lemma zip_app_short {A B} (l k : list A) (r : list B) :
  (length r ≤ length l)%nat → zip (l ++ k) r = zip l r.
Proof.
  revert r. induction l as [|a l IH]; intros r Hr; simpl in *.
  - destruct r; [by destruct k|simpl in Hr; lia].
  - destruct r as [|b r]; [done|]. simpl in *. f_equal. apply IH. lia.
Qed.

Lemma ind_pair (a b i j : nat) :
  ind ((a, b) = (i, j)) = ind (a = i) * ind (b = j).
Proof. unfold ind. repeat case_decide; simplify_eq; done. Qed.

(** The pairs of a zip with a given left, or right, component. *)
Lemma occ_zip_left (l r : list nat) n i :
  length l = length r → Forall (λ x, (x < n)%nat) r →
  sumZ (λ j, occ (i, j) (zip l r)) n = occ i l.
Proof.
  revert r. induction l as [|a l IH]; intros r Hlen Hr.
  - simpl. apply sumZ_zero.
  - destruct r as [|b r]; [done|]. simpl in Hlen.
    apply Forall_cons in Hr as [Hb Hr]. unfold occ in *. simpl.
    rewrite sumZ_plus, IH by (done || lia). f_equal.
    rewrite (sumZ_ext _ (λ j, ind (j = b) * ind (a = i))).
    + by apply (sumZ_pick (λ _, ind (a = i))).
    + intros j _. rewrite ind_pair.
      rewrite (ind_ext (b = j) (j = b)) by done. lia.
Qed.

Lemma occ_zip_right (l r : list nat) n i :
  length l = length r → Forall (λ x, (x < n)%nat) l →
  sumZ (λ j, occ (j, i) (zip l r)) n = occ i r.
Proof.
  revert r. induction l as [|a l IH]; intros r Hlen Hl.
  - destruct r; [|done]. simpl. apply sumZ_zero.
  - destruct r as [|b r]; [done|]. simpl in Hlen.
    apply Forall_cons in Hl as [Ha Hl]. unfold occ in *. simpl.
    rewrite sumZ_plus, IH by (done || lia). f_equal.
    rewrite (sumZ_ext _ (λ j, ind (j = a) * ind (b = i))).
    + by apply (sumZ_pick (λ _, ind (b = i))).
    + intros j _. rewrite ind_pair.
      rewrite (ind_ext (a = j) (j = a)) by done. lia.
Qed.

(** The bigrams of a bracketed sentence, by their first and by their
    second id. *)
Lemma bigrams_of_sentence (bos eos : nat) ws n i :
  Forall (λ x, (x < n)%nat) (bos :: ws ++ [eos]) →
  let s := bos :: ws ++ [eos] in
  sumZ (λ j, occ (i, j) (bigrams s)) n = occ i s - ind (eos = i)
  ∧ sumZ (λ j, occ (j, i) (bigrams s)) n = occ i s - ind (bos = i).
Proof.
  intros Hs s.
  assert (bigrams s = zip (bos :: ws) (ws ++ [eos])) as ->.
  { rewrite bigrams_adjacent. unfold adjacent, s. simpl drop.
    rewrite app_comm_cons. apply zip_app_short.
    rewrite length_app. simpl. lia. }
  apply Forall_cons in Hs as [Hbos Hs].
  apply Forall_app in Hs as [Hws Heos].
  split.
  - rewrite occ_zip_left; [| |by apply Forall_app].
    + unfold s. rewrite app_comm_cons, occ_app. unfold occ at 3. simpl. lia.
    + rewrite length_app. simpl. lia.
  - rewrite occ_zip_right; [| |by constructor].
    + unfold s, occ. simpl. lia.
    + rewrite length_app. simpl. lia.
Qed.

Lemma sentence_ids_shape voc ids line sentence :
  sentence_ids voc ids line = Ok sentence →
  ∃ bos ws eos,
    ids !! "<s>" = Some bos ∧ ids !! "</s>" = Some eos
    ∧ sentence = bos :: ws ++ [eos].
Proof.
  unfold sentence_ids. intros H.
  apply res_bind_ok in H as (bos & Hbos & H). apply dict_get_ok in Hbos.
  apply res_bind_ok in H as (ws & Hws & H).
  apply res_bind_ok in H as (eos & Heos & H). apply dict_get_ok in Heos.
  injection H as <-. by exists bos, ws, eos.
Qed.

Lemma sentences_tokens voc ids corpus sentences :
  map_res (sentence_ids voc ids) corpus = Ok sentences →
  sum_list (λ s, Z.of_nat (length s)) sentences = tokens corpus
  ∧ length sentences = length corpus.
Proof.
  revert sentences. induction corpus as [|line corpus IH]; intros ss H;
    simpl in *.
  - by injection H as <-.
  - apply res_bind_ok in H as (s & Hs & H).
    apply res_bind_ok in H as (ss' & Hss & H). injection H as <-.
    apply sentence_ids_length in Hs. destruct (IH _ Hss) as [IH1 IH2].
    simpl. rewrite IH1, IH2, Hs. split; lia.
Qed.

(** The word statistics without wrap-around, and their row and column
    sums, for a corpus of fewer than 2^63 tokens. *)
Lemma read_word_statistics_marginals voc size ids corpus wcs wws bos eos :
  _read_word_statistics voc size ids corpus = Ok (wcs, wws) →
  tokens corpus < 2 ^ 63 →
  ids !! "<s>" = Some bos → ids !! "</s>" = Some eos →
  ∀ i,
    sumZ (λ j, cell2 wws i j) size
    = cell1 wcs i - ind (i = eos) * Z.of_nat (length corpus)
    ∧ sumZ (λ j, cell2 wws j i) size
      = cell1 wcs i - ind (i = bos) * Z.of_nat (length corpus).
Proof.
  intros Hread Hb Hbos Heos i.
  destruct (read_word_statistics_cells _ _ _ _ _ _ Hread)
    as (sentences & Hmap & Hrange & Ecell1 & Ecell2).
  destruct (sentences_tokens _ _ _ _ Hmap) as [Htok Hlen].
  assert (∀ i, cell1 wcs i = sum_list (occ i) sentences) as E1.
  { intros x. rewrite Ecell1. apply wrap64_id.
    destruct (sum_list_bounds (occ x) (λ s, Z.of_nat (length s)) sentences)
      as [? ?]; [intros; apply occ_bounds|].
    unfold is_int64. lia. }
  assert (∀ i j, cell2 wws i j
                 = sum_list (λ s, occ (i, j) (bigrams s)) sentences) as E2.
  { intros x y. rewrite Ecell2. apply wrap64_id.
    destruct (sum_list_bounds (λ s, occ (x, y) (bigrams s))
                (λ s, Z.of_nat (length s)) sentences) as [? ?].
    - intros s _. pose proof (occ_bounds (x, y) (bigrams s)) as Hocc.
      rewrite length_bigrams in Hocc. lia.
    - unfold is_int64. lia. }
  assert (Forall (λ s, ∃ ws, s = bos :: ws ++ [eos]) sentences) as Hshape.
  { apply Forall_forall. intros s Hs.
    apply (map_res_Forall2 _ (λ line s, ∃ ws, s = bos :: ws ++ [eos]))
      in Hmap.
    - apply Forall2_Forall_r with (Q := λ s, ∃ ws, s = bos :: ws ++ [eos])
        in Hmap; [by rewrite Forall_forall in Hmap; apply Hmap|].
      apply Forall_forall. auto.
    - intros line s' Hs'. apply sentence_ids_shape in Hs'
        as (bos' & ws & eos' & Hb' & He' & ->).
      exists ws. congruence. }
  rewrite Forall_forall in Hshape, Hrange.
  split.
  - rewrite (sumZ_ext _ (λ j, sum_list (λ s, occ (i, j) (bigrams s)) sentences))
      by (intros; apply E2).
    rewrite sumZ_sum_list, E1.
    rewrite (sum_list_ext _ (λ s, occ i s - ind (i = eos))).
    + rewrite sum_list_minus, sum_list_const, Hlen. done.
    + intros s Hs. destruct (Hshape s Hs) as [ws ->].
      rewrite (proj1 (bigrams_of_sentence bos eos ws size i (Hrange _ Hs))).
      by rewrite (ind_ext (eos = i) (i = eos)).
  - rewrite (sumZ_ext _ (λ j, sum_list (λ s, occ (j, i) (bigrams s)) sentences))
      by (intros; apply E2).
    rewrite sumZ_sum_list, E1.
    rewrite (sum_list_ext _ (λ s, occ i s - ind (i = bos))).
    + rewrite sum_list_minus, sum_list_const, Hlen. done.
    + intros s Hs. destruct (Hshape s Hs) as [ws ->].
      rewrite (proj2 (bigrams_of_sentence bos eos ws size i (Hrange _ Hs))).
      by rewrite (ind_ext (bos = i) (i = bos)).
Qed.

(** ** The initial classes *)

Lemma next_class_id_three ncls : 5 ≤ ncls → next_class_id ncls 3 = Ok 3%nat.
Proof.
  intros H. unfold next_class_id. rewrite decide_False by lia.
  rewrite Z.mod_small by lia. by rewrite Z.min_r by lia.
Qed.

(** The assignment that [_freq_init_classes] returns: the three reserved
    words in the classes 0, 1 and 2, and, when there are five classes or
    more, every other word in class 3. *)
Lemma freq_init_classes_assignment keys nc size wcs ncls w2c c2w :
  length wcs = size →
  _freq_init_classes nc size (dict_zip_range keys size) wcs
    = Ok (ncls, w2c, c2w) →
  ∃ w1 w2 w3,
    dict_zip_range keys size !! "<s>" = Some w1
    ∧ dict_zip_range keys size !! "</s>" = Some w2
    ∧ dict_zip_range keys size !! "<UNK>" = Some w3
    ∧ w2c !! w1 = Some (Some 0%nat)
    ∧ w2c !! w2 = Some (Some 1%nat)
    ∧ w2c !! w3 = Some (Some 2%nat)
    ∧ (2 ≤ nc → ∀ i, (i < size)%nat → i ≠ w1 → i ≠ w2 → i ≠ w3 →
         w2c !! i = Some (Some 3%nat)).
Proof.
  intros Hwcs H.
  destruct (freq_init_classes_ok _ _ _ _ _ _ _ Hwcs H)
    as (-> & Hlen & _ & _ & Hok).
  unfold _freq_init_classes in H.
  set (ids := dict_zip_range keys size) in *.
  set (Cn := Z.to_nat (nc + 3)) in *.
  pose proof (init_inv_initial size Cn 3) as H0.
  apply res_bind_ok in H as (s1 & H1 & H).
  apply (assign_reserved_inv size Cn) in H1
    as (w1 & Hw1 & I1 & E1 & C1); [|done|]; simpl in *.
  2:{ intros w Hw. apply dict_zip_range_lookup in Hw as [_ Hw].
      by apply lookup_replicate_2. }
  apply res_bind_ok in H as (s2 & H2 & H).
  assert (∀ w, ids !! "</s>" = Some w → w ≠ w1) as N21.
  { intros w Hw ->. by pose proof (dict_zip_range_inj _ _ _ _ _ Hw Hw1). }
  apply (assign_reserved_inv size Cn) in H2
    as (w2 & Hw2 & I2 & E2 & C2); [|done|].
  2:{ intros w Hw. rewrite E1, list_lookup_insert_ne by (by apply not_eq_sym, N21).
      apply dict_zip_range_lookup in Hw as [_ Hw].
      by apply lookup_replicate_2. }
  apply res_bind_ok in H as (s3 & H3 & H).
  assert (∀ w, ids !! "<UNK>" = Some w → w ≠ w1 ∧ w ≠ w2) as N3.
  { intros w Hw. split; intros ->.
    - by pose proof (dict_zip_range_inj _ _ _ _ _ Hw Hw1).
    - by pose proof (dict_zip_range_inj _ _ _ _ _ Hw Hw2). }
  apply (assign_reserved_inv size Cn) in H3
    as (w3 & Hw3 & I3 & E3 & C3); [|done|].
  2:{ intros w Hw. destruct (N3 w Hw) as [? ?].
      rewrite E2, list_lookup_insert_ne by done.
      rewrite E1, list_lookup_insert_ne by done.
      apply dict_zip_range_lookup in Hw as [_ Hw].
      by apply lookup_replicate_2. }
  destruct (N3 w3 Hw3) as [N31 N32]. pose proof (N21 w2 Hw2) as N21'.
  pose proof (proj2 (dict_zip_range_lookup _ _ _ _ Hw1)) as L1.
  pose proof (proj2 (dict_zip_range_lookup _ _ _ _ Hw2)) as L2.
  pose proof (proj2 (dict_zip_range_lookup _ _ _ _ Hw3)) as L3.
  assert (i_word_to_class s3
          = <[w3 := Some 2%nat]> (<[w2 := Some 1%nat]>
              (<[w1 := Some 0%nat]> (replicate size None)))) as E
    by (by rewrite E3, E2, E1).
  assert (i_class_id s3 = 3%nat) as C by congruence.
  clear E1 E2 E3 C1 C2 C3 I1 I2.
  apply res_bind_ok in H as (s4 & H4 & H). injection H as <-.
  apply (for_res_ok _ _ _ _
    (λ (pre : list (nat * Z)) s,
       (∀ w c, i_word_to_class s3 !! w = Some (Some c) →
               i_word_to_class s !! w = Some (Some c))
       ∧ (2 ≤ nc → i_class_id s = 3%nat
          ∧ ∀ w c, i_word_to_class s !! w = Some (Some c) →
                   i_word_to_class s3 !! w = Some (Some c) ∨ c = 3%nat)))
    in H4.
  - destruct H4 as [Hmono Hthree].
    exists w1, w2, w3. split_and!; try done.
    + apply Hmono. rewrite E.
      rewrite list_lookup_insert_ne, list_lookup_insert_ne by done.
      apply list_lookup_insert_eq. by rewrite length_replicate.
    + apply Hmono. rewrite E. rewrite list_lookup_insert_ne by done.
      apply list_lookup_insert_eq. by rewrite length_insert, length_replicate.
    + apply Hmono. rewrite E. apply list_lookup_insert_eq.
      by rewrite !length_insert, length_replicate.
    + intros Hnc i Hi Hi1 Hi2 Hi3.
      destruct (classes_ok_at _ _ i Hok) as [Hc _]; [lia|].
      destruct (Hthree Hnc) as [_ Hcases].
      destruct (Hcases i _ Hc) as [Hc3|Hc3]; [|by rewrite Hc3 in Hc].
      rewrite E in Hc3. rewrite !list_lookup_insert_ne in Hc3 by done.
      by apply lookup_replicate in Hc3 as [? _].
  - split; [done|]. intros Hnc. split; [done|]. auto.
  - intros pre x post s s' _ [Hmono Hthree] Hstep.
    unfold freq_init_step in Hstep.
    apply res_bind_ok in Hstep as (cur & Hcur & Hstep).
    apply getitem_ok in Hcur. destruct cur as [c0|].
    { injection Hstep as <-. done. }
    apply res_bind_ok in Hstep as (w2c' & Hset & Hstep).
    apply res_bind_ok in Hstep as (c2w' & _ & Hstep).
    apply res_bind_ok in Hstep as (cid & Hcid & Hstep). injection Hstep as <-.
    apply setitem_ok in Hset as [Hlt ->]. simpl. split.
    + intros w c Hw. apply Hmono in Hw.
      destruct (decide (w = x.1)) as [->|Hne]; [congruence|].
      by rewrite list_lookup_insert_ne.
    + intros Hnc. destruct (Hthree Hnc) as [Hid Hcases].
      rewrite Hid in Hcid. rewrite next_class_id_three in Hcid by lia.
      injection Hcid as <-. split; [done|].
      intros w c. destruct (decide (w = x.1)) as [->|Hne].
      * rewrite list_lookup_insert_eq by done. intros [= <-]. by right.
      * rewrite list_lookup_insert_ne by done. apply Hcases.
Qed.

Lemma class_set_of_word o w c :
  wf o → word_to_class o !! w = Some (Some c) →
  ∃ s, class_to_words o !! c = Some s ∧ w ∈ s.
Proof.
  intros Hwf Hw.
  assert (c < nclasses o)%nat as Hc.
  { pose proof (wf_classes o Hwf) as Hall. rewrite Forall_lookup in Hall.
    destruct (Hall w _ Hw) as (c' & [= <-] & Hlt). done. }
  destruct (lookup_lt_is_Some_2 (class_to_words o) c) as [s Hs].
  { by rewrite (wf_class_to_words o Hwf). }
  exists s. split; [done|]. by apply (wf_inverse o Hwf c s Hs).
Qed.

(** X5: whenever construction returns a store, the three reserved words
    have ids, and in the initial assignment "<s>" is in class 0, "</s>" in
    class 1 and "<UNK>" in class 2, in [word_to_class] and in
    [class_to_words]. *)
Theorem reserved_words_get_reserved_classes set_iter nc corpus vf o :
  __init__ set_iter nc corpus vf = Ok o →
  ∃ w1 w2 w3 s0 s1 s2,
    word_ids o !! "<s>" = Some w1
    ∧ word_ids o !! "</s>" = Some w2
    ∧ word_ids o !! "<UNK>" = Some w3
    ∧ word_to_class o !! w1 = Some (Some 0%nat)
    ∧ word_to_class o !! w2 = Some (Some 1%nat)
    ∧ word_to_class o !! w3 = Some (Some 2%nat)
    ∧ class_to_words o !! 0%nat = Some s0 ∧ w1 ∈ s0
    ∧ class_to_words o !! 1%nat = Some s1 ∧ w2 ∈ s1
    ∧ class_to_words o !! 2%nat = Some s2 ∧ w3 ∈ s2.
Proof.
  intros Hinit.
  destruct (init_wf _ _ _ _ _ Hinit) as [Hwf _].
  destruct (init_fields _ _ _ _ _ Hinit) as (_ & HV & Hids & Hread & Hfreq & _).
  apply read_word_statistics_shape in Hread as [Hwcs _].
  destruct (freq_init_classes_assignment _ _ _ _ _ _ _ Hwcs Hfreq)
    as (w1 & w2 & w3 & H1 & H2 & H3 & C1 & C2 & C3 & _).
  rewrite <- Hids in H1, H2, H3.
  destruct (class_set_of_word o w1 0 Hwf C1) as (s0 & Hs0 & Hin0).
  destruct (class_set_of_word o w2 1 Hwf C2) as (s1 & Hs1 & Hin1).
  destruct (class_set_of_word o w3 2 Hwf C3) as (s2 & Hs2 & Hin2).
  exists w1, w2, w3, s0, s1, s2. by split_and!.
Qed.

Lemma reserved_words_get_reserved_classes_witness :
  ∃ w1 w2 w3 s0 s1 s2,
    word_ids example_store !! "<s>" = Some w1
    ∧ word_ids example_store !! "</s>" = Some w2
    ∧ word_ids example_store !! "<UNK>" = Some w3
    ∧ word_to_class example_store !! w1 = Some (Some 0%nat)
    ∧ word_to_class example_store !! w2 = Some (Some 1%nat)
    ∧ word_to_class example_store !! w3 = Some (Some 2%nat)
    ∧ class_to_words example_store !! 0%nat = Some s0 ∧ w1 ∈ s0
    ∧ class_to_words example_store !! 1%nat = Some s1 ∧ w2 ∈ s1
    ∧ class_to_words example_store !! 2%nat = Some s2 ∧ w3 ∈ s2.
Proof.
  apply (reserved_words_get_reserved_classes elements 1 example_corpus None).
  exact example_store_init.
Defined.

(** X6: with [num_classes >= 2] (five classes or more) the initial
    assignment uses class 3 only.  Whenever construction returns a store,
    every word of the vocabulary other than the three reserved words is in
    class 3, and every class from 4 on is empty: line 93 keeps
    [class_id] at [min(4 % num_classes, 3) = 3]. *)
Theorem initial_classes_beyond_3_are_empty set_iter nc corpus vf o :
  2 ≤ nc → __init__ set_iter nc corpus vf = Ok o →
  (∀ k i, word_ids o !! k = Some i → k ∉ reserved →
     word_to_class o !! i = Some (Some 3%nat))
  ∧ (∀ c, (4 ≤ c < nclasses o)%nat → class_to_words o !! c = Some ∅).
Proof.
  intros Hnc Hinit.
  destruct (init_wf _ _ _ _ _ Hinit) as [Hwf _].
  destruct (init_fields _ _ _ _ _ Hinit) as (_ & HV & Hids & Hread & Hfreq & _).
  apply read_word_statistics_shape in Hread as [Hwcs _].
  destruct (freq_init_classes_assignment _ _ _ _ _ _ _ Hwcs Hfreq)
    as (w1 & w2 & w3 & H1 & H2 & H3 & C1 & C2 & C3 & Hrest).
  rewrite <- Hids in H1, H2, H3. specialize (Hrest Hnc).
  assert (∀ i c, word_to_class o !! i = Some (Some c) → (c ≤ 3)%nat) as Hle.
  { intros i c Hc.
    assert (i < size (read_vocabulary corpus vf))%nat as Hi.
    { apply lookup_lt_Some in Hc.
      rewrite (wf_word_to_class o Hwf) in Hc. unfold nwords in Hc. lia. }
    destruct (decide (i = w1)) as [->|N1]; [rewrite C1 in Hc; simplify_eq; lia|].
    destruct (decide (i = w2)) as [->|N2]; [rewrite C2 in Hc; simplify_eq; lia|].
    destruct (decide (i = w3)) as [->|N3]; [rewrite C3 in Hc; simplify_eq; lia|].
    rewrite (Hrest i Hi N1 N2 N3) in Hc. simplify_eq. lia. }
  split.
  - intros k i Hk Hres. rewrite Hids in Hk, H1, H2, H3.
    pose proof (proj2 (dict_zip_range_lookup _ _ _ _ Hk)) as Hi.
    apply Hrest; [done|..]; intros ->.
    + apply Hres. rewrite (dict_zip_range_inj _ _ _ _ _ Hk H1). set_solver.
    + apply Hres. rewrite (dict_zip_range_inj _ _ _ _ _ Hk H2). set_solver.
    + apply Hres. rewrite (dict_zip_range_inj _ _ _ _ _ Hk H3). set_solver.
  - intros c Hc.
    destruct (lookup_lt_is_Some_2 (class_to_words o) c) as [s Hs].
    { rewrite (wf_class_to_words o Hwf). lia. }
    rewrite Hs. f_equal. apply set_eq. intros w.
    rewrite (wf_inverse o Hwf c s Hs w). split; [|set_solver].
    intros Hw. apply Hle in Hw. lia.
Qed.

Lemma initial_classes_beyond_3_are_empty_witness :
  ∃ o, __init__ elements 2 example_corpus None = Ok o
    ∧ (∀ k i, word_ids o !! k = Some i → k ∉ reserved →
         word_to_class o !! i = Some (Some 3%nat))
    ∧ (∀ c, (4 ≤ c < nclasses o)%nat → class_to_words o !! c = Some ∅).
Proof.
  destruct (__init__ elements 2 example_corpus None) as [o|e] eqn:E;
    [|by vm_compute in E].
  exists o. split; [done|].
  apply (initial_classes_beyond_3_are_empty elements 2 example_corpus None o);
    [lia|exact E].
Defined.

(** ** The order in which the words are given their classes *)

Definition count_then_id (x y : nat * Z) : Prop :=
  x.2 < y.2 ∨ (x.2 = y.2 ∧ (x.1 < y.1)%nat).

(** Every element stands in [R] to all the later ones. *)
Fixpoint ordered {A} (R : A → A → Prop) (l : list A) : Prop :=
  match l with
  | [] => True
  | x :: l' => Forall (R x) l' ∧ ordered R l'
  end.

Lemma ordered_lookup {A} (R : A → A → Prop) l p q x y :
  ordered R l → l !! p = Some x → l !! q = Some y → (p < q)%nat → R x y.
Proof.
  revert p q. induction l as [|a l IH]; intros p q Hord Hp Hq Hlt; [done|].
  destruct Hord as [Ha Hl]. destruct q as [|q]; [lia|]. simpl in Hq. destruct p as [|p].
  - injection Hp as <-. rewrite Forall_forall in Ha.
    apply Ha. by apply list_elem_of_lookup_2 in Hq.
  - simpl in Hp. apply (IH p q); [done..|lia].
Qed.

Lemma insert_by_count_ordered x l :
  ordered count_then_id l → Forall (λ y, (x.1 < y.1)%nat) l →
  ordered count_then_id (insert_by_count x l).
Proof.
  induction l as [|y l IH]; intros Hl Hx; simpl.
  - by repeat constructor.
  - destruct Hl as [Hy Hl]. apply Forall_cons in Hx as [Hxy Hx].
    destruct (Z.leb_spec x.2 y.2) as [Hle|Hgt]; simpl.
    + split; [|done]. constructor.
      * unfold count_then_id. lia.
      * rewrite Forall_forall in Hy, Hx. apply Forall_forall. intros z Hz.
        specialize (Hy z Hz). specialize (Hx z Hz).
        unfold count_then_id in *. lia.
    + split; [|by apply IH].
      rewrite insert_by_count_perm. constructor; [|done].
      unfold count_then_id. lia.
Qed.

Lemma sorted_by_count_ordered l :
  ordered (λ x y : nat * Z, (x.1 < y.1)%nat) l →
  ordered count_then_id (sorted_by_count l).
Proof.
  induction l as [|x l IH]; simpl; [done|]. intros [Hx Hl].
  apply insert_by_count_ordered; [by apply IH|].
  fold (sorted_by_count l). by rewrite sorted_by_count_perm.
Qed.

Lemma enumerate_from_ordered {A} (l : list A) n :
  ordered (λ x y : nat * A, (x.1 < y.1)%nat)
    (imap (λ i x, (n + i, x)%nat) l).
Proof.
  revert n. induction l as [|a l IH]; intros n; simpl; [done|].
  split.
  - apply Forall_forall. intros y Hy.
    apply list_elem_of_lookup in Hy as [i Hi].
    rewrite list_lookup_imap in Hi.
    destruct (l !! i); simplify_eq/=. lia.
  - rewrite (imap_ext _ (λ i x, (S n + i, x)%nat)); [apply IH|].
    intros i x _. simpl. f_equal. lia.
Qed.

Lemma sorted_enumerate_ids (wcs : list Z) :
  (sorted_by_count (enumerate wcs)).*1 ≡ₚ seq 0 (length wcs).
Proof.
  rewrite sorted_by_count_perm. unfold enumerate.
  assert (∀ n, (imap (λ i x, (n + i, x)%nat) wcs).*1 = seq n (length wcs))
    as Hseq.
  { induction wcs as [|a l IH]; intros n; simpl; [done|].
    f_equal; [lia|]. rewrite <- (IH (S n)). f_equal.
    apply imap_ext. intros i x _. simpl. f_equal. lia. }
  by rewrite <- (Hseq 0%nat).
Qed.

(** X7: the loop of [_freq_init_classes] (lines 86-87) visits every word
    id once, in ascending order of its count, and words of equal count in
    ascending order of their ids (Python's sort is stable). *)
Theorem words_visited_by_ascending_count (wcs : list Z) :
  let order := sorted_by_count (enumerate wcs) in
  order ≡ₚ enumerate wcs
  ∧ order.*1 ≡ₚ seq 0 (length wcs)
  ∧ ∀ p q x y, order !! p = Some x → order !! q = Some y → (p < q)%nat →
      x.2 < y.2 ∨ (x.2 = y.2 ∧ (x.1 < y.1)%nat).
Proof.
  split_and!.
  - apply sorted_by_count_perm.
  - apply sorted_enumerate_ids.
  - intros p q x y. apply (ordered_lookup count_then_id).
    apply sorted_by_count_ordered. apply (enumerate_from_ordered wcs 0).
Qed.

(** ** The initial classes, word by word *)

(** The value of [class_id] after k assignments: 3 at first, then as
    line 93 computes it. *)
Fixpoint class_seq (ncls : Z) (k : nat) : nat :=
  match k with
  | O => 3
  | S k' => Z.to_nat (Z.min ((Z.of_nat (class_seq ncls k') + 1) mod ncls) 3)
  end.

Lemma class_seq_five ncls k : 5 ≤ ncls → class_seq ncls k = 3%nat.
Proof.
  intros H. induction k as [|k IH]; simpl; [done|].
  rewrite IH. rewrite Z.mod_small by lia. lia.
Qed.

Lemma class_seq_four k : class_seq 4 k = ((3 + k) mod 4)%nat.
Proof.
  induction k as [|k IH]; [done|].
  cbn [class_seq]. rewrite IH.
  pose proof (Nat.mod_upper_bound (3 + k) 4 ltac:(lia)) as Hlt.
  pose proof (Z.mod_pos_bound (Z.of_nat ((3 + k) mod 4) + 1) 4 ltac:(lia)) as Hb.
  rewrite Z.min_l by lia.
  replace (3 + S k)%nat with (S (3 + k)) by lia.
  apply Nat2Z.inj. rewrite Z2Nat.id by lia.
  rewrite !Nat2Z.inj_mod. change (Z.of_nat 4) with 4.
  rewrite Zplus_mod_idemp_l. f_equal. lia.
Qed.

Lemma next_class_id_ok ncls c c' :
  next_class_id ncls c = Ok c' →
  c' = Z.to_nat (Z.min ((Z.of_nat c + 1) mod ncls) 3).
Proof. unfold next_class_id. case_decide; [done|]. by intros [= <-]. Qed.

(** The words that the loop of lines 86-93 assigns, in the order of their
    assignment: the k-th of them gets the k-th value of [class_id]. *)
Lemma freq_init_classes_sequence keys nc size wcs ncls w2c c2w :
  length wcs = size →
  _freq_init_classes nc size (dict_zip_range keys size) wcs
    = Ok (ncls, w2c, c2w) →
  ∃ w1 w2 w3,
    dict_zip_range keys size !! "<s>" = Some w1
    ∧ dict_zip_range keys size !! "</s>" = Some w2
    ∧ dict_zip_range keys size !! "<UNK>" = Some w3
    ∧ ∀ k x,
        filter (λ x : nat * Z, x.1 ≠ w1 ∧ x.1 ≠ w2 ∧ x.1 ≠ w3)
          (sorted_by_count (enumerate wcs)) !! k = Some x →
        w2c !! x.1 = Some (Some (class_seq (nc + 3) k)).
Proof.
  intros Hwcs H. unfold _freq_init_classes in H.
  set (ids := dict_zip_range keys size) in *.
  set (Cn := Z.to_nat (nc + 3)) in *.
  pose proof (init_inv_initial size Cn 3) as H0.
  apply res_bind_ok in H as (s1 & H1 & H).
  apply (assign_reserved_inv size Cn) in H1
    as (w1 & Hw1 & I1 & E1 & C1); [|done|]; simpl in *.
  2:{ intros w Hw. apply dict_zip_range_lookup in Hw as [_ Hw].
      by apply lookup_replicate_2. }
  apply res_bind_ok in H as (s2 & H2 & H).
  assert (∀ w, ids !! "</s>" = Some w → w ≠ w1) as N21.
  { intros w Hw ->. by pose proof (dict_zip_range_inj _ _ _ _ _ Hw Hw1). }
  apply (assign_reserved_inv size Cn) in H2
    as (w2 & Hw2 & I2 & E2 & C2); [|done|].
  2:{ intros w Hw. rewrite E1, list_lookup_insert_ne by (by apply not_eq_sym, N21).
      apply dict_zip_range_lookup in Hw as [_ Hw].
      by apply lookup_replicate_2. }
  apply res_bind_ok in H as (s3 & H3 & H).
  assert (∀ w, ids !! "<UNK>" = Some w → w ≠ w1 ∧ w ≠ w2) as N3.
  { intros w Hw. split; intros ->.
    - by pose proof (dict_zip_range_inj _ _ _ _ _ Hw Hw1).
    - by pose proof (dict_zip_range_inj _ _ _ _ _ Hw Hw2). }
  apply (assign_reserved_inv size Cn) in H3
    as (w3 & Hw3 & I3 & E3 & C3); [|done|].
  2:{ intros w Hw. destruct (N3 w Hw) as [? ?].
      rewrite E2, list_lookup_insert_ne by done.
      rewrite E1, list_lookup_insert_ne by done.
      apply dict_zip_range_lookup in Hw as [_ Hw].
      by apply lookup_replicate_2. }
  destruct (N3 w3 Hw3) as [N31 N32]. pose proof (N21 w2 Hw2) as N21'.
  pose proof (proj2 (dict_zip_range_lookup _ _ _ _ Hw1)) as L1.
  pose proof (proj2 (dict_zip_range_lookup _ _ _ _ Hw2)) as L2.
  pose proof (proj2 (dict_zip_range_lookup _ _ _ _ Hw3)) as L3.
  assert (i_word_to_class s3
          = <[w3 := Some 2%nat]> (<[w2 := Some 1%nat]>
              (<[w1 := Some 0%nat]> (replicate size None)))) as E
    by (by rewrite E3, E2, E1).
  assert (i_class_id s3 = 3%nat) as C by congruence.
  clear E1 E2 E3 C1 C2 C3 I1 I2.
  set (unres := λ x : nat * Z, x.1 ≠ w1 ∧ x.1 ≠ w2 ∧ x.1 ≠ w3).
  assert (∀ x : nat * Z, unres x → (x.1 < size)%nat →
            i_word_to_class s3 !! x.1 = Some None) as Hfree.
  { intros x (?&?&?) Hx. rewrite E, !list_lookup_insert_ne by done.
    by apply lookup_replicate_2. }
  assert (∀ x : nat * Z, ¬ unres x →
            ∃ c, i_word_to_class s3 !! x.1 = Some (Some c)) as Htaken.
  { intros x Hx. rewrite E.
    destruct (decide (x.1 = w3)) as [->|?].
    { eexists. apply list_lookup_insert_eq.
      by rewrite !length_insert, length_replicate. }
    rewrite list_lookup_insert_ne by done.
    destruct (decide (x.1 = w2)) as [->|?].
    { eexists. apply list_lookup_insert_eq.
      by rewrite !length_insert, length_replicate. }
    rewrite list_lookup_insert_ne by done.
    destruct (decide (x.1 = w1)) as [->|?].
    { eexists. apply list_lookup_insert_eq. by rewrite length_replicate. }
    destruct Hx. by split_and!. }
  apply res_bind_ok in H as (s4 & H4 & H). injection H as <- <- <-.
  pose proof (sorted_enumerate_ids wcs) as Hperm.
  assert (NoDup (sorted_by_count (enumerate wcs)).*1) as Hnd
    by (rewrite Hperm; apply NoDup_seq).
  assert (Forall (λ x : nat * Z, (x.1 < size)%nat)
            (sorted_by_count (enumerate wcs))) as Hrange.
  { apply Forall_forall. intros x Hx. rewrite <- Hwcs.
    by apply sorted_enumerate_range. }
  exists w1, w2, w3. split_and!; [done..|]. fold unres.
  apply (for_res_ok _ _ _ _
    (λ (pre : list (nat * Z)) s,
       i_class_id s = class_seq (nc + 3) (length (filter unres pre))
       ∧ (∀ k x, filter unres pre !! k = Some x →
            i_word_to_class s !! x.1 = Some (Some (class_seq (nc + 3) k)))
       ∧ (∀ w, w ∉ pre.*1 ∨ ¬ (w ≠ w1 ∧ w ≠ w2 ∧ w ≠ w3) →
            i_word_to_class s !! w = i_word_to_class s3 !! w)))
    in H4.
  - apply H4.
  - split_and!; [done| |done]. intros k x Hk. rewrite filter_nil in Hk.
    by rewrite lookup_nil in Hk.
  - intros pre x post s s' Hxs (Ia & Ib & Ic) Hstep.
    assert (x.1 ∉ pre.*1) as Hfresh.
    { rewrite Hxs, fmap_app, fmap_cons in Hnd.
      apply NoDup_app in Hnd as (_ & Hnd & _). intros Hin.
      apply (Hnd _ Hin). by left. }
    assert (x.1 < size)%nat as Hx.
    { rewrite Forall_forall in Hrange. apply Hrange. rewrite Hxs.
      apply elem_of_app. right. by left. }
    unfold freq_init_step in Hstep.
    apply res_bind_ok in Hstep as (cur & Hcur & Hstep).
    apply getitem_ok in Hcur. rewrite (Ic x.1 (or_introl Hfresh)) in Hcur.
    rewrite filter_app, filter_cons, filter_nil.
    destruct (decide (unres x)) as [Hun|Hres].
    + rewrite (Hfree x Hun Hx) in Hcur. injection Hcur as <-.
      apply res_bind_ok in Hstep as (w2c' & Hset & Hstep).
      apply res_bind_ok in Hstep as (c2w' & _ & Hstep).
      apply res_bind_ok in Hstep as (cid & Hcid & Hstep).
      injection Hstep as <-. apply setitem_ok in Hset as [Hlt ->].
      apply next_class_id_ok in Hcid. simpl. split_and!.
      * rewrite length_app. simpl. rewrite Nat.add_1_r. simpl.
        by rewrite Hcid, Ia.
      * intros k y Hy.
        destruct (decide (k < length (filter unres pre))%nat) as [Hk|Hk].
        -- rewrite lookup_app_l in Hy by done.
           assert (y.1 ≠ x.1) as Hne.
           { intros Heq. apply Hfresh. rewrite <- Heq.
             apply list_elem_of_fmap. exists y. split; [done|].
             apply list_elem_of_lookup_2 in Hy.
             by apply list_elem_of_filter in Hy as [_ ?]. }
           rewrite list_lookup_insert_ne by done. by apply Ib.
        -- rewrite lookup_app_r in Hy by lia.
           destruct (k - length (filter unres pre))%nat as [|?] eqn:Hd;
             [|done].
           injection Hy as <-. rewrite list_lookup_insert_eq by done.
           rewrite Ia. do 3 f_equal. lia.
      * intros w Hw. assert (w ≠ x.1) as Hne.
        { intros ->. destruct Hw as [Hw|Hw]; [|by destruct Hw].
          apply Hw. rewrite fmap_app. apply elem_of_app. right. by left. }
        rewrite list_lookup_insert_ne by done. apply Ic.
        destruct Hw as [Hw|Hw]; [left|by right].
        intros Hin. apply Hw. rewrite fmap_app. apply elem_of_app. by left.
    + destruct (Htaken x Hres) as [c Hc]. rewrite Hc in Hcur.
      injection Hcur as <-. injection Hstep as <-.
      rewrite app_nil_r. split_and!; [done..|].
      intros w Hw. apply Ic. destruct Hw as [Hw|Hw]; [left|by right].
      intros Hin. apply Hw. rewrite fmap_app. apply elem_of_app. by left.
Qed.

(** X8: the initial class of every word.  Whenever construction returns a
    store: of the words other than the three reserved ones, taken in the
    order in which the loop of [_freq_init_classes] visits them
    ([word_counts] ascending, equal counts by ascending id), the k-th
    (from 0) is in the class that [class_id] holds after k assignments,
    which is 3 at first and then [min((class_id + 1) % C, 3)] of the value
    before, C being the number of classes.  For five classes or more that
    is always 3; for four classes it is (3 + k) mod 4, which runs through
    the reserved classes 0, 1 and 2 as well. *)
Theorem initial_classes_follow_class_id set_iter nc corpus vf o :
  __init__ set_iter nc corpus vf = Ok o →
  ∃ w1 w2 w3,
    word_ids o !! "<s>" = Some w1
    ∧ word_ids o !! "</s>" = Some w2
    ∧ word_ids o !! "<UNK>" = Some w3
    ∧ (∀ k x,
         filter (λ x : nat * Z, x.1 ≠ w1 ∧ x.1 ≠ w2 ∧ x.1 ≠ w3)
           (sorted_by_count (enumerate (word_counts o))) !! k = Some x →
         word_to_class o !! x.1 = Some (Some (class_seq (num_classes o) k)))
    ∧ (5 ≤ num_classes o → ∀ k, class_seq (num_classes o) k = 3%nat)
    ∧ (num_classes o = 4 →
         ∀ k, class_seq (num_classes o) k = ((3 + k) mod 4)%nat).
Proof.
  intros Hinit.
  destruct (init_fields _ _ _ _ _ Hinit) as (_ & HV & Hids & Hread & Hfreq & _).
  apply read_word_statistics_shape in Hread as [Hwcs _].
  pose proof (freq_init_classes_ok _ _ _ _ _ _ _ Hwcs Hfreq) as (Hn & _).
  destruct (freq_init_classes_sequence _ _ _ _ _ _ _ Hwcs Hfreq)
    as (w1 & w2 & w3 & H1 & H2 & H3 & Hseq).
  rewrite <- Hids in H1, H2, H3. rewrite <- Hn in Hseq.
  exists w1, w2, w3. split_and!; try done.
  - intros H5 k. by apply class_seq_five.
  - intros -> k. apply class_seq_four.
Qed.

Lemma initial_classes_follow_class_id_witness :
  ∃ w1 w2 w3,
    word_ids example_store !! "<s>" = Some w1
    ∧ word_ids example_store !! "</s>" = Some w2
    ∧ word_ids example_store !! "<UNK>" = Some w3
    ∧ (∀ k x,
         filter (λ x : nat * Z, x.1 ≠ w1 ∧ x.1 ≠ w2 ∧ x.1 ≠ w3)
           (sorted_by_count (enumerate (word_counts example_store))) !! k
           = Some x →
         word_to_class example_store !! x.1
         = Some (Some (class_seq (num_classes example_store) k)))
    ∧ (5 ≤ num_classes example_store →
         ∀ k, class_seq (num_classes example_store) k = 3%nat)
    ∧ (num_classes example_store = 4 →
         ∀ k, class_seq (num_classes example_store) k = ((3 + k) mod 4)%nat).
Proof.
  apply (initial_classes_follow_class_id elements 1 example_corpus None).
  exact example_store_init.
Defined.

(** ** [_compute_class_statistics] on its own *)

(** X9: what [_compute_class_statistics] computes.  For [V] words with
    counts [wcs], bigram counts [wws] (V x V) and an assignment that gives
    every word a class below the number C of classes, the call returns
    four tables of the shapes C, C x C, C x V and V x C whose cells are,
    as int64: for [class_counts[c]] the sum of the counts of the words of
    class c; for [cc_counts[a, b]] the sum of the bigram counts of the
    words of class a followed by the words of class b; for
    [cw_counts[a, j]] the sum of the bigram counts of the words of class a
    followed by the word j; and for [wc_counts[i, b]] that of the word i
    followed by the words of class b. *)
Theorem compute_class_statistics_sums ncls V wcs wws w2c :
  0 ≤ ncls → length wcs = V → shape2 wws V V → length w2c = V →
  Forall (λ oc, ∃ c, oc = Some c ∧ (c < Z.to_nat ncls)%nat) w2c →
  let C := Z.to_nat ncls in
  let cl := class_at w2c in
  ∃ cls cc cw wc,
    _compute_class_statistics ncls V wcs wws w2c = Ok (cls, cc, cw, wc)
    ∧ length cls = C ∧ shape2 cc C C ∧ shape2 cw C V ∧ shape2 wc V C
    ∧ (∀ c, (c < C)%nat →
         cell1 cls c = wrap64 (sumZ (λ i, ind (cl i = c) * cell1 wcs i) V))
    ∧ (∀ a b, (a < C)%nat → (b < C)%nat →
         cell2 cc a b
         = wrap64 (sumZ (λ i, sumZ (λ j, ind (cl i = a) * ind (cl j = b)
                                         * cell2 wws i j) V) V))
    ∧ (∀ a j, (a < C)%nat → (j < V)%nat →
         cell2 cw a j = wrap64 (sumZ (λ i, ind (cl i = a) * cell2 wws i j) V))
    ∧ (∀ i b, (i < V)%nat → (b < C)%nat →
         cell2 wc i b = wrap64 (sumZ (λ j, ind (cl j = b) * cell2 wws i j) V)).
Proof.
  intros Hn Hwcs Hwws Hw2c Hok C cl.
  destruct (compute_spec ncls V wcs wws w2c Hn Hwcs Hwws Hw2c Hok)
    as (cls & cc & cw & wc & Hrun & [H1 H2 H3 H4 H5 H6 H7 H8]).
  exists cls, cc, cw, wc. by split_and!.
Qed.

Lemma compute_class_statistics_sums_witness :
  let C := Z.to_nat 2 in
  let cl := class_at [Some 1%nat; Some 0%nat; Some 1%nat] in
  let wcs := [4; 5; 6] in
  let wws := [[1; 2; 3]; [4; 5; 6]; [7; 8; 9]] in
  ∃ cls cc cw wc,
    _compute_class_statistics 2 3 wcs wws
      [Some 1%nat; Some 0%nat; Some 1%nat] = Ok (cls, cc, cw, wc)
    ∧ length cls = C ∧ shape2 cc C C ∧ shape2 cw C 3 ∧ shape2 wc 3 C
    ∧ (∀ c, (c < C)%nat →
         cell1 cls c = wrap64 (sumZ (λ i, ind (cl i = c) * cell1 wcs i) 3))
    ∧ (∀ a b, (a < C)%nat → (b < C)%nat →
         cell2 cc a b
         = wrap64 (sumZ (λ i, sumZ (λ j, ind (cl i = a) * ind (cl j = b)
                                         * cell2 wws i j) 3) 3))
    ∧ (∀ a j, (a < C)%nat → (j < 3)%nat →
         cell2 cw a j = wrap64 (sumZ (λ i, ind (cl i = a) * cell2 wws i j) 3))
    ∧ (∀ i b, (i < 3)%nat → (b < C)%nat →
         cell2 wc i b = wrap64 (sumZ (λ j, ind (cl j = b) * cell2 wws i j) 3)).
Proof.
  apply (compute_class_statistics_sums 2 3 [4; 5; 6]
           [[1; 2; 3]; [4; 5; 6]; [7; 8; 9]]
           [Some 1%nat; Some 0%nat; Some 1%nat]).
  - lia.
  - reflexivity.
  - split; [reflexivity|]. by repeat constructor.
  - reflexivity.
  - repeat constructor; eexists; (split; [reflexivity|simpl; lia]).
Defined.

Lemma class_counts_loop_raises C wcs (xs : list (nat * option nat)) cls :
  length cls = C →
  Forall (λ x, (x.1 < length wcs)%nat ∧ ∃ c, x.2 = Some c) xs →
  Exists (λ x, ∃ c, x.2 = Some c ∧ (C ≤ c)%nat) xs →
  for_res xs
    (λ x cls,
       class_id <~ as_index x.2;
       n <~ getitem wcs x.1;
       iadd1 cls class_id n)
    cls = Raise IndexError.
Proof.
  intros Hlen Hall Hex. revert cls Hlen.
  induction xs as [|x xs IH]; intros cls Hlen; [by apply Exists_nil in Hex|].
  apply Forall_cons in Hall as [[Hx (c & Hc)] Hall]. simpl.
  rewrite Hc. simpl. rewrite (getitem_cell1 wcs x.1 Hx). simpl.
  destruct (decide (c < C)%nat) as [Hlt|Hge].
  - rewrite iadd1_lt by lia. simpl. apply IH; [done| |by rewrite length_upd1].
    apply Exists_cons in Hex as [(c' & Hc' & Hge)|Hex]; [|done].
    rewrite Hc in Hc'. simplify_eq. lia.
  - unfold iadd1, getitem. rewrite lookup_ge_None_2 by lia. done.
Qed.

(** X10: [_compute_class_statistics] does not check the assignment.  When
    every word has a class but one of them has a class id that is not
    below the number of classes, the call raises [IndexError] (from the
    loop of lines 110-111) and returns no table. *)
Theorem compute_class_statistics_class_out_of_range ncls V wcs wws w2c :
  0 ≤ ncls → length wcs = V → length w2c = V →
  Forall (λ oc : option nat, is_Some oc) w2c →
  Exists (λ oc, ∃ c, oc = Some c ∧ (Z.to_nat ncls ≤ c)%nat) w2c →
  _compute_class_statistics ncls V wcs wws w2c = Raise IndexError.
Proof.
  intros Hn Hwcs Hw2c Hall Hex. unfold _compute_class_statistics.
  unfold zeros1, zeros2.
  destruct (Z.ltb_spec ncls 0) as [?|_]; [lia|].
  destruct (Z.ltb_spec (Z.of_nat V) 0) as [?|_]; [lia|].
  cbn [orb res_bind].
  rewrite (class_counts_loop_raises (Z.to_nat ncls) wcs); [done|..].
  - by rewrite length_replicate.
  - apply Forall_forall. intros [i oc] Hx.
    apply elem_of_enumerate in Hx. simpl in *. split.
    + apply lookup_lt_Some in Hx. lia.
    + rewrite Forall_forall in Hall.
      destruct (Hall oc) as [c ->]; [by apply list_elem_of_lookup_2 in Hx|].
      eauto.
  - apply Exists_exists in Hex as (oc & Hin & c & -> & Hge).
    apply list_elem_of_lookup in Hin as [i Hi].
    apply Exists_exists. exists (i, Some c). split; [|by exists c].
    by apply elem_of_enumerate_2.
Qed.

Lemma compute_class_statistics_class_out_of_range_witness :
  _compute_class_statistics 2 3 [4; 5; 6]
    [[1; 2; 3]; [4; 5; 6]; [7; 8; 9]] [Some 1%nat; Some 2%nat; Some 0%nat]
  = Raise IndexError.
Proof.
  apply (compute_class_statistics_class_out_of_range 2 3).
  - lia.
  - reflexivity.
  - reflexivity.
  - repeat constructor; by eexists.
  - apply Exists_cons_tl, Exists_cons_hd. exists 2%nat. split; [done|].
    simpl. lia.
Defined.

(** ** Likelihood: what reaches [numpy.log] *)

Lemma ma_log_times_ext np_log np_log' c :
  (0 < c → np_log (of_int64 c) = np_log' (of_int64 c)) →
  ma_log_times np_log c = ma_log_times np_log' c.
Proof.
  intros H. unfold ma_log_times. destruct (Z.leb_spec c 0) as [Hc|Hc]; [done|].
  by rewrite H.
Qed.

Lemma ma_log_times_fmap_ext np_log np_log' (l : list Z) :
  (∀ c, 0 < c → c ∈ l → np_log (of_int64 c) = np_log' (of_int64 c)) →
  ma_log_times np_log <$> l = ma_log_times np_log' <$> l.
Proof.
  intros H. apply list_eq. intros i. rewrite !list_lookup_fmap.
  destruct (l !! i) as [c|] eqn:Hc; [|done]. simpl. f_equal.
  apply ma_log_times_ext. intros Hpos. apply H; [done|].
  by apply list_elem_of_lookup_2 in Hc.
Qed.

(** A finite float is a zero or a finite number of the specification. *)
Lemma is_finite_SF x :
  PrimFloat.is_finite x = true →
  (∃ s, Prim2SF x = S754_zero s) ∨ (∃ s m e, Prim2SF x = S754_finite s m e).
Proof.
  unfold PrimFloat.is_finite, PrimFloat.is_nan, PrimFloat.is_infinity.
  rewrite !FloatAxioms.eqb_spec, abs_spec.
  destruct (Prim2SF x) as [s| | |s m e] eqn:E; eauto.
  - destruct s; vm_compute; discriminate.
  - vm_compute. discriminate.
Qed.

Lemma SFadd_opp_cancel s m e :
  SFadd prec emax (S754_finite (negb s) m e) (S754_finite s m e)
  = S754_zero false.
Proof.
  unfold SFadd. rewrite Z.min_id.
  unfold shl_align. rewrite Z.sub_diag. simpl.
  replace (cond_Zopp (negb s) (Z.pos m) + cond_Zopp s (Z.pos m)) with 0
    by (destruct s; simpl; lia).
  reflexivity.
Qed.

Lemma float_zero_sub_add x :
  PrimFloat.is_finite x = true →
  PrimFloat.add (PrimFloat.sub PrimFloat.zero x) x = PrimFloat.zero.
Proof.
  intros Hfin. apply Prim2SF_inj.
  rewrite add_spec, sub_spec.
  change (Prim2SF PrimFloat.zero) with (S754_zero false).
  destruct (is_finite_SF x Hfin) as [[s ->]|(s & m & e & ->)].
  - by destruct s.
  - simpl. apply SFadd_opp_cancel.
Qed.

(** X11: [log_likelihood] consults [numpy.log] only at the positive cells
    of [cc_counts], [word_counts] and [class_counts]: two logarithm
    functions that agree on the positive counts stored in these three
    tables give the same result, whatever they return at 0 and at
    negative counts, which [numpy.ma.log] masks. *)
Theorem log_likelihood_ignores_nonpositive_counts np_log np_log' np_sum o :
  (∀ c, 0 < c →
     c ∈ mjoin (cc_counts o) ∨ c ∈ word_counts o ∨ c ∈ class_counts o →
     np_log (of_int64 c) = np_log' (of_int64 c)) →
  log_likelihood np_log np_sum o = log_likelihood np_log' np_sum o.
Proof.
  intros H. unfold log_likelihood, read. f_equal. f_equal.
  rewrite (ma_log_times_fmap_ext np_log np_log' (mjoin (cc_counts o))) by auto.
  rewrite (ma_log_times_fmap_ext np_log np_log' (word_counts o)) by auto.
  rewrite (ma_log_times_fmap_ext np_log np_log' (class_counts o)) by auto.
  done.
Qed.

Lemma log_likelihood_ignores_nonpositive_counts_witness :
  log_likelihood log_stub (foldl PrimFloat.add PrimFloat.zero) example_store
  = log_likelihood (λ x, x) (foldl PrimFloat.add PrimFloat.zero) example_store.
Proof.
  apply (log_likelihood_ignores_nonpositive_counts log_stub (λ x, x)).
  assert (mjoin (cc_counts example_store)
          = [1; 1; 0; 3; 0; 0; 0; 0; 0; 0; 0; 0; 2; 1; 0; 0]) as -> by by vm_compute.
  assert (word_counts example_store = [3; 3; 2; 2; 0]) as -> by by vm_compute.
  assert (class_counts example_store = [5; 2; 0; 3]) as -> by by vm_compute.
  intros c Hc Hin.
  assert (c ∈ [1; 2; 3; 5]) as Hc'.
  { destruct Hin as [Hin|[Hin|Hin]];
      repeat (apply elem_of_cons in Hin as [->|Hin]); try lia;
      try (by apply elem_of_nil in Hin); set_solver. }
  repeat (apply elem_of_cons in Hc' as [->|Hc']);
    [by vm_compute..|by apply elem_of_nil in Hc'].
Defined.

(** X12: the log likelihood of an empty corpus is the masked constant of
    [numpy.ma], not 0.0.  Whatever the other arguments, a store
    constructed from a corpus without lines has only zero counts, every
    cell is masked, and [log_likelihood] returns [numpy.ma.masked]. *)
Theorem log_likelihood_of_empty_corpus np_log np_sum set_iter nc vf o :
  __init__ set_iter nc [] vf = Ok o →
  Forall (λ c, c = 0) (word_counts o)
  ∧ log_likelihood np_log np_sum o = (Ok None, o).
Proof.
  intros Hinit.
  destruct (init_fields _ _ _ _ _ Hinit) as (_ & _ & _ & Hread & _).
  unfold _read_word_statistics in Hread.
  rewrite zeros1_nat, zeros2_nat in Hread. simpl in Hread.
  injection Hread as Hwcs Hwws.
  assert (Forall (λ c, c = 0) (word_counts o)) as Hz.
  { rewrite <- Hwcs. apply Forall_replicate. done. }
  split; [done|].
  unfold log_likelihood, read. f_equal. f_equal.
  assert (ma_sum np_sum (ma_log_times np_log <$> word_counts o) = None) as ->.
  { unfold ma_sum.
    assert (forallb (λ c : option float, bool_decide (c = None))
              (ma_log_times np_log <$> word_counts o) = true) as ->; [|done].
    apply forallb_forall. intros x Hx. apply bool_decide_eq_true_2.
    apply list_elem_of_In, list_elem_of_fmap in Hx as (c & -> & Hc).
    rewrite Forall_forall in Hz. by rewrite (Hz c Hc). }
  by destruct (ma_sum np_sum (ma_log_times np_log <$> mjoin (cc_counts o))).
Qed.

Lemma log_likelihood_of_empty_corpus_witness :
  ∃ o, __init__ elements 0 [] None = Ok o
       ∧ Forall (λ c, c = 0) (word_counts o)
       ∧ log_likelihood log_stub (foldl PrimFloat.add PrimFloat.zero) o
         = (Ok None, o).
Proof.
  destruct (__init__ elements 0 [] None) as [o|e] eqn:E;
    [|by vm_compute in E].
  exists o. split; [done|].
  exact (log_likelihood_of_empty_corpus log_stub
           (foldl PrimFloat.add PrimFloat.zero) elements 0 None o E).
Defined.

(** X13: a count that a move leaves unchanged contributes exactly 0.0 in
    [_ll_change]: for equal old and new counts the result is 0.0 when
    the count is 0 (both guards skip) and when [count * numpy.log(count)]
    is a finite float (it is subtracted from 0 and added again). *)
Theorem ll_change_of_equal_counts np_log c :
  c = 0 ∨ PrimFloat.is_finite (count_log np_log c) = true →
  _ll_change np_log c c = PrimFloat.zero.
Proof.
  intros H. unfold _ll_change. cbv zeta.
  change (of_int64 0) with PrimFloat.zero.
  destruct (decide (c ≠ 0)) as [Hc|Hc].
  - destruct H as [->|Hfin]; [done|]. by apply float_zero_sub_add.
  - done.
Qed.

Lemma ll_change_of_equal_counts_witness :
  _ll_change log_stub 3 3 = PrimFloat.zero.
Proof.
  apply (ll_change_of_equal_counts log_stub 3).
  right. vm_compute. reflexivity.
Defined.

(** ** [_evaluate_move] with an id out of range *)

(** X14: on a well-formed store, [_evaluate_move] with a word id that is
    not below the vocabulary size, or a class id that is not below the
    number of classes, raises [IndexError] (at line 132 for the word, at
    line 141 for the class) and leaves the store as it was. *)
Theorem evaluate_move_out_of_range_raises np_log o w new :
  wf o → (nwords o ≤ w)%nat ∨ (nclasses o ≤ new)%nat →
  _evaluate_move np_log w new o = (Raise IndexError, o).
Proof.
  intros Hwf Hout. unfold _evaluate_move.
  destruct (decide (w < nwords o)%nat) as [Hw|Hw].
  - destruct Hout as [?|Hnew]; [lia|].
    destruct (wf_class_at o w Hwf Hw) as [Hcl Hold].
    rewrite (bind_read_ok _ _ o (Some (class_at (word_to_class o) w)))
      by (unfold getitem; by rewrite Hcl).
    rewrite (bind_read_ok _ _ o (class_at (word_to_class o) w)) by done.
    apply bind_raise. unfold class_terms.
    rewrite (bind_read_ok _ _ o
               (cell1 (class_counts o) (class_at (word_to_class o) w)))
      by (apply getitem_cell1; by rewrite (wf_class_counts o Hwf)).
    rewrite (bind_read_ok _ _ o (cell1 (word_counts o) w))
      by (apply getitem_cell1; by rewrite (wf_word_counts o Hwf)).
    cbv zeta. apply bind_raise. unfold read, getitem.
    rewrite lookup_ge_None_2; [done|]. by rewrite (wf_class_counts o Hwf).
  - apply bind_raise. unfold read, getitem.
    rewrite lookup_ge_None_2; [done|]. rewrite (wf_word_to_class o Hwf). lia.
Qed.

Lemma evaluate_move_out_of_range_raises_witness :
  _evaluate_move log_stub 0 7 example_store = (Raise IndexError, example_store).
Proof.
  apply (evaluate_move_out_of_range_raises log_stub example_store 0 7).
  - exact example_store_wf.
  - right. vm_compute. lia.
Defined.

(** ** Sequences of moves *)

(** One in-range move on a well-formed store returns. *)
Lemma move_step o w new :
  wf o → (w < nwords o)%nat → (new < nclasses o)%nat →
  ∃ o', _move w new o = (Ok tt, o') ∧ moved o w new o' ∧ wf o'.
Proof.
  intros Hwf Hw Hnew.
  destruct (move_spec o w new Hwf Hw Hnew) as ([] & o' & Hrun & Hmoved).
  exists o'. split_and!; try done. by apply (moved_wf o w new).
Qed.

(** The stores reached from [o] by moves of words in range to classes in
    range. *)
Inductive moves_to (o : Optimizer) : Optimizer → Prop :=
  | moves_refl : moves_to o o
  | moves_step o1 w new o2 :
      moves_to o o1 →
      (w < nwords o1)%nat → (new < nclasses o1)%nat →
      _move w new o1 = (Ok tt, o2) →
      moves_to o o2.

(** The tables of [o'] are those of [o] shifted by the difference of the
    aggregates under the two assignments. *)
Record shifted (o o' : Optimizer) : Prop := mk_shifted {
  sh_wf : wf o';
  sh_raw : same_raw o o';
  sh_cls : ∀ c, (c < nclasses o)%nat →
    cell1 (class_counts o') c
    = wrap64 (cell1 (class_counts o) c
              + (agg_cls (word_to_class o') (word_counts o) (nwords o) c
                 - agg_cls (word_to_class o) (word_counts o) (nwords o) c));
  sh_cc : ∀ a b, (a < nclasses o)%nat → (b < nclasses o)%nat →
    cell2 (cc_counts o') a b
    = wrap64 (cell2 (cc_counts o) a b
              + (agg_cc (word_to_class o') (ww_counts o) (nwords o) a b
                 - agg_cc (word_to_class o) (ww_counts o) (nwords o) a b));
  sh_cw : ∀ a j, (a < nclasses o)%nat → (j < nwords o)%nat →
    cell2 (cw_counts o') a j
    = wrap64 (cell2 (cw_counts o) a j
              + (agg_cw (word_to_class o') (ww_counts o) (nwords o) a j
                 - agg_cw (word_to_class o) (ww_counts o) (nwords o) a j));
  sh_wc : ∀ i b, (i < nwords o)%nat → (b < nclasses o)%nat →
    cell2 (wc_counts o') i b
    = wrap64 (cell2 (wc_counts o) i b
              + (agg_wc (word_to_class o') (ww_counts o) (nwords o) i b
                 - agg_wc (word_to_class o) (ww_counts o) (nwords o) i b))
}.

Lemma shifted_refl o : wf o → shifted o o.
Proof.
  intros Hwf. split; [done|apply same_raw_refl|..]; intros;
    rewrite Z.sub_diag; apply wrap64_cell_0;
    first [apply cell2_int64; apply Hwf|apply cell1_int64; apply Hwf].
Qed.

Lemma shifted_moved o o1 w new o2 :
  shifted o o1 → (w < nwords o1)%nat → (new < nclasses o1)%nat →
  moved o1 w new o2 → shifted o o2.
Proof.
  intros [Hwf1 Hraw Ecls Ecc Ecw Ewc] Hw Hnew Hm.
  destruct (same_raw_dims _ _ Hraw) as [HV HC].
  destruct (moved_facts _ _ _ _ Hm)
    as (Hraw2 & Hw2c & _ & Mcls & Mcc & Mcw & Mwc).
  destruct Hraw as (?&?&?&Hwcs&Hwws&?).
  split.
  - by apply (moved_wf o1 w new).
  - by apply (same_raw_trans o o1 o2).
  - intros c Hc. rewrite Mcls, Ecls by lia. rewrite wrap64_add_l. f_equal.
    rewrite Hw2c, <- Hwcs, <- HV.
    rewrite (agg_cls_move o1 w new Hwf1 Hw). lia.
  - intros a b Ha Hb. rewrite Mcc, Ecc by lia. rewrite wrap64_add_l. f_equal.
    rewrite Hw2c, <- Hwws, <- HV.
    rewrite (agg_cc_move o1 w new Hwf1 Hw). lia.
  - intros a j Ha Hj. rewrite Mcw, Ecw by lia. rewrite wrap64_add_l. f_equal.
    rewrite Hw2c, <- Hwws, <- HV.
    rewrite (agg_cw_move o1 w new Hwf1 Hw) by lia. lia.
  - intros i b Hi Hb. rewrite Mwc, Ewc by lia. rewrite wrap64_add_l. f_equal.
    rewrite Hw2c, <- Hwws, <- HV.
    rewrite (agg_wc_move o1 w new Hwf1 Hw) by lia. lia.
Qed.

Lemma moved_deterministic o w new o' :
  wf o → (w < nwords o)%nat → (new < nclasses o)%nat →
  _move w new o = (Ok tt, o') → moved o w new o'.
Proof.
  intros Hwf Hw Hnew Hrun.
  destruct (move_spec o w new Hwf Hw Hnew) as ([] & o1 & Hrun1 & Hm).
  congruence.
Qed.

Lemma moves_to_shifted o o' : wf o → moves_to o o' → shifted o o'.
Proof.
  intros Hwf. induction 1 as [|o1 w new o2 _ IH Hw Hnew Hrun].
  - by apply shifted_refl.
  - apply (shifted_moved o o1 w new); try done.
    apply moved_deterministic; try done. apply IH.
Qed.

Lemma inverse_maps_unique w2c c2w c2w' :
  inverse_maps w2c c2w → inverse_maps w2c c2w' → length c2w = length c2w' →
  c2w = c2w'.
Proof.
  intros H1 H2 Hlen. apply list_eq_same_length with (length c2w); try done.
  intros c s s' _ Hs Hs'. apply set_eq. intros w.
  by rewrite (H1 c s Hs w), (H2 c s' Hs' w).
Qed.

Lemma shifted_unique o o1 o2 :
  shifted o o1 → shifted o o2 → word_to_class o1 = word_to_class o2 → o1 = o2.
Proof.
  intros [Hwf1 Hraw1 Ecls1 Ecc1 Ecw1 Ewc1] [Hwf2 Hraw2 Ecls2 Ecc2 Ecw2 Ewc2] Hw2c.
  destruct (same_raw_dims _ _ Hraw1) as [HV1 HC1].
  destruct (same_raw_dims _ _ Hraw2) as [HV2 HC2].
  destruct Hraw1 as (?&?&?&?&?&?), Hraw2 as (?&?&?&?&?&?).
  apply optimizer_ext; try congruence.
  - apply inverse_maps_unique with (word_to_class o1); [apply Hwf1| |].
    + rewrite Hw2c. apply Hwf2.
    + by rewrite (wf_class_to_words o1 Hwf1), (wf_class_to_words o2 Hwf2), HC1, HC2.
  - apply array1_ext;
      [by rewrite (wf_class_counts o1 Hwf1), (wf_class_counts o2 Hwf2), HC1, HC2|].
    intros c Hc. rewrite (wf_class_counts o1 Hwf1), HC1 in Hc.
    by rewrite Ecls1, Ecls2, Hw2c.
  - apply (array2_ext _ _ (nclasses o) (nclasses o)).
    { rewrite <- HC1. apply Hwf1. } { rewrite <- HC2. apply Hwf2. }
    intros a b Ha Hb. by rewrite Ecc1, Ecc2, Hw2c.
  - apply (array2_ext _ _ (nclasses o) (nwords o)).
    { rewrite <- HC1, <- HV1. apply Hwf1. } { rewrite <- HC2, <- HV2. apply Hwf2. }
    intros a j Ha Hj. by rewrite Ecw1, Ecw2, Hw2c.
  - apply (array2_ext _ _ (nwords o) (nclasses o)).
    { rewrite <- HC1, <- HV1. apply Hwf1. } { rewrite <- HC2, <- HV2. apply Hwf2. }
    intros i b Hi Hb. by rewrite Ewc1, Ewc2, Hw2c.
Qed.

(** Two in-range moves in a row, with the assignment they end in. *)
Lemma two_moves o w1 B1 w2 B2 :
  wf o → (w1 < nwords o)%nat → (B1 < nclasses o)%nat →
  (w2 < nwords o)%nat → (B2 < nclasses o)%nat →
  ∃ o1 o2, _move w1 B1 o = (Ok tt, o1) ∧ _move w2 B2 o1 = (Ok tt, o2)
    ∧ moves_to o o2
    ∧ word_to_class o2 = <[w2 := Some B2]> (<[w1 := Some B1]> (word_to_class o)).
Proof.
  intros Hwf Hw1 HB1 Hw2 HB2.
  destruct (move_step o w1 B1 Hwf Hw1 HB1) as (o1 & Hrun1 & Hm1 & Hwf1).
  destruct (moved_facts _ _ _ _ Hm1) as (Hraw1 & Hw2c1 & _).
  destruct (same_raw_dims _ _ Hraw1) as [HV1 HC1].
  destruct (move_step o1 w2 B2 Hwf1) as (o2 & Hrun2 & Hm2 & Hwf2); [lia..|].
  destruct (moved_facts _ _ _ _ Hm2) as (_ & Hw2c2 & _).
  exists o1, o2. split_and!; try done.
  - apply (moves_step o o1 w2 B2); [|lia|lia|done].
    apply (moves_step o o w1 B1); [constructor|done..].
  - by rewrite Hw2c2, Hw2c1.
Qed.

(** X15: the store reached by a sequence of in-range moves from a
    well-formed store depends only on the assignment of words to classes
    it ends in, not on the moves that led there: two such sequences from
    the same store that end in the same [word_to_class] end in the same
    store, table by table (int64 wrap-around included). *)
Theorem store_depends_on_assignment_only o o1 o2 :
  wf o → moves_to o o1 → moves_to o o2 →
  word_to_class o1 = word_to_class o2 → o1 = o2.
Proof.
  intros Hwf H1 H2 Heq.
  apply (shifted_unique o); [|by apply moves_to_shifted|done].
  by apply moves_to_shifted.
Qed.

Lemma store_depends_on_assignment_only_witness :
  (_move 0 3 (_move 0 2 example_store).2).2 = example_store.
Proof.
  apply (store_depends_on_assignment_only example_store).
  - exact example_store_wf.
  - apply (moves_step _ (_move 0 2 example_store).2 0 3).
    + apply (moves_step _ example_store 0 2).
      * apply moves_refl.
      * vm_compute. lia.
      * vm_compute. lia.
      * vm_compute. reflexivity.
    + vm_compute. lia.
    + vm_compute. lia.
    + vm_compute. reflexivity.
  - apply moves_refl.
  - vm_compute. reflexivity.
Defined.

(** X16: moves of two different words commute.  On a well-formed store,
    moving [w1] to [B1] and then [w2] to [B2] returns both times and ends
    in the same store as moving [w2] to [B2] first and [w1] to [B1]
    then. *)
Theorem moves_of_two_words_commute o w1 B1 w2 B2 :
  wf o → (w1 < nwords o)%nat → (B1 < nclasses o)%nat →
  (w2 < nwords o)%nat → (B2 < nclasses o)%nat → w1 ≠ w2 →
  ∃ o1 o2 o',
    _move w1 B1 o = (Ok tt, o1) ∧ _move w2 B2 o1 = (Ok tt, o')
    ∧ _move w2 B2 o = (Ok tt, o2) ∧ _move w1 B1 o2 = (Ok tt, o').
Proof.
  intros Hwf Hw1 HB1 Hw2 HB2 Hne.
  destruct (two_moves o w1 B1 w2 B2) as (o1 & o12 & R1 & R12 & M12 & E12);
    try done.
  destruct (two_moves o w2 B2 w1 B1) as (o2 & o21 & R2 & R21 & M21 & E21);
    try done.
  exists o1, o2, o12. split_and!; try done.
  rewrite R21. f_equal.
  apply (shifted_unique o); [by apply moves_to_shifted..|].
  rewrite E12, E21. by apply list_insert_insert_ne.
Qed.

Lemma moves_of_two_words_commute_witness :
  ∃ o1 o2 o',
    _move 0 2 example_store = (Ok tt, o1) ∧ _move 1 3 o1 = (Ok tt, o')
    ∧ _move 1 3 example_store = (Ok tt, o2) ∧ _move 0 2 o2 = (Ok tt, o').
Proof.
  apply (moves_of_two_words_commute example_store 0 2 1 3).
  - exact example_store_wf.
  - vm_compute. lia.
  - vm_compute. lia.
  - vm_compute. lia.
  - vm_compute. lia.
  - discriminate.
Defined.

(** X17: two moves of one word compose.  On a well-formed store, moving a
    word to [B] and then to [C] returns both times and ends in the store
    that moving it to [C] at once ends in. *)
Theorem two_moves_of_a_word_compose o w B C :
  wf o → (w < nwords o)%nat → (B < nclasses o)%nat → (C < nclasses o)%nat →
  ∃ o1 o2,
    _move w B o = (Ok tt, o1) ∧ _move w C o1 = (Ok tt, o2)
    ∧ _move w C o = (Ok tt, o2).
Proof.
  intros Hwf Hw HB HC.
  destruct (two_moves o w B w C) as (o1 & o2 & R1 & R2 & M2 & E2); try done.
  destruct (move_step o w C Hwf Hw HC) as (o3 & R3 & Hm3 & Hwf3).
  destruct (moved_facts _ _ _ _ Hm3) as (_ & E3 & _).
  exists o1, o2. split_and!; try done.
  rewrite R3. f_equal.
  apply (shifted_unique o); [|by apply moves_to_shifted|].
  - apply moves_to_shifted; [done|].
    apply (moves_step o o w C); [constructor|done..].
  - rewrite E3, E2. by rewrite list_insert_insert_eq.
Qed.

Lemma two_moves_of_a_word_compose_witness :
  ∃ o1 o2,
    _move 0 2 example_store = (Ok tt, o1) ∧ _move 0 1 o1 = (Ok tt, o2)
    ∧ _move 0 1 example_store = (Ok tt, o2).
Proof.
  apply (two_moves_of_a_word_compose example_store 0 2 1).
  - exact example_store_wf.
  - vm_compute. lia.
  - vm_compute. lia.
  - vm_compute. lia.
Defined.

(** X18: what [_move] does with an id out of range, on a well-formed
    store.  A word id that is not below the vocabulary size raises
    [IndexError] at the first statement and nothing is modified.  A class
    id that is not below the number of classes raises [IndexError] too,
    but only at line 219: the count of the word has already been
    subtracted from [class_counts] of its class (line 218) and stays
    subtracted, every other attribute being as before. *)
Theorem move_out_of_range_raises o w new :
  wf o →
  ((nwords o ≤ w)%nat → _move w new o = (Raise IndexError, o))
  ∧ ((w < nwords o)%nat → (nclasses o ≤ new)%nat →
       let old := class_at (word_to_class o) w in
       let o' := set_class_counts
                   (upd1 (class_counts o) old (- cell1 (word_counts o) w)) o in
       _move w new o = (Raise IndexError, o')
       ∧ cell1 (class_counts o') old
         = wrap64 (cell1 (class_counts o) old - cell1 (word_counts o) w)).
Proof.
  intros Hwf. split.
  - intros Hw. unfold _move, bindM, read, getitem.
    rewrite lookup_ge_None_2; [done|].
    rewrite (wf_word_to_class o Hwf). done.
  - intros Hw Hnew old o'.
    destruct (wf_class_at o w Hwf Hw) as [Hcl Hold]. fold old in Hcl, Hold.
    split.
    + unfold _move.
      rewrite (bind_read_ok _ _ o (Some old)) by (unfold getitem; by rewrite Hcl).
      rewrite (bind_read_ok _ _ o (cell1 (word_counts o) w))
        by (apply getitem_cell1; by rewrite (wf_word_counts o Hwf)).
      rewrite (bind_read_ok _ _ o old) by done.
      rewrite (bind_ok _ _ o tt o').
      2:{ unfold class_counts_isub, assign.
          rewrite isub1_lt by (by rewrite (wf_class_counts o Hwf)). done. }
      apply bind_raise.
      unfold class_counts_iadd, assign, iadd1, getitem.
      rewrite lookup_ge_None_2; [done|].
      unfold o'. simpl. rewrite length_upd1, (wf_class_counts o Hwf). done.
    + unfold o'. simpl. rewrite cell1_upd1 by (by rewrite (wf_class_counts o Hwf)).
      rewrite decide_True by done. done.
Qed.

Lemma move_out_of_range_raises_witness :
  _move 0 7 example_store
  = (Raise IndexError, set_class_counts [5; 2; 0; 0] example_store).
Proof.
  destruct (move_out_of_range_raises example_store 0 7 example_store_wf)
    as [_ H].
  destruct H as [H _]; [vm_compute; lia..|]. exact H.
Defined.

(** X19: what [_move] does to the tables of any well-formed store, whether
    or not they were consistent with the assignment before.  The move of a
    word w in range from its class to a class [new] in range returns;
    [word_to_class] changes at w only; and, as int64: [class_counts] gains
    the count of w at [new] and loses it at the old class; row [new] of
    [cw_counts] gains row w of [ww_counts] and the row of the old class
    loses it; column [new] of [wc_counts] gains column w of [ww_counts]
    and the column of the old class loses it; and every cell of
    [cc_counts] changes by the difference of the sum of the bigram counts
    over the words of the two classes after and before the move. *)
Theorem move_changes_the_tables o w new :
  wf o → (w < nwords o)%nat → (new < nclasses o)%nat →
  let old := class_at (word_to_class o) w in
  ∃ o', _move w new o = (Ok tt, o')
    ∧ wf o'
    ∧ word_to_class o' = <[w := Some new]> (word_to_class o)
    ∧ (∀ c, (c < nclasses o)%nat →
         cell1 (class_counts o') c
         = wrap64 (cell1 (class_counts o) c
                   + (ind (new = c) - ind (old = c))
                     * cell1 (word_counts o) w))
    ∧ (∀ a j, (a < nclasses o)%nat → (j < nwords o)%nat →
         cell2 (cw_counts o') a j
         = wrap64 (cell2 (cw_counts o) a j
                   + (ind (new = a) - ind (old = a))
                     * cell2 (ww_counts o) w j))
    ∧ (∀ i b, (i < nwords o)%nat → (b < nclasses o)%nat →
         cell2 (wc_counts o') i b
         = wrap64 (cell2 (wc_counts o) i b
                   + (ind (new = b) - ind (old = b))
                     * cell2 (ww_counts o) i w))
    ∧ (∀ a b, (a < nclasses o)%nat → (b < nclasses o)%nat →
         cell2 (cc_counts o') a b
         = wrap64 (cell2 (cc_counts o) a b
                   + (agg_cc (word_to_class o') (ww_counts o) (nwords o) a b
                      - agg_cc (word_to_class o) (ww_counts o) (nwords o)
                          a b))).
Proof.
  intros Hwf Hw Hnew old.
  destruct (move_step o w new Hwf Hw Hnew) as (o' & Hrun & Hm & Hwf').
  destruct (moved_facts _ _ _ _ Hm)
    as (Hraw & Hw2c & _ & Mcls & Mcc & Mcw & Mwc).
  exists o'. split_and!; try done.
  - intros c Hc. rewrite (Mcls c Hc). f_equal. f_equal.
    apply (move_delta_cls o w new).
  - intros a j Ha Hj. rewrite (Mcw a j Ha Hj). f_equal. f_equal.
    by apply (move_delta_cw o w new Hwf Hw).
  - intros i b Hi Hb. rewrite (Mwc i b Hi Hb). f_equal. f_equal.
    by apply (move_delta_wc o w new Hwf Hw).
  - intros a b Ha Hb. rewrite (Mcc a b Ha Hb). f_equal.
    rewrite Hw2c, (agg_cc_move o w new Hwf Hw). lia.
Qed.

Lemma move_changes_the_tables_witness :
  let o := example_store in
  let old := class_at (word_to_class o) 0 in
  ∃ o', _move 0 2 o = (Ok tt, o')
    ∧ wf o'
    ∧ word_to_class o' = <[0%nat := Some 2%nat]> (word_to_class o)
    ∧ (∀ c, (c < nclasses o)%nat →
         cell1 (class_counts o') c
         = wrap64 (cell1 (class_counts o) c
                   + (ind (2%nat = c) - ind (old = c))
                     * cell1 (word_counts o) 0))
    ∧ (∀ a j, (a < nclasses o)%nat → (j < nwords o)%nat →
         cell2 (cw_counts o') a j
         = wrap64 (cell2 (cw_counts o) a j
                   + (ind (2%nat = a) - ind (old = a))
                     * cell2 (ww_counts o) 0 j))
    ∧ (∀ i b, (i < nwords o)%nat → (b < nclasses o)%nat →
         cell2 (wc_counts o') i b
         = wrap64 (cell2 (wc_counts o) i b
                   + (ind (2%nat = b) - ind (old = b))
                     * cell2 (ww_counts o) i 0))
    ∧ (∀ a b, (a < nclasses o)%nat → (b < nclasses o)%nat →
         cell2 (cc_counts o') a b
         = wrap64 (cell2 (cc_counts o) a b
                   + (agg_cc (word_to_class o') (ww_counts o) (nwords o) a b
                      - agg_cc (word_to_class o) (ww_counts o) (nwords o)
                          a b))).
Proof.
  apply (move_changes_the_tables example_store 0 2).
  - exact example_store_wf.
  - vm_compute. lia.
  - vm_compute. lia.
Defined.

(** ** The stores reached from construction *)

Lemma reachable_store set_iter nc corpus vf o :
  reachable set_iter nc corpus vf o →
  ∃ o0, __init__ set_iter nc corpus vf = Ok o0
        ∧ same_raw o0 o ∧ wf o ∧ agrees o.
Proof.
  induction 1 as [o Hinit|o w new o' Hreach IH Hw Hnew Hmove].
  - destruct (init_wf _ _ _ _ _ Hinit) as [Hwf Hag].
    exists o. split_and!; [done|apply same_raw_refl|done|].
    by apply aggregated_agrees.
  - destruct IH as (o0 & Hinit & Hraw & Hwf & Hag).
    pose proof (moved_deterministic o w new o' Hwf Hw Hnew Hmove) as Hm.
    exists o0. split_and!; try done.
    + apply (same_raw_trans o0 o o'); [done|].
      by destruct (moved_facts _ _ _ _ Hm) as [? _].
    + by apply (moved_wf o w new).
    + by apply (moved_agrees o w new).
Qed.

Lemma sumZ_term_le f n w :
  (∀ i, (i < n)%nat → 0 ≤ f i) → (w < n)%nat → f w ≤ sumZ f n.
Proof.
  intros Hf Hw. rewrite (sumZ_split f n w Hw).
  assert (0 ≤ sumZ (λ i, if decide (i = w) then 0 else f i) n); [|lia].
  apply sumZ_nonneg. intros i Hi. case_decide; auto with lia.
Qed.

(** Without wrap-around the class tables are the aggregates
    themselves. *)
Section Exact.
Variable o : Optimizer.
Hypothesis Hwf : wf o.
Hypothesis Hag : agrees o.
Hypothesis Hnn1 : nonneg1 (word_counts o).
Hypothesis Hnn2 : nonneg2 (ww_counts o).
Hypothesis Hb1 : total1 (word_counts o) < 2 ^ 63.
Hypothesis Hb2 : total2 (ww_counts o) < 2 ^ 63.

Lemma ww_cell_le i j :
  (i < nwords o)%nat → (j < nwords o)%nat →
  cell2 (ww_counts o) i j ≤ total2 (ww_counts o).
Proof.
  intros Hi Hj. rewrite (total2_cells _ (nwords o) (nwords o)) by apply Hwf.
  etrans; [|apply (sumZ_term_le _ _ i); [|done]].
  - apply (sumZ_term_le (cell2 (ww_counts o) i)); [|done].
    intros j' _. by apply cell2_nonneg.
  - intros i' _. apply sumZ_nonneg. intros j' _. by apply cell2_nonneg.
Qed.

Lemma ww_col_le j :
  (j < nwords o)%nat →
  sumZ (λ i, cell2 (ww_counts o) i j) (nwords o) ≤ total2 (ww_counts o).
Proof.
  intros Hj. rewrite (total2_cells _ (nwords o) (nwords o)) by apply Hwf.
  apply sumZ_le. intros i _.
  apply (sumZ_term_le (cell2 (ww_counts o) i)); [|done].
  intros j' _. by apply cell2_nonneg.
Qed.

Lemma ww_row_le i :
  (i < nwords o)%nat →
  sumZ (λ j, cell2 (ww_counts o) i j) (nwords o) ≤ total2 (ww_counts o).
Proof.
  intros Hi. rewrite (total2_cells _ (nwords o) (nwords o)) by apply Hwf.
  apply (sumZ_term_le (λ i, sumZ (cell2 (ww_counts o) i) (nwords o))); [|done].
  intros i' _. apply sumZ_nonneg. intros j' _. by apply cell2_nonneg.
Qed.

Lemma agg_cw_bounds a j :
  (j < nwords o)%nat →
  0 ≤ agg_cw (word_to_class o) (ww_counts o) (nwords o) a j
    ≤ total2 (ww_counts o).
Proof.
  intros Hj. unfold agg_cw. split.
  - apply sumZ_nonneg. intros i _. by apply ind_mul_le, cell2_nonneg.
  - etrans; [|by apply ww_col_le]. apply sumZ_le. intros i _.
    by apply ind_mul_le, cell2_nonneg.
Qed.

Lemma agg_wc_bounds i b :
  (i < nwords o)%nat →
  0 ≤ agg_wc (word_to_class o) (ww_counts o) (nwords o) i b
    ≤ total2 (ww_counts o).
Proof.
  intros Hi. unfold agg_wc. split.
  - apply sumZ_nonneg. intros j _. by apply ind_mul_le, cell2_nonneg.
  - etrans; [|by apply ww_row_le]. apply sumZ_le. intros j _.
    by apply ind_mul_le, cell2_nonneg.
Qed.

Lemma exact_class_counts c :
  (c < nclasses o)%nat →
  cell1 (class_counts o) c
  = agg_cls (word_to_class o) (word_counts o) (nwords o) c.
Proof.
  intros Hc. rewrite (ta_cls _ _ _ _ _ _ _ _ _ Hag) by done.
  apply wrap64_id. pose proof (agg_cls_bounds o Hwf Hnn1 c).
  unfold is_int64. lia.
Qed.

Lemma exact_cc_counts a b :
  (a < nclasses o)%nat → (b < nclasses o)%nat →
  cell2 (cc_counts o) a b
  = agg_cc (word_to_class o) (ww_counts o) (nwords o) a b.
Proof.
  intros Ha Hb. rewrite (ta_cc _ _ _ _ _ _ _ _ _ Hag) by done.
  apply wrap64_id. pose proof (agg_cc_bounds o Hwf Hnn2 a b).
  unfold is_int64. lia.
Qed.

Lemma exact_cw_counts a j :
  (a < nclasses o)%nat → (j < nwords o)%nat →
  cell2 (cw_counts o) a j
  = agg_cw (word_to_class o) (ww_counts o) (nwords o) a j.
Proof.
  intros Ha Hj. rewrite (ta_cw _ _ _ _ _ _ _ _ _ Hag) by done.
  apply wrap64_id. pose proof (agg_cw_bounds a j Hj).
  unfold is_int64. lia.
Qed.

Lemma exact_wc_counts i b :
  (i < nwords o)%nat → (b < nclasses o)%nat →
  cell2 (wc_counts o) i b
  = agg_wc (word_to_class o) (ww_counts o) (nwords o) i b.
Proof.
  intros Hi Hb. rewrite (ta_wc _ _ _ _ _ _ _ _ _ Hag) by done.
  apply wrap64_id. pose proof (agg_wc_bounds i b Hi).
  unfold is_int64. lia.
Qed.

End Exact.

(** The word statistics of a reached store are those of the corpus. *)
Lemma reachable_counts set_iter nc corpus vf o :
  tokens corpus < 2 ^ 63 → reachable set_iter nc corpus vf o →
  wf o ∧ agrees o
  ∧ nonneg1 (word_counts o) ∧ nonneg2 (ww_counts o)
  ∧ total1 (word_counts o) = tokens corpus
  ∧ total2 (ww_counts o) = tokens corpus - Z.of_nat (length corpus)
  ∧ ∃ bos eos,
      word_ids o !! "<s>" = Some bos ∧ word_ids o !! "</s>" = Some eos
      ∧ (bos < nwords o)%nat ∧ (eos < nwords o)%nat
      ∧ ∀ i,
          sumZ (λ j, cell2 (ww_counts o) i j) (nwords o)
          = cell1 (word_counts o) i - ind (i = eos) * Z.of_nat (length corpus)
          ∧ sumZ (λ j, cell2 (ww_counts o) j i) (nwords o)
            = cell1 (word_counts o) i
              - ind (i = bos) * Z.of_nat (length corpus).
Proof.
  intros Hb Hreach.
  destruct (reachable_store _ _ _ _ _ Hreach)
    as (o0 & Hinit & (_ & HV & Hids & Hwcs & Hwws & _) & Hwf & Hag).
  destruct (init_totals _ _ _ _ _ Hinit Hb) as (Hnn1 & Hnn2 & T1 & T2).
  destruct (init_fields _ _ _ _ _ Hinit) as (_ & HV0 & Hids0 & Hread & Hfreq & _).
  destruct (read_word_statistics_shape _ _ _ _ _ _ Hread) as [Hlen _].
  destruct (freq_init_classes_assignment _ _ _ _ _ _ _ Hlen Hfreq)
    as (bos & eos & unk & Hbos & Heos & _).
  pose proof (proj2 (dict_zip_range_lookup _ _ _ _ Hbos)) as Lbos.
  pose proof (proj2 (dict_zip_range_lookup _ _ _ _ Heos)) as Leos.
  rewrite Hwcs, Hwws. split_and!; try done.
  exists bos, eos. unfold nwords. rewrite Hids, Hids0, HV, HV0.
  split_and!; try done.
  by apply (read_word_statistics_marginals _ _ _ _ _ _ _ _ Hread).
Qed.

(** X20: the rows and columns of the bigram counts sum to the word
    counts.  For every store reached from construction (corpus below 2^63
    tokens) and every word id i: the counts [ww_counts[i, :]] of the
    bigrams that start with i sum to [word_counts[i]], but for the id of
    "</s>", where the sum is short of it by the number of lines (the
    marker that ends a line starts no bigram); the counts
    [ww_counts[:, i]] of the bigrams that end with i sum to
    [word_counts[i]], but for the id of "<s>", short by the number of
    lines too. *)
Theorem bigram_rows_and_columns_sum_to_word_counts set_iter nc corpus vf o :
  tokens corpus < 2 ^ 63 → reachable set_iter nc corpus vf o →
  ∃ bos eos,
    word_ids o !! "<s>" = Some bos ∧ word_ids o !! "</s>" = Some eos
    ∧ ∀ i, (i < nwords o)%nat →
        sumZ (λ j, cell2 (ww_counts o) i j) (nwords o)
        = cell1 (word_counts o) i - ind (i = eos) * Z.of_nat (length corpus)
        ∧ sumZ (λ j, cell2 (ww_counts o) j i) (nwords o)
          = cell1 (word_counts o) i - ind (i = bos) * Z.of_nat (length corpus).
Proof.
  intros Hb Hreach.
  destruct (reachable_counts _ _ _ _ _ Hb Hreach)
    as (_ & _ & _ & _ & _ & _ & bos & eos & Hbos & Heos & _ & _ & Hsum).
  exists bos, eos. split_and!; [done|done|]. intros i _. apply Hsum.
Qed.

Lemma bigram_rows_and_columns_sum_to_word_counts_witness :
  ∃ bos eos,
    word_ids example_store !! "<s>" = Some bos
    ∧ word_ids example_store !! "</s>" = Some eos
    ∧ ∀ i, (i < nwords example_store)%nat →
        sumZ (λ j, cell2 (ww_counts example_store) i j) (nwords example_store)
        = cell1 (word_counts example_store) i
          - ind (i = eos) * Z.of_nat (length example_corpus)
        ∧ sumZ (λ j, cell2 (ww_counts example_store) j i)
            (nwords example_store)
          = cell1 (word_counts example_store) i
            - ind (i = bos) * Z.of_nat (length example_corpus).
Proof.
  apply (bigram_rows_and_columns_sum_to_word_counts elements 1 example_corpus
           None example_store).
  - vm_compute. reflexivity.
  - apply reach_init. exact example_store_init.
Defined.

Section ClassSums.
Variable o : Optimizer.
Hypothesis Hwf : wf o.

Let V := nwords o.
Let C := nclasses o.
Let cl := class_at (word_to_class o).
Let m := cell2 (ww_counts o).

Lemma cl_in_range i : (i < V)%nat → (cl i < C)%nat.
Proof. intros Hi. by apply (wf_class_at o i Hwf Hi). Qed.

Lemma agg_cc_from_cw a b :
  agg_cc (word_to_class o) (ww_counts o) V a b
  = sumZ (λ j, ind (cl j = b)
               * agg_cw (word_to_class o) (ww_counts o) V a j) V.
Proof.
  unfold agg_cc, agg_cw. rewrite sumZ_swap. apply sumZ_ext. intros j _.
  rewrite <- sumZ_scale. apply sumZ_ext. intros i _. unfold cl. ring.
Qed.

Lemma agg_cc_from_wc a b :
  agg_cc (word_to_class o) (ww_counts o) V a b
  = sumZ (λ i, ind (cl i = a)
               * agg_wc (word_to_class o) (ww_counts o) V i b) V.
Proof.
  unfold agg_cc, agg_wc. apply sumZ_ext. intros i _.
  rewrite <- sumZ_scale. apply sumZ_ext. intros j _. unfold cl. ring.
Qed.

Lemma agg_cc_row_sum a :
  sumZ (λ b, agg_cc (word_to_class o) (ww_counts o) V a b) C
  = sumZ (λ i, ind (cl i = a) * sumZ (λ j, m i j) V) V.
Proof.
  unfold agg_cc. rewrite sumZ_swap. apply sumZ_ext. intros i _.
  rewrite <- (sum_classes cl C V (λ j, m i j)) by apply cl_in_range.
  rewrite <- sumZ_scale. apply sumZ_ext. intros b _.
  rewrite <- sumZ_scale. apply sumZ_ext. intros j _. unfold cl, m. ring.
Qed.

Lemma agg_cc_col_sum a :
  sumZ (λ b, agg_cc (word_to_class o) (ww_counts o) V b a) C
  = sumZ (λ j, ind (cl j = a) * sumZ (λ i, m i j) V) V.
Proof.
  unfold agg_cc.
  transitivity
    (sumZ (λ c, sumZ (λ i, ind (cl i = c)
                           * sumZ (λ j, ind (cl j = a) * m i j) V) V) C).
  { apply sumZ_ext. intros b _. apply sumZ_ext. intros i _.
    rewrite <- sumZ_scale. apply sumZ_ext. intros j _. unfold cl, m. ring. }
  rewrite (sum_classes cl C V) by apply cl_in_range.
  rewrite sumZ_swap. apply sumZ_ext. intros j _.
  by rewrite <- sumZ_scale.
Qed.

End ClassSums.

(** X21: the rows and columns of the class bigram counts sum to the class
    counts.  For every store reached from construction (corpus below 2^63
    tokens) and every class a: [cc_counts[a, :]] sums to
    [class_counts[a]], less the number of lines when a is the class of
    "</s>"; [cc_counts[:, a]] sums to [class_counts[a]], less the number
    of lines when a is the class of "<s>". *)
Theorem class_bigram_rows_and_columns_sum_to_class_counts
    set_iter nc corpus vf o :
  tokens corpus < 2 ^ 63 → reachable set_iter nc corpus vf o →
  ∃ bos eos,
    word_ids o !! "<s>" = Some bos ∧ word_ids o !! "</s>" = Some eos
    ∧ ∀ a, (a < nclasses o)%nat →
        sumZ (λ b, cell2 (cc_counts o) a b) (nclasses o)
        = cell1 (class_counts o) a
          - ind (class_at (word_to_class o) eos = a)
            * Z.of_nat (length corpus)
        ∧ sumZ (λ b, cell2 (cc_counts o) b a) (nclasses o)
          = cell1 (class_counts o) a
            - ind (class_at (word_to_class o) bos = a)
              * Z.of_nat (length corpus).
Proof.
  intros Hb Hreach.
  destruct (reachable_counts _ _ _ _ _ Hb Hreach)
    as (Hwf & Hag & Hnn1 & Hnn2 & T1 & T2 & bos & eos & Hbos & Heos
        & Lbos & Leos & Hsum).
  pose proof (tokens_nonneg corpus) as Hpos.
  assert (total1 (word_counts o) < 2 ^ 63) as Hb1 by lia.
  assert (total2 (ww_counts o) < 2 ^ 63) as Hb2 by lia.
  exists bos, eos. split_and!; [done|done|]. intros a Ha.
  rewrite (exact_class_counts o Hwf Hag Hnn1 Hb1 a Ha). unfold agg_cls.
  set (L := Z.of_nat (length corpus)).
  set (cl := class_at (word_to_class o)).
  split.
  - rewrite (sumZ_ext _ (λ b, agg_cc (word_to_class o) (ww_counts o)
                                (nwords o) a b))
      by (intros b Hb'; by apply exact_cc_counts).
    rewrite (agg_cc_row_sum o Hwf a).
    rewrite (sumZ_ext _ (λ i, ind (cl i = a) * cell1 (word_counts o) i
                              + ind (i = eos) * (- (ind (cl i = a) * L))))
      by (intros i _; rewrite (proj1 (Hsum i)); fold cl L; ring).
    rewrite sumZ_plus.
    rewrite (sumZ_pick (λ i, - (ind (cl i = a) * L)) (nwords o) eos Leos).
    lia.
  - rewrite (sumZ_ext _ (λ b, agg_cc (word_to_class o) (ww_counts o)
                                (nwords o) b a))
      by (intros b Hb'; by apply exact_cc_counts).
    rewrite (agg_cc_col_sum o Hwf a).
    rewrite (sumZ_ext _ (λ i, ind (cl i = a) * cell1 (word_counts o) i
                              + ind (i = bos) * (- (ind (cl i = a) * L))))
      by (intros i _; rewrite (proj2 (Hsum i)); fold cl L; ring).
    rewrite sumZ_plus.
    rewrite (sumZ_pick (λ i, - (ind (cl i = a) * L)) (nwords o) bos Lbos).
    lia.
Qed.

Lemma class_bigram_rows_and_columns_sum_to_class_counts_witness :
  ∃ bos eos,
    word_ids example_store !! "<s>" = Some bos
    ∧ word_ids example_store !! "</s>" = Some eos
    ∧ ∀ a, (a < nclasses example_store)%nat →
        sumZ (λ b, cell2 (cc_counts example_store) a b)
          (nclasses example_store)
        = cell1 (class_counts example_store) a
          - ind (class_at (word_to_class example_store) eos = a)
            * Z.of_nat (length example_corpus)
        ∧ sumZ (λ b, cell2 (cc_counts example_store) b a)
            (nclasses example_store)
          = cell1 (class_counts example_store) a
            - ind (class_at (word_to_class example_store) bos = a)
              * Z.of_nat (length example_corpus).
Proof.
  apply (class_bigram_rows_and_columns_sum_to_class_counts elements 1
           example_corpus None example_store).
  - vm_compute. reflexivity.
  - apply reach_init. exact example_store_init.
Defined.

(** X22: the class bigram counts are sums of the class-word and of the
    word-class counts.  For every store reached from construction (corpus
    below 2^63 tokens) and all classes a and b: [cc_counts[a, b]] is the
    sum of [cw_counts[a, j]] over the words j of class b, and the sum of
    [wc_counts[i, b]] over the words i of class a. *)
Theorem class_bigram_counts_from_mixed_counts set_iter nc corpus vf o :
  tokens corpus < 2 ^ 63 → reachable set_iter nc corpus vf o →
  ∀ a b, (a < nclasses o)%nat → (b < nclasses o)%nat →
    cell2 (cc_counts o) a b
    = sumZ (λ j, ind (class_at (word_to_class o) j = b)
                 * cell2 (cw_counts o) a j) (nwords o)
    ∧ cell2 (cc_counts o) a b
      = sumZ (λ i, ind (class_at (word_to_class o) i = a)
                   * cell2 (wc_counts o) i b) (nwords o).
Proof.
  intros Hb Hreach a b Ha Hb'.
  destruct (reachable_counts _ _ _ _ _ Hb Hreach)
    as (Hwf & Hag & Hnn1 & Hnn2 & T1 & T2 & _).
  pose proof (tokens_nonneg corpus) as Hpos.
  assert (total2 (ww_counts o) < 2 ^ 63) as Hb2 by lia.
  rewrite (exact_cc_counts o Hwf Hag Hnn2 Hb2 a b Ha Hb'). split.
  - rewrite (agg_cc_from_cw o a b). apply sumZ_ext. intros j Hj.
    by rewrite (exact_cw_counts o Hwf Hag Hnn2 Hb2 a j Ha Hj).
  - rewrite (agg_cc_from_wc o a b). apply sumZ_ext. intros i Hi.
    by rewrite (exact_wc_counts o Hwf Hag Hnn2 Hb2 i b Hi Hb').
Qed.

Lemma class_bigram_counts_from_mixed_counts_witness :
  cell2 (cc_counts example_store) 0 3
  = sumZ (λ j, ind (class_at (word_to_class example_store) j = 3%nat)
               * cell2 (cw_counts example_store) 0 j) (nwords example_store)
  ∧ cell2 (cc_counts example_store) 0 3
    = sumZ (λ i, ind (class_at (word_to_class example_store) i = 0%nat)
                 * cell2 (wc_counts example_store) i 3)
        (nwords example_store).
Proof.
  apply (class_bigram_counts_from_mixed_counts elements 1 example_corpus None
           example_store).
  - vm_compute. reflexivity.
  - apply reach_init. exact example_store_init.
  - vm_compute. lia.
  - vm_compute. lia.
Defined.

Lemma cells1_Forall (P : Z → Prop) a :
  (∀ i, (i < length a)%nat → P (cell1 a i)) → Forall P a.
Proof.
  intros H. apply Forall_lookup_2. intros i x Hx.
  specialize (H i (lookup_lt_Some _ _ _ Hx)). unfold cell1 in H.
  by rewrite Hx in H.
Qed.

Lemma cells2_Forall (P : Z → Prop) a r c :
  shape2 a r c →
  (∀ i j, (i < r)%nat → (j < c)%nat → P (cell2 a i j)) →
  Forall (Forall P) a.
Proof.
  intros [Hl Hall] H. apply Forall_lookup_2. intros i row Hrow.
  apply cells1_Forall. intros j Hj.
  assert (length row = c) as Hc by by eapply Forall_lookup_1 in Hall.
  specialize (H i j ltac:(apply lookup_lt_Some in Hrow; lia) ltac:(lia)).
  unfold cell2 in H. by rewrite Hrow in H.
Qed.

(** Without wrap-around every cell of the class tables lies between 0
    and the total of the word statistics it sums. *)
Lemma tables_bounds o :
  wf o → agrees o → nonneg1 (word_counts o) → nonneg2 (ww_counts o) →
  total1 (word_counts o) < 2 ^ 63 → total2 (ww_counts o) < 2 ^ 63 →
  Forall (λ c, 0 ≤ c ≤ total1 (word_counts o)) (class_counts o)
  ∧ Forall (Forall (λ c, 0 ≤ c ≤ total2 (ww_counts o))) (cc_counts o)
  ∧ Forall (Forall (λ c, 0 ≤ c ≤ total2 (ww_counts o))) (cw_counts o)
  ∧ Forall (Forall (λ c, 0 ≤ c ≤ total2 (ww_counts o))) (wc_counts o).
Proof.
  intros Hwf Hag Hnn1 Hnn2 Hb1 Hb2. split_and!.
  - apply cells1_Forall. intros c Hc.
    rewrite (wf_class_counts o Hwf) in Hc.
    rewrite (exact_class_counts o Hwf Hag Hnn1 Hb1 c Hc).
    apply (agg_cls_bounds o Hwf Hnn1).
  - apply (cells2_Forall _ _ (nclasses o) (nclasses o)); [apply Hwf|].
    intros a b Ha Hb'.
    rewrite (exact_cc_counts o Hwf Hag Hnn2 Hb2 a b Ha Hb').
    apply (agg_cc_bounds o Hwf Hnn2).
  - apply (cells2_Forall _ _ (nclasses o) (nwords o)); [apply Hwf|].
    intros a j Ha Hj.
    rewrite (exact_cw_counts o Hwf Hag Hnn2 Hb2 a j Ha Hj).
    by apply agg_cw_bounds.
  - apply (cells2_Forall _ _ (nwords o) (nclasses o)); [apply Hwf|].
    intros i b Hi Hb'.
    rewrite (exact_wc_counts o Hwf Hag Hnn2 Hb2 i b Hi Hb').
    by apply agg_wc_bounds.
Qed.

(** X23: no count is ever negative, and none exceeds the number of
    tokens.  For every store reached from construction, when the corpus
    has N < 2^63 tokens (the two markers of every line included): every
    cell of [word_counts] and [class_counts] lies between 0 and N, and
    every cell of [ww_counts], [cc_counts], [cw_counts] and [wc_counts]
    between 0 and N less the number of lines; no int64 cell has wrapped
    around. *)
Theorem counts_are_between_0_and_the_number_of_tokens set_iter nc corpus vf o :
  tokens corpus < 2 ^ 63 → reachable set_iter nc corpus vf o →
  let N := tokens corpus in
  let B := tokens corpus - Z.of_nat (length corpus) in
  Forall (λ c, 0 ≤ c ≤ N) (word_counts o)
  ∧ Forall (λ c, 0 ≤ c ≤ N) (class_counts o)
  ∧ Forall (Forall (λ c, 0 ≤ c ≤ B)) (ww_counts o)
  ∧ Forall (Forall (λ c, 0 ≤ c ≤ B)) (cc_counts o)
  ∧ Forall (Forall (λ c, 0 ≤ c ≤ B)) (cw_counts o)
  ∧ Forall (Forall (λ c, 0 ≤ c ≤ B)) (wc_counts o).
Proof.
  intros Hb Hreach N B.
  destruct (reachable_counts _ _ _ _ _ Hb Hreach)
    as (Hwf & Hag & Hnn1 & Hnn2 & T1 & T2 & _).
  pose proof (tokens_nonneg corpus) as Hpos.
  assert (total1 (word_counts o) < 2 ^ 63) as Hb1 by lia.
  assert (total2 (ww_counts o) < 2 ^ 63) as Hb2 by lia.
  destruct (tables_bounds o Hwf Hag Hnn1 Hnn2 Hb1 Hb2)
    as (Bcls & Bcc & Bcw & Bwc).
  unfold N, B. rewrite <- T2, <- T1. split_and!; try done.
  - apply Forall_lookup_2. intros i x Hx.
    by apply (total1_lookup_le _ i).
  - apply (cells2_Forall _ _ (nwords o) (nwords o)); [apply Hwf|].
    intros i j Hi Hj. split; [by apply cell2_nonneg|by apply ww_cell_le].
Qed.

Lemma counts_are_between_0_and_the_number_of_tokens_witness :
  let N := tokens example_corpus in
  let B := tokens example_corpus - Z.of_nat (length example_corpus) in
  Forall (λ c, 0 ≤ c ≤ N) (word_counts example_store)
  ∧ Forall (λ c, 0 ≤ c ≤ N) (class_counts example_store)
  ∧ Forall (Forall (λ c, 0 ≤ c ≤ B)) (ww_counts example_store)
  ∧ Forall (Forall (λ c, 0 ≤ c ≤ B)) (cc_counts example_store)
  ∧ Forall (Forall (λ c, 0 ≤ c ≤ B)) (cw_counts example_store)
  ∧ Forall (Forall (λ c, 0 ≤ c ≤ B)) (wc_counts example_store).
Proof.
  apply (counts_are_between_0_and_the_number_of_tokens elements 1
           example_corpus None example_store).
  - vm_compute. reflexivity.
  - apply reach_init. exact example_store_init.
Defined.

(** X24: the classes partition the words.  In every store reached from
    construction, every word id below the vocabulary size has a class
    below the number of classes, it is a member of the word set of that
    class and of no other class, and no class set holds anything but word
    ids below the vocabulary size. *)
Theorem classes_partition_the_words set_iter nc corpus vf o :
  reachable set_iter nc corpus vf o →
  (∀ w, (w < nwords o)%nat →
     ∃ c s, (c < nclasses o)%nat
       ∧ word_to_class o !! w = Some (Some c)
       ∧ class_to_words o !! c = Some s ∧ w ∈ s
       ∧ ∀ c' s', class_to_words o !! c' = Some s' → w ∈ s' → c' = c)
  ∧ (∀ c s w, class_to_words o !! c = Some s → w ∈ s → (w < nwords o)%nat)
  ∧ length (class_to_words o) = nclasses o.
Proof.
  intros Hreach.
  destruct (reachable_store _ _ _ _ _ Hreach) as (_ & _ & _ & Hwf & _).
  split_and!.
  - intros w Hw. destruct (wf_class_at o w Hwf Hw) as [Hcl Hc].
    destruct (class_set_of_word o w _ Hwf Hcl) as (s & Hs & Hin).
    exists (class_at (word_to_class o) w), s. split_and!; try done.
    intros c' s' Hs' Hin'. apply (wf_inverse o Hwf c' s' Hs') in Hin'.
    congruence.
  - intros c s w Hs Hin. apply (wf_inverse o Hwf c s Hs) in Hin.
    apply lookup_lt_Some in Hin. by rewrite (wf_word_to_class o Hwf) in Hin.
  - apply Hwf.
Qed.

Lemma classes_partition_the_words_witness :
  (∀ w, (w < nwords example_store)%nat →
     ∃ c s, (c < nclasses example_store)%nat
       ∧ word_to_class example_store !! w = Some (Some c)
       ∧ class_to_words example_store !! c = Some s ∧ w ∈ s
       ∧ ∀ c' s', class_to_words example_store !! c' = Some s' → w ∈ s' →
           c' = c)
  ∧ (∀ c s w, class_to_words example_store !! c = Some s → w ∈ s →
       (w < nwords example_store)%nat)
  ∧ length (class_to_words example_store) = nclasses example_store.
Proof.
  apply (classes_partition_the_words elements 1 example_corpus None).
  apply reach_init. exact example_store_init.
Defined.

(** ** When the log likelihood is a number *)

Lemma positive_cell (a : list Z) :
  nonneg1 a → 0 < total1 a → ∃ c, c ∈ a ∧ 0 < c.
Proof.
  induction a as [|x a IH]; intros Hnn Hpos; simpl in *; [lia|].
  apply Forall_cons in Hnn as [Hx Hnn].
  destruct (decide (0 < x)) as [?|?].
  - exists x. split; [by left|done].
  - destruct IH as (c & Hc & Hpc); [done|unfold total1 in *; lia|].
    exists c. split; [by right|done].
Qed.

Lemma total1_mjoin (a : list (list Z)) : total1 (mjoin a) = total2 a.
Proof.
  unfold total2. induction a as [|row a IH]; simpl; [done|].
  rewrite total1_app, IH. done.
Qed.

Lemma nonneg1_mjoin (a : list (list Z)) : nonneg2 a → nonneg1 (mjoin a).
Proof.
  unfold nonneg2, nonneg1. induction 1 as [|row a Hrow _ IH]; simpl; [done|].
  by apply Forall_app.
Qed.

Lemma ma_sum_some np_log np_sum (l : list Z) c :
  c ∈ l → 0 < c → PrimFloat.is_finite (np_log (of_int64 c)) = true →
  ∃ v, ma_sum np_sum (ma_log_times np_log <$> l) = Some v.
Proof.
  intros Hc Hpos Hfin. unfold ma_sum.
  destruct (forallb _ _) eqn:Hall; [|eauto].
  rewrite forallb_forall in Hall.
  assert (In (ma_log_times np_log c) (ma_log_times np_log <$> l)) as Hin.
  { apply list_elem_of_In, list_elem_of_fmap. eauto. }
  apply Hall, bool_decide_eq_true in Hin.
  unfold ma_log_times in Hin. rewrite Hfin in Hin.
  destruct (Z.leb_spec c 0); [lia|]. done.
Qed.

(** X25: the log likelihood of a corpus that is not empty is a number.
    For every store reached from construction from a corpus of at least
    one line and N < 2^63 tokens, with a logarithm that is finite at
    every count from 1 to N, each of the three sums of [log_likelihood]
    has a cell that is not masked, and the call returns a float, not the
    masked constant. *)
Theorem log_likelihood_of_nonempty_corpus
    np_log np_sum set_iter nc corpus vf o :
  (∀ c, 0 < c ≤ tokens corpus →
     PrimFloat.is_finite (np_log (of_int64 c)) = true) →
  corpus ≠ [] → tokens corpus < 2 ^ 63 →
  reachable set_iter nc corpus vf o →
  ∃ v, log_likelihood np_log np_sum o = (Ok (Some v), o).
Proof.
  intros Hfin Hne Hb Hreach.
  destruct (reachable_counts _ _ _ _ _ Hb Hreach)
    as (Hwf & Hag & Hnn1 & Hnn2 & T1 & T2 & _).
  pose proof (tokens_nonneg corpus) as Hpos.
  assert (0 < Z.of_nat (length corpus)
          ∧ 2 * Z.of_nat (length corpus) ≤ tokens corpus) as [HL HN].
  { clear -Hne. destruct corpus as [|line corpus]; [done|]. split.
    - simpl. lia.
    - clear Hne. generalize (line :: corpus) as c. intros c.
      induction c as [|l c IH]; simpl; [done|].
      rewrite Nat2Z.inj_succ. lia. }
  assert (total1 (word_counts o) < 2 ^ 63) as Hb1 by lia.
  assert (total2 (ww_counts o) < 2 ^ 63) as Hb2 by lia.
  pose proof (class_counts_total o Hwf Hag Hnn1 Hb1) as Tc.
  pose proof (cc_counts_total o Hwf Hag Hnn2 Hb2) as Tcc.
  destruct (tables_bounds o Hwf Hag Hnn1 Hnn2 Hb1 Hb2) as (Bcls & Bcc & _).
  assert (nonneg1 (class_counts o)) as Ncls
    by (eapply Forall_impl; [exact Bcls|]; simpl; lia).
  assert (nonneg2 (cc_counts o)) as Ncc.
  { eapply Forall_impl; [exact Bcc|]. intros row Hrow.
    eapply Forall_impl; [exact Hrow|]. simpl. lia. }
  destruct (positive_cell (word_counts o) Hnn1) as (c1 & Hc1 & Hp1); [lia|].
  destruct (positive_cell (class_counts o) Ncls) as (c2 & Hc2 & Hp2); [lia|].
  destruct (positive_cell (mjoin (cc_counts o))) as (c3 & Hc3 & Hp3).
  { by apply nonneg1_mjoin. }
  { rewrite total1_mjoin. lia. }
  assert (c1 ≤ tokens corpus) as Hu1.
  { apply list_elem_of_lookup in Hc1 as [i Hi].
    pose proof (total1_lookup_le _ i c1 Hnn1 Hi). lia. }
  assert (c2 ≤ tokens corpus) as Hu2.
  { rewrite Forall_forall in Bcls. specialize (Bcls c2 Hc2). lia. }
  assert (c3 ≤ tokens corpus) as Hu3.
  { apply list_elem_of_join in Hc3 as (row & Hc3 & Hrow).
    rewrite Forall_forall in Bcc. specialize (Bcc row Hrow).
    rewrite Forall_forall in Bcc. specialize (Bcc c3 Hc3). lia. }
  destruct (ma_sum_some np_log np_sum _ c1 Hc1 Hp1) as [v1 E1];
    [apply Hfin; lia|].
  destruct (ma_sum_some np_log np_sum _ c2 Hc2 Hp2) as [v2 E2];
    [apply Hfin; lia|].
  destruct (ma_sum_some np_log np_sum _ c3 Hc3 Hp3) as [v3 E3];
    [apply Hfin; lia|].
  unfold log_likelihood, read. rewrite E1, E2, E3. simpl. eauto.
Qed.

Lemma log_likelihood_of_nonempty_corpus_witness :
  ∃ v, log_likelihood log_stub (foldl PrimFloat.add PrimFloat.zero)
         example_store = (Ok (Some v), example_store).
Proof.
  apply (log_likelihood_of_nonempty_corpus log_stub
           (foldl PrimFloat.add PrimFloat.zero) elements 1 example_corpus
           None example_store).
  - intros c Hc.
    assert (tokens example_corpus = 10) as E by (vm_compute; reflexivity).
    rewrite E in Hc.
    assert (c = 1 ∨ c = 2 ∨ c = 3 ∨ c = 4 ∨ c = 5 ∨ c = 6 ∨ c = 7 ∨ c = 8
            ∨ c = 9 ∨ c = 10) as Hcases by lia.
    repeat destruct Hcases as [->|Hcases]; try subst c; vm_compute;
      reflexivity.
  - discriminate.
  - vm_compute. reflexivity.
  - apply reach_init. exact example_store_init.
Defined.
